(** * Architecture Visualizer: dependency graph engine

    A shallow embedding of the graph utilities ([utils/graph-utils.ts]), the
    dependency-graph, circular-detector, module-mapper and complexity tools
    and the Python dependency classifier, together with the properties the
    specification states about them.

    Conventions.
    - JavaScript strings are [string]; arrays are lists in array order, except
      the Tarjan stack, whose top (the end of the JS array) is the list head.
    - [Map<string, number>] is [gmap string nat], [Set<string>] is
      [gset string] or, where iteration order is observable, a list without
      duplicates in insertion order.
    - The file system ([fs.existsSync]) and the parsers' output are
      parameters of the functions that consult them.
    - Recursion that is not structural (the depth-first searches) carries
      fuel; the totality lemmas show that the fuel supplied by the callers
      is never exhausted. *)

From Stdlib Require Import ZArith QArith Qabs Qround Qpower Reals Lqa Lra Lia Ascii String.
From stdpp Require Import gmap strings list fin_maps sorting relations.

Local Open Scope string_scope.
Local Open Scope list_scope.
Local Open Scope nat_scope.

(** ** Node's [path.posix] *)

Module Path.

Definition slash : ascii := "/"%char.

Fixpoint split_on (sep : ascii) (cur s : string) : list string :=
  match s with
  | EmptyString => [cur]
  | String c s' =>
      if Ascii.eqb c sep then cur :: split_on sep "" s'
      else split_on sep (cur +:+ String c "") s'
  end.

(** [s.split(sep)] for a one-character separator. *)
Definition split (sep : ascii) (s : string) : list string := split_on sep "" s.

(** [parts.join(sep)]. *)
Fixpoint join_with (sep : string) (parts : list string) : string :=
  match parts with
  | [] => ""
  | [p] => p
  | p :: rest => p +:+ sep +:+ join_with sep rest
  end.

Definition isAbsolute (p : string) : bool :=
  match p with
  | String c _ => Ascii.eqb c slash
  | EmptyString => false
  end.

Fixpoint endsWithSlash (p : string) : bool :=
  match p with
  | EmptyString => false
  | String c EmptyString => Ascii.eqb c slash
  | String _ p' => endsWithSlash p'
  end.

(** [normalizeString]: resolves [.] and [..] segments and drops empty ones.
    [acc] is the result so far, last segment first. *)
Fixpoint normalizeSegments (allowAboveRoot : bool) (acc segs : list string)
  : list string :=
  match segs with
  | [] => rev acc
  | seg :: rest =>
      if String.eqb seg "" || String.eqb seg "." then
        normalizeSegments allowAboveRoot acc rest
      else if String.eqb seg ".." then
        match acc with
        | last :: acc' =>
            if String.eqb last ".." then
              normalizeSegments allowAboveRoot
                (if allowAboveRoot then ".." :: acc else acc) rest
            else normalizeSegments allowAboveRoot acc' rest
        | [] =>
            normalizeSegments allowAboveRoot
              (if allowAboveRoot then [".."] else []) rest
        end
      else normalizeSegments allowAboveRoot (seg :: acc) rest
  end.

Definition normalizeString (p : string) (allowAboveRoot : bool) : string :=
  join_with "/" (normalizeSegments allowAboveRoot [] (split slash p)).

Definition normalize (p : string) : string :=
  match p with
  | EmptyString => "."
  | _ =>
      let abs := isAbsolute p in
      let trailing := endsWithSlash p in
      let body := normalizeString p (negb abs) in
      match body with
      | EmptyString =>
          if abs then "/" else if trailing then "./" else "."
      | _ =>
          let body' := if trailing then body +:+ "/" else body in
          if abs then "/" +:+ body' else body'
      end
  end.

(** [path.join(...parts)]: empty arguments are skipped. *)
Definition joinAll (parts : list string) : string :=
  match filter (fun s => s <> "") parts with
  | [] => "."
  | parts' => normalize (join_with "/" parts')
  end.

Definition join (a b : string) : string := joinAll [a; b].

(** [path.resolve(p)] in a process whose working directory is [cwd]
    (an absolute path). *)
Definition resolve (cwd p : string) : string :=
  let full := if isAbsolute p then p else cwd +:+ "/" +:+ p in
  "/" +:+ normalizeString full false.

Fixpoint string_of_chars (l : list ascii) : string :=
  match l with
  | [] => EmptyString
  | c :: l' => String c (string_of_chars l')
  end.

Fixpoint chars_of_string (s : string) : list ascii :=
  match s with
  | EmptyString => []
  | String c s' => c :: chars_of_string s'
  end.

Fixpoint drop_while (f : ascii -> bool) (l : list ascii) : list ascii :=
  match l with
  | [] => []
  | c :: l' => if f c then drop_while f l' else l
  end.

(** [path.dirname]: scans from the end down to index 1, skipping trailing
    slashes and then the last component; [end] is the index of the slash
    found there. *)
Definition dirname (p : string) : string :=
  match p with
  | EmptyString => "."
  | String c0 tl =>
      let hasRoot := Ascii.eqb c0 slash in
      let r := drop_while (fun c => Ascii.eqb c slash) (rev (chars_of_string tl)) in
      let r := drop_while (fun c => negb (Ascii.eqb c slash)) r in
      match r with
      | [] => if hasRoot then "/" else "."
      | _ :: before =>
          match before with
          | [] => if hasRoot then "//" else String c0 ""
          | _ => String c0 (string_of_chars (rev before))
          end
      end
  end.

End Path.

(** ** The graphlib [Graph] (directed, not multigraph, not compound)

    graphlib is an external dependency of the repository; this is a model of
    the part of it the tools use, after the library's [lib/graph.js],
    [lib/alg/topsort.js] and [lib/alg/is-acyclic.js].  graphlib keeps nodes,
    successor and predecessor sets and edges in objects whose keys iterate in
    insertion order (module paths are never array-index-like keys), so the
    model keeps the nodes and the edges as lists in insertion order; an edge
    is never removed by the tools. *)

Inductive RelType := Import | Export | ReExport | DynamicImport | RequireCall.

Record NodeLabel := { path : string }.

Record EdgeLabel := { etype : RelType; eweight : nat }.

Record Graph := {
  g_nodes : list (string * option NodeLabel);
  g_edges : list (string * string * EdgeLabel)
}.

Module Graphlib.

Definition empty : Graph := {| g_nodes := []; g_edges := [] |}.

Definition nodes (g : Graph) : list string := map fst (g_nodes g).

Definition nodeCount (g : Graph) : nat := length (g_nodes g).

Definition hasNode (g : Graph) (v : string) : bool :=
  bool_decide (v ∈ nodes g).

Definition node (g : Graph) (v : string) : option NodeLabel :=
  match filter (fun p => fst p = v) (g_nodes g) with
  | (_, l) :: _ => l
  | [] => None
  end.

(** [g.setNode(v)]: creates [v] with no label unless it exists. *)
Definition ensureNode (v : string) (g : Graph) : Graph :=
  if hasNode g v then g
  else {| g_nodes := g_nodes g ++ [(v, None)]; g_edges := g_edges g |}.

(** [g.setNode(v, label)]: creates [v] or replaces its label. *)
Definition setNode (v : string) (l : NodeLabel) (g : Graph) : Graph :=
  if hasNode g v then
    {| g_nodes := map (fun p => if decide (fst p = v) then (v, Some l) else p)
                      (g_nodes g);
       g_edges := g_edges g |}
  else {| g_nodes := g_nodes g ++ [(v, Some l)]; g_edges := g_edges g |}.

Definition edgeEnds (e : string * string * EdgeLabel) : string * string :=
  (fst (fst e), snd (fst e)).

Definition hasEdge (g : Graph) (v w : string) : bool :=
  bool_decide ((v, w) ∈ map edgeEnds (g_edges g)).

(** [g.setEdge(v, w, label)]: replaces the label of the edge when it exists;
    otherwise makes sure both ends are nodes and adds the edge. *)
Definition setEdge (v w : string) (l : EdgeLabel) (g : Graph) : Graph :=
  if hasEdge g v w then
    {| g_nodes := g_nodes g;
       g_edges := map (fun e => if decide (edgeEnds e = (v, w)) then (v, w, l) else e)
                      (g_edges g) |}
  else
    let g1 := ensureNode w (ensureNode v g) in
    {| g_nodes := g_nodes g1; g_edges := g_edges g1 ++ [(v, w, l)] |}.

(** [g.edges()] as (v, w) pairs. *)
Definition edges (g : Graph) : list (string * string) :=
  map edgeEnds (g_edges g).

(** [g.edge(v, w)]. *)
Definition edge (g : Graph) (v w : string) : option EdgeLabel :=
  match filter (fun e => edgeEnds e = (v, w)) (g_edges g) with
  | (_, _, l) :: _ => Some l
  | [] => None
  end.

(** [g.successors(v)]: [undefined] (here [None]) when [v] is no node. *)
Definition successors (g : Graph) (v : string) : option (list string) :=
  if hasNode g v then
    Some (map snd (filter (fun e => fst e = v) (edges g)))
  else None.

Definition predecessors (g : Graph) (v : string) : option (list string) :=
  if hasNode g v then
    Some (map fst (filter (fun e => snd e = v) (edges g)))
  else None.

(** [g.sinks()]: the nodes without out-edges. *)
Definition sinks (g : Graph) : list string :=
  filter (fun v => filter (fun e => fst e = v) (edges g) = []) (nodes g).

(** [alg.topsort]: depth-first search along predecessor edges started at
    every sink.  [ts_stack] is the set of nodes whose visit is in progress;
    meeting one of them again raises [CycleException], modelled by [Cycle]. *)
Record TopsortState := {
  ts_visited : gset string;
  ts_stack : gset string;
  ts_results : list string
}.

Inductive Outcome (A : Type) :=
| Done (a : A)
| Cycle
| OutOfFuel.
Arguments Done {A} a.
Arguments Cycle {A}.
Arguments OutOfFuel {A}.

Fixpoint forEach {A : Type} (f : string -> A -> Outcome A) (l : list string)
  (st : A) : Outcome A :=
  match l with
  | [] => Done st
  | x :: l' =>
      match f x st with
      | Done st' => forEach f l' st'
      | other => other
      end
  end.

Fixpoint visit (g : Graph) (fuel : nat) (v : string) (st : TopsortState)
  : Outcome TopsortState :=
  match fuel with
  | O => OutOfFuel
  | S fuel' =>
      if decide (v ∈ ts_stack st) then Cycle
      else if decide (v ∈ ts_visited st) then Done st
      else
        let st1 := {| ts_visited := {[v]} ∪ ts_visited st;
                      ts_stack := {[v]} ∪ ts_stack st;
                      ts_results := ts_results st |} in
        match forEach (visit g fuel') (default [] (predecessors g v)) st1 with
        | Done st2 =>
            Done {| ts_visited := ts_visited st2;
                    ts_stack := ts_stack st2 ∖ {[v]};
                    ts_results := ts_results st2 ++ [v] |}
        | other => other
        end
  end.

Definition topsort (g : Graph) : Outcome (list string) :=
  let st0 := {| ts_visited := ∅; ts_stack := ∅; ts_results := [] |} in
  match forEach (visit g (S (nodeCount g))) (sinks g) st0 with
  | Done st =>
      if decide (size (ts_visited st) = nodeCount g) then Done (ts_results st)
      else Cycle
  | Cycle => Cycle
  | OutOfFuel => OutOfFuel
  end.

(** [alg.isAcyclic]: [topsort] completed without [CycleException]. *)
Definition isAcyclic (g : Graph) : bool :=
  match topsort g with
  | Done _ => true
  | _ => false
  end.

End Graphlib.

(** ** [types.ts] *)

Record Relationship := {
  source : string;
  target : string;
  rtype : RelType;
  imports : option (list string);
  weight : nat
}.

Inductive Severity := low | medium | high | critical.

(** [DependencyCycle]; the [description] and [suggestions] texts are
    presentation only and left out. *)
Record DependencyCycle := {
  cnodes : list string;
  clength : nat;
  severity : Severity
}.

#[global] Instance Severity_eq_dec : EqDecision Severity.
Proof. solve_decision. Defined.

#[global] Instance RelType_eq_dec : EqDecision RelType.
Proof. solve_decision. Defined.

(** ** [utils/graph-utils.ts] *)

Module GraphUtils.

Definition buildGraph (relationships : list Relationship) : Graph :=
  fold_left
    (fun graph rel =>
       let graph :=
         if Graphlib.hasNode graph (source rel) then graph
         else Graphlib.setNode (source rel) {| path := source rel |} graph in
       let graph :=
         if Graphlib.hasNode graph (target rel) then graph
         else Graphlib.setNode (target rel) {| path := target rel |} graph in
       Graphlib.setEdge (source rel) (target rel)
         {| etype := rtype rel; eweight := weight rel |} graph)
    relationships Graphlib.empty.

(** [graph.successors(node) || []] *)
Definition successorsOf (g : Graph) (v : string) : list string :=
  default [] (Graphlib.successors g v).

(** [graph.predecessors(node) || []] *)
Definition predecessorsOf (g : Graph) (v : string) : list string :=
  default [] (Graphlib.predecessors g v).

(** The variables [findStronglyConnectedComponents] closes over. *)
Record Tarjan := {
  indices : gmap string nat;
  lowLinks : gmap string nat;
  onStack : gset string;
  stack : list string;
  sccs : list (list string);
  index : nat
}.

Definition initial : Tarjan :=
  {| indices := ∅; lowLinks := ∅; onStack := ∅; stack := []; sccs := [];
     index := 0 |}.

(** [lowLinks.get(v)!] and [indices.get(v)!] *)
Definition lowOf (st : Tarjan) (v : string) : nat := default 0 (lowLinks st !! v).
Definition indexOf (st : Tarjan) (v : string) : nat := default 0 (indices st !! v).

Definition setLow (v : string) (n : nat) (st : Tarjan) : Tarjan :=
  {| indices := indices st; lowLinks := <[v := n]> (lowLinks st);
     onStack := onStack st; stack := stack st; sccs := sccs st;
     index := index st |}.

(** The first five statements of [strongConnect]. *)
Definition enter (v : string) (st : Tarjan) : Tarjan :=
  {| indices := <[v := index st]> (indices st);
     lowLinks := <[v := index st]> (lowLinks st);
     onStack := {[v]} ∪ onStack st;
     stack := v :: stack st;
     sccs := sccs st;
     index := S (index st) |}.

(** The [do ... while (w !== node)] loop: pops down to [node], collecting
    the popped nodes in pop order.  The stack always holds [node] there. *)
Fixpoint popUntil (v : string) (stk : list string) (ons : gset string)
  (scc : list string) : list string * gset string * list string :=
  match stk with
  | [] => ([], ons, scc)
  | w :: stk' =>
      if decide (w = v) then (stk', ons ∖ {[w]}, scc ++ [w])
      else popUntil v stk' (ons ∖ {[w]}) (scc ++ [w])
  end.

(** The last statement of [strongConnect]. *)
Definition leave (v : string) (st : Tarjan) : Tarjan :=
  if decide (lowOf st v = indexOf st v) then
    let '(stk, ons, scc) := popUntil v (stack st) (onStack st) [] in
    {| indices := indices st; lowLinks := lowLinks st; onStack := ons;
       stack := stk;
       sccs := if decide (1 < length scc) then sccs st ++ [rev scc] else sccs st;
       index := index st |}
  else st.

(** The [for (const successor of successors)] loop, with the recursive call
    as a parameter. *)
Fixpoint visitSuccessors (call : string -> Tarjan -> option Tarjan)
  (v : string) (succs : list string) (st : Tarjan) : option Tarjan :=
  match succs with
  | [] => Some st
  | w :: rest =>
      match indices st !! w with
      | None =>
          match call w st with
          | Some st' =>
              visitSuccessors call v rest
                (setLow v (Nat.min (lowOf st' v) (lowOf st' w)) st')
          | None => None
          end
      | Some i =>
          if decide (w ∈ onStack st) then
            visitSuccessors call v rest (setLow v (Nat.min (lowOf st v) i) st)
          else visitSuccessors call v rest st
      end
  end.

Fixpoint strongConnect (g : Graph) (fuel : nat) (v : string) (st : Tarjan)
  : option Tarjan :=
  match fuel with
  | O => None
  | S fuel' =>
      match visitSuccessors (strongConnect g fuel') v (successorsOf g v)
              (enter v st) with
      | Some st' => Some (leave v st')
      | None => None
      end
  end.

(** The [for (const node of nodes)] loop. *)
Fixpoint visitNodes (g : Graph) (fuel : nat) (vs : list string) (st : Tarjan)
  : option Tarjan :=
  match vs with
  | [] => Some st
  | v :: rest =>
      match indices st !! v with
      | None =>
          match strongConnect g fuel v st with
          | Some st' => visitNodes g fuel rest st'
          | None => None
          end
      | Some _ => visitNodes g fuel rest st
      end
  end.

Definition runTarjan (g : Graph) : option Tarjan :=
  visitNodes g (S (Graphlib.nodeCount g)) (Graphlib.nodes g) initial.

Definition findStronglyConnectedComponents (g : Graph) : list (list string) :=
  match runTarjan g with
  | Some st => sccs st
  | None => []
  end.

Definition determineCycleSeverity (cycle : list string) (g : Graph) : Severity :=
  let len := length cycle in
  let affectedNodes :=
    fold_left
      (fun affected v =>
         affected + length (filter (fun p => p ∉ cycle) (predecessorsOf g v)))
      cycle 0 in
  if decide (5 <= len \/ 10 <= affectedNodes) then critical
  else if decide (4 <= len \/ 5 <= affectedNodes) then high
  else if decide (3 <= len \/ 2 <= affectedNodes) then medium
  else low.

Definition severityOrder (s : Severity) : nat :=
  match s with
  | critical => 0
  | high => 1
  | medium => 2
  | low => 3
  end.

(** [Array.prototype.sort] with a comparator [key a - key b] is a stable
    sort by [key]; written as the insertion sort that keeps equal keys in
    their original order. *)
Fixpoint insertByKey {A : Type} (key : A -> nat) (x : A) (l : list A) : list A :=
  match l with
  | [] => [x]
  | y :: l' =>
      if decide (key x <= key y) then x :: l else y :: insertByKey key x l'
  end.

Definition sortByKey {A : Type} (key : A -> nat) (l : list A) : list A :=
  foldr (insertByKey key) [] l.

Definition findCycles (g : Graph) : list DependencyCycle :=
  let sccs := findStronglyConnectedComponents g in
  let cycles :=
    map (fun scc =>
           {| cnodes := scc; clength := length scc;
              severity := determineCycleSeverity scc g |}) sccs in
  sortByKey (fun c => severityOrder (severity c)) cycles.

(** [getShortName]: the part after the last slash, or the whole path when
    that part is empty. *)
Definition getShortName (p : string) : string :=
  match last (Path.split Path.slash p) with
  | Some EmptyString | None => p
  | Some s => s
  end.

(** The [nodes] array that [generateJsonGraph] serializes. *)
Definition jsonNodes (g : Graph) : list (string * string * option NodeLabel) :=
  map (fun v => (v, getShortName v, Graphlib.node g v)) (Graphlib.nodes g).

(** The [edges] array that [generateJsonGraph] serializes. *)
Definition jsonEdges (g : Graph) : list (string * string * option EdgeLabel) :=
  map (fun e => (fst e, snd e, Graphlib.edge g (fst e) (snd e))) (Graphlib.edges g).

Definition isDAG (g : Graph) : bool := Graphlib.isAcyclic g.

(** [edge?.weight ?? 1] *)
Definition edgeWeight (g : Graph) (v w : string) : nat :=
  match Graphlib.edge g v w with
  | Some l => eweight l
  | None => 1
  end.

(** The loop of [generateCycleSuggestions] from index [i] on: [minWeight]
    is [None] while it is [Infinity]. *)
Fixpoint weakestFrom (g : Graph) (cycle : list string) (i : nat)
  (rest : list string) (minWeight : option nat)
  (weakestEdge : option (string * string)) : option (string * string) :=
  match rest with
  | [] => weakestEdge
  | from :: rest' =>
      let to := default "" (cycle !! ((i + 1) mod length cycle)) in
      let weight := edgeWeight g from to in
      if match minWeight with
         | Some m => bool_decide (weight < m)
         | None => true
         end
      then weakestFrom g cycle (S i) rest' (Some weight) (Some (from, to))
      else weakestFrom g cycle (S i) rest' minWeight weakestEdge
  end.

Definition weakestEdge (cycle : list string) (g : Graph)
  : option (string * string) :=
  weakestFrom g cycle 0 cycle None None.

Definition weakestLinkText (from to : string) : string :=
  "Consider breaking the dependency from '" +:+ getShortName from
  +:+ "' to '" +:+ getShortName to
  +:+ "' as it appears to be the weakest link.".

Definition generalSuggestions : list string :=
  ["Extract shared code into a separate module that both can depend on.";
   "Use dependency injection to invert the dependency direction.";
   "Consider using interfaces/protocols to break the direct dependency.";
   "Evaluate if the circular dependency indicates a design issue that needs refactoring."].

Definition generateCycleSuggestions (cycle : list string) (g : Graph)
  : list string :=
  match weakestEdge cycle g with
  | Some (from, to) => [weakestLinkText from to]
  | None => []
  end ++ generalSuggestions.

(** [GraphStats]; [averageDependencies] is an exact rational. *)
Record GraphStats := {
  totalNodes : nat;
  totalEdges : nat;
  averageDependencies : Q;
  maxDependencies : nat;
  mostConnected : list string;
  entryPoints : list string;
  leafNodes : list string
}.

Definition totalConnections (g : Graph) (node : string) : nat :=
  length (successorsOf g node) + length (predecessorsOf g node).

(** The variables of the first loop of [calculateGraphStats]. *)
Record Tally := {
  dependencies : gmap string nat;
  maxDeps : nat;
  connected : list string
}.

Definition tally (g : Graph) (t : Tally) (node : string) : Tally :=
  let total := totalConnections g node in
  let deps := <[node := total]> (dependencies t) in
  if decide (maxDeps t < total) then
    {| dependencies := deps; maxDeps := total; connected := [node] |}
  else if decide (total = maxDeps t) then
    {| dependencies := deps; maxDeps := maxDeps t;
       connected := connected t ++ [node] |}
  else {| dependencies := deps; maxDeps := maxDeps t; connected := connected t |}.

Definition calculateGraphStats (g : Graph) : GraphStats :=
  let nodes := Graphlib.nodes g in
  let edges := Graphlib.edges g in
  match nodes with
  | [] =>
      {| totalNodes := 0; totalEdges := 0; averageDependencies := 0;
         maxDependencies := 0; mostConnected := []; entryPoints := [];
         leafNodes := [] |}
  | _ =>
      let t := fold_left (tally g) nodes
                 {| dependencies := ∅; maxDeps := 0; connected := [] |} in
      let totalDependencies :=
        map_fold (fun _ n sum => sum + n) 0 (dependencies t) in
      {| totalNodes := length nodes;
         totalEdges := length edges;
         averageDependencies :=
           (inject_Z (Z.of_nat totalDependencies)
            / inject_Z (Z.of_nat (length nodes)) / 2)%Q;
         maxDependencies := maxDeps t;
         mostConnected := connected t;
         entryPoints :=
           filter (fun node => length (predecessorsOf g node) = 0) nodes;
         leafNodes :=
           filter (fun node => length (successorsOf g node) = 0) nodes |}
  end.

(** The variables [findAllPaths] closes over. *)
Record PathSearch := {
  ps_paths : list (list string);
  ps_visited : gset string
}.

(** The [for (const successor of successors)] loop of [dfs], with the
    recursive call as a parameter. *)
Fixpoint forSuccessors (call : string -> PathSearch -> option PathSearch)
  (succs : list string) (st : PathSearch) : option PathSearch :=
  match succs with
  | [] => Some st
  | s :: rest =>
      if decide (s ∈ ps_visited st) then forSuccessors call rest st
      else
        match call s st with
        | Some st' => forSuccessors call rest st'
        | None => None
        end
  end.

(** [dfs]: the array [path] is pushed to before and popped after every
    recursive call, so each call sees its caller's path with the successor
    appended. *)
Fixpoint dfs (g : Graph) (endNode : string) (maxPaths fuel : nat)
  (current : string) (path : list string) (st : PathSearch)
  : option PathSearch :=
  match fuel with
  | O => None
  | S fuel' =>
      if decide (maxPaths <= length (ps_paths st)) then Some st
      else if decide (current = endNode) then
        Some {| ps_paths := ps_paths st ++ [path]; ps_visited := ps_visited st |}
      else
        match forSuccessors
                (fun s st => dfs g endNode maxPaths fuel' s (path ++ [s]) st)
                (successorsOf g current)
                {| ps_paths := ps_paths st;
                   ps_visited := {[current]} ∪ ps_visited st |} with
        | Some st' =>
            Some {| ps_paths := ps_paths st';
                    ps_visited := ps_visited st' ∖ {[current]} |}
        | None => None
        end
  end.

Definition findAllPaths (g : Graph) (start endNode : string) (maxPaths : nat)
  : list (list string) :=
  if Graphlib.hasNode g start && Graphlib.hasNode g endNode then
    match dfs g endNode maxPaths (S (Graphlib.nodeCount g)) start [start]
            {| ps_paths := []; ps_visited := ∅ |} with
    | Some st => ps_paths st
    | None => []
    end
  else [].

(** The [while (queue.length > 0)] loop of [getTransitiveDependencies] and
    [getReverseDependencies]; [next] is the neighbour list followed and
    [visited] the set in insertion order. *)
Fixpoint bfs (next : string -> list string) (fuel : nat)
  (queue visited : list string) {struct fuel} : option (list string) :=
  match queue with
  | [] => Some visited
  | current :: rest =>
      match fuel with
      | O => None
      | S fuel' =>
          if decide (current ∈ visited) then bfs next fuel' rest visited
          else
            let visited := visited ++ [current] in
            bfs next fuel'
              (rest ++ filter (fun s => s ∉ visited) (next current)) visited
      end
  end.

Definition getTransitiveDependencies (g : Graph) (node : string) : list string :=
  match bfs (successorsOf g) (S (length (g_edges g))) [node] [] with
  | Some visited => filter (fun v => v <> node) visited
  | None => []
  end.

Definition getReverseDependencies (g : Graph) (node : string) : list string :=
  match bfs (predecessorsOf g) (S (length (g_edges g))) [node] [] with
  | Some visited => filter (fun v => v <> node) visited
  | None => []
  end.

Definition calculateNodeDepth (g : Graph) (node : string) : nat :=
  let entryPoints :=
    filter (fun n => length (predecessorsOf g n) = 0) (Graphlib.nodes g) in
  if decide (node ∈ entryPoints) then 0
  else
    fold_left
      (fun maxDepth entry =>
         match findAllPaths g entry node 1 with
         | p :: _ => Nat.max maxDepth (length p - 1)
         | [] => maxDepth
         end)
      entryPoints 0.

(** [getTopologicalSort]: [Done None] is [null]. *)
Definition getTopologicalSort (g : Graph)
  : Graphlib.Outcome (option (list string)) :=
  if negb (isDAG g) then Graphlib.Done None
  else
    match Graphlib.topsort g with
    | Graphlib.Done order => Graphlib.Done (Some order)
    | Graphlib.Cycle => Graphlib.Cycle
    | Graphlib.OutOfFuel => Graphlib.OutOfFuel
    end.

End GraphUtils.

(** ** Dependencies, as the parsers classify them *)

Inductive DepType := internal | external | builtin.

#[global] Instance DepType_eq_dec : EqDecision DepType.
Proof. solve_decision. Defined.

Record Dependency := {
  dfrom : string;
  dto : string;
  dtype : DepType;
  packageName : option string;
  importStatements : list string
}.

Inductive Language := typescript | javascript | python.

#[global] Instance Language_eq_dec : EqDecision Language.
Proof. solve_decision. Defined.

(** ** [parsers/python-parser.ts]: [classifyPythonDependency] *)

Module PythonParser.

Definition dot : ascii := "."%char.

Definition startsWithDot (s : string) : bool :=
  match s with
  | String c _ => Ascii.eqb c dot
  | EmptyString => false
  end.

Definition builtins : list string :=
  ["abc"; "aifc"; "argparse"; "array"; "ast"; "asynchat"; "asyncio"; "asyncore";
   "atexit"; "audioop"; "base64"; "bdb"; "binascii"; "binhex"; "bisect"; "builtins";
   "bz2"; "calendar"; "cgi"; "cgitb"; "chunk"; "cmath"; "cmd"; "code"; "codecs";
   "codeop"; "collections"; "colorsys"; "compileall"; "concurrent"; "configparser";
   "contextlib"; "contextvars"; "copy"; "copyreg"; "cProfile"; "crypt"; "csv";
   "ctypes"; "curses"; "dataclasses"; "datetime"; "dbm"; "decimal"; "difflib";
   "dis"; "distutils"; "doctest"; "email"; "encodings"; "enum"; "errno"; "faulthandler";
   "fcntl"; "filecmp"; "fileinput"; "fnmatch"; "fractions"; "ftplib"; "functools";
   "gc"; "getopt"; "getpass"; "gettext"; "glob"; "graphlib"; "grp"; "gzip"; "hashlib";
   "heapq"; "hmac"; "html"; "http"; "idlelib"; "imaplib"; "imghdr"; "imp"; "importlib";
   "inspect"; "io"; "ipaddress"; "itertools"; "json"; "keyword"; "lib2to3"; "linecache";
   "locale"; "logging"; "lzma"; "mailbox"; "mailcap"; "marshal"; "math"; "mimetypes";
   "mmap"; "modulefinder"; "multiprocessing"; "netrc"; "nis"; "nntplib"; "numbers";
   "operator"; "optparse"; "os"; "ossaudiodev"; "parser"; "pathlib"; "pdb"; "pickle";
   "pickletools"; "pipes"; "pkgutil"; "platform"; "plistlib"; "poplib"; "posix";
   "posixpath"; "pprint"; "profile"; "pstats"; "pty"; "pwd"; "py_compile"; "pyclbr";
   "pydoc"; "queue"; "quopri"; "random"; "re"; "readline"; "reprlib"; "resource";
   "rlcompleter"; "runpy"; "sched"; "secrets"; "select"; "selectors"; "shelve";
   "shlex"; "shutil"; "signal"; "site"; "smtpd"; "smtplib"; "sndhdr"; "socket";
   "socketserver"; "spwd"; "sqlite3"; "ssl"; "stat"; "statistics"; "string"; "stringprep";
   "struct"; "subprocess"; "sunau"; "symbol"; "symtable"; "sys"; "sysconfig"; "syslog";
   "tabnanny"; "tarfile"; "telnetlib"; "tempfile"; "termios"; "test"; "textwrap";
   "threading"; "time"; "timeit"; "tkinter"; "token"; "tokenize"; "trace"; "traceback";
   "tracemalloc"; "tty"; "turtle"; "turtledemo"; "types"; "typing"; "unicodedata";
   "unittest"; "urllib"; "uu"; "uuid"; "venv"; "warnings"; "wave"; "weakref"; "webbrowser";
   "winreg"; "winsound"; "wsgiref"; "xdrlib"; "xml"; "xmlrpc"; "zipapp"; "zipfile";
   "zipimport"; "zlib"; "zoneinfo"].

Definition isPythonBuiltin (moduleName : string) : bool :=
  let baseName := default "" (head (Path.split dot moduleName)) in
  bool_decide (baseName ∈ builtins).

(** The [while (moduleName.startsWith('.'))] loop: the number of leading
    dots and the rest of the specifier. *)
Fixpoint stripDots (moduleName : string) : nat * string :=
  match moduleName with
  | String c rest =>
      if Ascii.eqb c dot then
        let '(dots, name) := stripDots rest in (S dots, name)
      else (0, moduleName)
  | EmptyString => (0, EmptyString)
  end.

(** [for (let i = 1; i < dots; i++) targetDir = path.dirname(targetDir)] *)
Fixpoint goUp (steps : nat) (targetDir : string) : string :=
  match steps with
  | O => targetDir
  | S steps' => goUp steps' (Path.dirname targetDir)
  end.

(** The [for (const p of possiblePaths)] probe. *)
Fixpoint firstExisting (existsSync : string -> bool) (candidates : list string)
  (fallback : string) : string :=
  match candidates with
  | [] => fallback
  | p :: rest =>
      if existsSync p then p else firstExisting existsSync rest fallback
  end.

(** [s.replace(/\./g, '/')] *)
Fixpoint dotsToSlashes (s : string) : string :=
  match s with
  | EmptyString => EmptyString
  | String c rest =>
      String (if Ascii.eqb c dot then Path.slash else c) (dotsToSlashes rest)
  end.

Definition resolveRelative (importPath fromFile : string) : string :=
  let fromDir := Path.dirname fromFile in
  let '(dots, moduleName) := stripDots importPath in
  let targetDir := goUp (dots - 1) fromDir in
  fold_left
    (fun resolvedPath part =>
       if decide (part = "") then resolvedPath else Path.join resolvedPath part)
    (Path.split dot moduleName) targetDir.

Definition classifyPythonDependency (existsSync : string -> bool)
  (importPath fromFile basePath : string) : Dependency :=
  let isRelative := startsWithDot importPath in
  let isBuiltin := isPythonBuiltin importPath in
  if isBuiltin then
    {| dfrom := fromFile; dto := importPath; dtype := builtin;
       packageName := Some importPath; importStatements := [importPath] |}
  else if isRelative then
    let resolvedPath := resolveRelative importPath fromFile in
    let possiblePaths :=
      [resolvedPath +:+ ".py"; Path.join resolvedPath "__init__.py"] in
    {| dfrom := fromFile;
       dto := firstExisting existsSync possiblePaths resolvedPath;
       dtype := internal; packageName := None;
       importStatements := [importPath] |}
  else
    let slashed := dotsToSlashes importPath in
    let possibleLocalPaths :=
      [Path.joinAll [basePath; slashed +:+ ".py"];
       Path.joinAll [basePath; slashed; "__init__.py"];
       Path.joinAll [basePath; "src"; slashed +:+ ".py"];
       Path.joinAll [basePath; "src"; slashed; "__init__.py"]] in
    match filter (fun p => existsSync p = true) possibleLocalPaths with
    | localPath :: _ =>
        {| dfrom := fromFile; dto := localPath; dtype := internal;
           packageName := None; importStatements := [importPath] |}
    | [] =>
        {| dfrom := fromFile; dto := importPath; dtype := external;
           packageName := head (Path.split dot importPath);
           importStatements := [importPath] |}
    end.

End PythonParser.

(** ** [tools/dependency-graph.ts] *)

Module DependencyGraph.

Section WithEnvironment.

(** The process working directory, which [path.resolve] consults. *)
Variable cwd : string.

(** The language-dispatched [extractDependencies] of the three parsers; a
    call that throws leaves no relationships, like an empty result. *)
Variable extractDependencies : Language -> string -> string -> list Dependency.

Definition mkImport (src tgt : string) : Relationship :=
  {| source := src; target := tgt; rtype := Import; imports := None;
     weight := 1 |}.

Definition extensionsOf (language : Language) : list string :=
  if decide (language = python) then [".py"]
  else [".ts"; ".tsx"; ".js"; ".jsx"; ""].

(** The body of the [for (const dep of dependencies)] loop: the
    relationships pushed for one dependency. *)
Definition relationshipsOfDependency (fileSet : list string)
  (language : Language) (includeExternal : bool) (file : string)
  (dep : Dependency) : list Relationship :=
  match dtype dep with
  | external =>
      if includeExternal then
        [mkImport file
           (match packageName dep with
            | Some (String c p) => String c p
            | _ => dto dep
            end)]
      else []
  | builtin => []
  | internal =>
      let resolvedTarget := Path.resolve cwd (dto dep) in
      if decide (resolvedTarget ∈ fileSet) then [mkImport file resolvedTarget]
      else
        match filter (fun ext => resolvedTarget +:+ ext ∈ fileSet)
                (extensionsOf language) with
        | ext :: _ => [mkImport file (resolvedTarget +:+ ext)]
        | [] => if includeExternal then [mkImport file (dto dep)] else []
        end
  end.

Definition extractRelationships (files : list string) (basePath : string)
  (language : Language) (includeExternal : bool) : list Relationship :=
  let fileSet := map (Path.resolve cwd) files in
  flat_map
    (fun file =>
       flat_map (relationshipsOfDependency fileSet language includeExternal file)
         (extractDependencies language file basePath))
    files.

(** "Ensure all files are in the graph as nodes". *)
Definition ensureFiles (files : list string) (graph : Graph) : Graph :=
  fold_left
    (fun graph file =>
       if Graphlib.hasNode graph file then graph
       else Graphlib.setNode file {| path := file |} graph)
    files graph.

(** The graph [generateDependencyGraph] analyses for a non-empty scan. *)
Definition graphOf (files : list string) (basePath : string)
  (language : Language) (includeExternal : bool) : Graph :=
  ensureFiles files
    (GraphUtils.buildGraph
       (extractRelationships files basePath language includeExternal)).

(** The output of [generateDependencyGraph] with [format = 'json'], from the
    scanned file list on: the serialized [nodes] and [edges] arrays, [files],
    [hasCycles] and [cycleCount]. *)
Record Output := {
  graphNodes : list (string * string * option NodeLabel);
  graphEdges : list (string * string * option EdgeLabel);
  filesCount : nat;
  hasCycles : bool;
  cycleCount : nat
}.

Definition generateDependencyGraph (files : list string) (basePath : string)
  (language : Language) (includeExternal : bool) : Output :=
  match files with
  | [] =>
      {| graphNodes := []; graphEdges := []; filesCount := 0;
         hasCycles := false; cycleCount := 0 |}
  | _ =>
      let graph := graphOf files basePath language includeExternal in
      let cycles := GraphUtils.findCycles graph in
      {| graphNodes := GraphUtils.jsonNodes graph;
         graphEdges := GraphUtils.jsonEdges graph;
         filesCount := length files;
         hasCycles := bool_decide (0 < length cycles);
         cycleCount := length cycles |}
  end.

End WithEnvironment.

End DependencyGraph.

(** ** [tools/circular-detector.ts] *)

Module CircularDetector.

Section WithEnvironment.

Variable cwd : string.
Variable extractDependencies : Language -> string -> string -> list Dependency.

Definition mkImport (src tgt : string) : Relationship :=
  {| source := src; target := tgt; rtype := Import; imports := None;
     weight := 1 |}.

Definition extensionsOf (language : Language) : list string :=
  if decide (language = python) then [".py"]
  else [".ts"; ".tsx"; ".js"; ".jsx"; ""].

(** The [for (const ext of extensions)] probe: the first extension for which
    the file or its index file is in the file set. *)
Fixpoint probeExtensions (fileSet : list string) (file resolvedTarget : string)
  (extensions : list string) : list Relationship :=
  match extensions with
  | [] => []
  | ext :: rest =>
      let withExt := resolvedTarget +:+ ext in
      let indexPath := Path.join resolvedTarget ("index" +:+ ext) in
      if decide (withExt ∈ fileSet) then [mkImport file withExt]
      else if decide (indexPath ∈ fileSet) then [mkImport file indexPath]
      else probeExtensions fileSet file resolvedTarget rest
  end.

Definition relationshipsOfDependency (fileSet : list string)
  (language : Language) (file : string) (dep : Dependency)
  : list Relationship :=
  if decide (dtype dep = internal) then
    let resolvedTarget := Path.resolve cwd (dto dep) in
    if decide (resolvedTarget ∈ fileSet) then [mkImport file resolvedTarget]
    else probeExtensions fileSet file resolvedTarget (extensionsOf language)
  else [].

Definition extractRelationships (files : list string) (basePath : string)
  (language : Language) : list Relationship :=
  let fileSet := map (Path.resolve cwd) files in
  flat_map
    (fun file =>
       flat_map (relationshipsOfDependency fileSet language file)
         (extractDependencies language file basePath))
    files.

(** [arr.slice(0, end)] for an integral [end]: a negative [end] counts from
    the end of the array. *)
Definition slice0 {A : Type} (l : list A) (e : Z) : list A :=
  if decide (e < 0)%Z then take (length l - Z.to_nat (- e)) l
  else take (Z.to_nat e) l.

(** [Array.from(new Set(...))] after adding the elements of [l] in order. *)
Definition setOfList (l : list string) : list string :=
  fold_left (fun seen x => if decide (x ∈ seen) then seen else seen ++ [x]) l [].

Record Summary := {
  s_critical : nat;
  s_high : nat;
  s_medium : nat;
  s_low : nat
}.

(** [DetectCircularDependenciesOutput] without the [recommendations] text. *)
Record Output := {
  hasCycles : bool;
  totalCycles : nat;
  cycles : list DependencyCycle;
  summary : Summary;
  affectedFiles : list string
}.

Definition countSeverity (s : Severity) (cs : list DependencyCycle) : nat :=
  length (filter (fun c => severity c = s) cs).

(** [detectCircularDependencies] from the scanned file list on. *)
Definition detectCircularDependencies (files : list string) (inputPath : string)
  (language : Language) (maxCycles : Z) : Output :=
  match files with
  | [] =>
      {| hasCycles := false; totalCycles := 0; cycles := [];
         summary := {| s_critical := 0; s_high := 0; s_medium := 0; s_low := 0 |};
         affectedFiles := [] |}
  | _ =>
      let relationships := extractRelationships files inputPath language in
      let graph := GraphUtils.buildGraph relationships in
      let allCycles := GraphUtils.findCycles graph in
      {| hasCycles := bool_decide (0 < length allCycles);
         totalCycles := length allCycles;
         cycles := slice0 allCycles maxCycles;
         summary :=
           {| s_critical := countSeverity critical allCycles;
              s_high := countSeverity high allCycles;
              s_medium := countSeverity medium allCycles;
              s_low := countSeverity low allCycles |};
         affectedFiles := setOfList (flat_map cnodes allCycles) |}
  end.

End WithEnvironment.

End CircularDetector.

(** ** [tools/module-mapper.ts]: coupling and cohesion

    JavaScript numbers are modelled by exact rationals here: every value is
    a quotient of two small counts. *)

Module ModuleMapper.

Definition isWordChar (c : ascii) : bool :=
  let n := nat_of_ascii c in
  ((48 <=? n) && (n <=? 57)) || ((65 <=? n) && (n <=? 90))
  || ((97 <=? n) && (n <=? 122)) || (n =? 95).

Definition toLower (c : ascii) : ascii :=
  let n := nat_of_ascii c in
  if (65 <=? n) && (n <=? 90) then ascii_of_nat (n + 32) else c.

(** Does [s] start with [kw] (lower case), ignoring case, followed by a
    word boundary? *)
Fixpoint keywordAt (kw s : list ascii) : bool :=
  match kw, s with
  | [], [] => true
  | [], c :: _ => negb (isWordChar c)
  | k :: kw', c :: s' => Ascii.eqb k (toLower c) && keywordAt kw' s'
  | _ :: _, [] => false
  end.

Definition abstractKeywords : list (list ascii) :=
  map Path.chars_of_string
    ["interface"; "abstract"; "types"; "type"; "contracts"; "contract"].

(** [/\b(interface|abstract|types?|contracts?)\b/i.test(s)], scanning [s]
    with [prev] the character before the current position. *)
Fixpoint abstractFrom (prev : option ascii) (s : list ascii) : bool :=
  match s with
  | [] => false
  | c :: s' =>
      (match prev with
       | Some p => negb (isWordChar p)
       | None => true
       end && existsb (fun kw => keywordAt kw s) abstractKeywords)
      || abstractFrom (Some c) s'
  end.

Definition isAbstractName (file : string) : bool :=
  abstractFrom None (Path.chars_of_string file).

Record CouplingMetrics := {
  afferentCoupling : nat;
  efferentCoupling : nat;
  instability : Q;
  abstractness : nat;
  distanceFromMainSequence : Q
}.

Definition ofNat (n : nat) : Q := inject_Z (Z.of_nat n).

(** The body of the loop of [calculateCouplingMetrics]: the record stored
    under [file]. *)
Definition couplingOf (file : string) (relationships : list Relationship)
  : CouplingMetrics :=
  let incoming := length (filter (fun r => target r = file) relationships) in
  let outgoing := length (filter (fun r => source r = file) relationships) in
  let total := incoming + outgoing in
  let instability :=
    if decide (total = 0) then 0%Q else (ofNat outgoing / ofNat total)%Q in
  let isAbstract := if isAbstractName file then 1 else 0 in
  let distance := Qabs (ofNat isAbstract + instability - 1)%Q in
  {| afferentCoupling := incoming; efferentCoupling := outgoing;
     instability := instability; abstractness := isAbstract;
     distanceFromMainSequence := distance |}.

(** [calculateCouplingMetrics]: the record keyed by file, as an association
    list in file order. *)
Definition calculateCouplingMetrics (files : list string)
  (relationships : list Relationship) : list (string * CouplingMetrics) :=
  map (fun file => (file, couplingOf file relationships)) files.

Definition calculateGroupCohesion (groupFiles : list string)
  (relationships : list Relationship) : Q :=
  if decide (length groupFiles <= 1) then 1%Q
  else
    let internalRelationships :=
      length (filter (fun rel => source rel ∈ groupFiles /\ target rel ∈ groupFiles)
                relationships) in
    let maxRelationships := length groupFiles * (length groupFiles - 1) in
    if decide (maxRelationships = 0) then 1%Q
    else (ofNat internalRelationships / ofNat maxRelationships)%Q.

Definition calculateGroupCoupling (groupFiles allFiles : list string)
  (relationships : list Relationship) : Q :=
  let otherFiles := filter (fun f => f ∉ groupFiles) allFiles in
  if decide (length otherFiles = 0) then 0%Q
  else
    let externalRelationships :=
      length
        (filter
           (fun rel =>
              ((source rel ∈ groupFiles) /\ (target rel ∉ groupFiles))
              \/ ((source rel ∉ groupFiles) /\ (target rel ∈ groupFiles)))
           relationships) in
    (ofNat externalRelationships
     / ofNat (length groupFiles * length otherFiles + 1))%Q.

(** [ModuleGroup], as [mapModuleRelationships] fills it for one group. *)
Record ModuleGroup := {
  gname : string;
  gmodules : list string;
  cohesion : Q;
  coupling : Q
}.

Definition moduleGroup (name : string) (groupFiles files : list string)
  (relationships : list Relationship) : ModuleGroup :=
  {| gname := name; gmodules := groupFiles;
     cohesion := calculateGroupCohesion groupFiles relationships;
     coupling := calculateGroupCoupling groupFiles files relationships |}.

End ModuleMapper.

(** ** [tools/complexity-analyzer.ts]: the maintainability index

    JavaScript numbers are modelled by real numbers here ([Math.log] is
    [ln]); rounding errors of the floating-point operations are not
    modelled. *)

Module ComplexityAnalyzer.

Local Open Scope R_scope.

(** [Math.round]: the nearest integer, halves rounded up. *)
Definition mathRound (x : R) : Z := (up (x + / 2) - 1)%Z.

Definition rawIndex (avgComplexity : R) (linesOfCode : nat) : R :=
  171 - 5.2 * ln (avgComplexity + 1) - 0.23 * avgComplexity
  - 16.2 * ln (INR linesOfCode + 1).

(** [Math.max(0, Math.min(100, x))] *)
Definition clamp (x : R) : R := Rmax 0 (Rmin 100 x).

Definition maintainabilityIndexOf (avgComplexity : R) (linesOfCode : nat) : Z :=
  mathRound (clamp (rawIndex avgComplexity linesOfCode)).

(** The [avgComplexity] of both file analysers. *)
Definition avgComplexity (totalComplexity functionCount : nat) : R :=
  if decide (0 < functionCount)%nat
  then INR totalComplexity / INR functionCount
  else 1.

(** The numeric fields of [FileComplexity]. *)
Record FileComplexity := {
  cyclomaticComplexity : nat;
  functionCount : nat;
  linesOfCode : nat;
  maintainabilityIndex : Z
}.

(** [calculateTsFileComplexity], from the per-function complexities
    [calculateComplexity] returns and the counted lines on. *)
Definition calculateTsFileComplexity (functions : list nat) (loc : nat)
  : FileComplexity :=
  let totalComplexity := fold_left Nat.add functions 0%nat in
  {| cyclomaticComplexity :=
       if decide (totalComplexity = 0%nat) then 1%nat else totalComplexity;
     functionCount := length functions;
     linesOfCode := loc;
     maintainabilityIndex :=
       maintainabilityIndexOf (avgComplexity totalComplexity (length functions)) loc |}.

(** [calculatePyFileComplexity], from the [complexity] and [functions]
    counts [calculatePythonComplexity] returns and the counted lines on. *)
Definition calculatePyFileComplexity (complexity funcCount loc : nat)
  : FileComplexity :=
  {| cyclomaticComplexity := complexity;
     functionCount := funcCount;
     linesOfCode := loc;
     maintainabilityIndex :=
       maintainabilityIndexOf (avgComplexity complexity funcCount) loc |}.

End ComplexityAnalyzer.

(** ** JavaScript string methods *)

Module JsString.

(** [s.startsWith(prefix)] *)
Fixpoint startsWith (prefix s : string) : bool :=
  match prefix, s with
  | EmptyString, _ => true
  | String p prefix', String c s' => Ascii.eqb p c && startsWith prefix' s'
  | String _ _, EmptyString => false
  end.

(** [s.includes(needle)] *)
Fixpoint includes (needle s : string) : bool :=
  startsWith needle s
  || match s with
     | EmptyString => false
     | String _ s' => includes needle s'
     end.

(** [s.endsWith(suffix)] *)
Definition endsWith (suffix s : string) : bool :=
  (String.length suffix <=? String.length s)
  && String.eqb
       (String.substring (String.length s - String.length suffix)
          (String.length suffix) s)
       suffix.

(** [s.slice(0, -n)] *)
Definition dropLast (n : nat) (s : string) : string :=
  String.substring 0 (String.length s - n) s.

End JsString.

(** ** [parsers/typescript-parser.ts]: the dependency classifier *)

Module TypeScriptParser.

Definition builtins : list string :=
  ["assert"; "buffer"; "child_process"; "cluster"; "console"; "constants";
   "crypto"; "dgram"; "dns"; "domain"; "events"; "fs"; "http"; "https";
   "module"; "net"; "os"; "path"; "perf_hooks"; "process"; "punycode";
   "querystring"; "readline"; "repl"; "stream"; "string_decoder"; "sys";
   "timers"; "tls"; "tty"; "url"; "util"; "v8"; "vm"; "worker_threads";
   "zlib"; "node:assert"; "node:buffer"; "node:child_process"; "node:cluster";
   "node:crypto"; "node:dgram"; "node:dns"; "node:events"; "node:fs";
   "node:http"; "node:https"; "node:net"; "node:os"; "node:path";
   "node:process"; "node:querystring"; "node:readline"; "node:stream";
   "node:timers"; "node:tls"; "node:url"; "node:util"; "node:v8"; "node:vm";
   "node:worker_threads"; "node:zlib"].

Definition isNodeBuiltin (moduleName : string) : bool :=
  let baseName := default "" (Path.split Path.slash moduleName !! 0) in
  bool_decide (baseName ∈ builtins).

Definition getPackageName (importPath : string) : string :=
  let parts := Path.split Path.slash importPath in
  if JsString.startsWith "@" importPath && bool_decide (2 <= length parts) then
    default "" (parts !! 0) +:+ "/" +:+ default "" (parts !! 1)
  else default "" (parts !! 0).

Definition extensions : list string :=
  [".ts"; ".tsx"; ".js"; ".jsx"; ".mjs"; ".cjs"; ""].

(** The [for (const ext of extensions)] probe: the first extension for which
    the file or its index file exists. *)
Fixpoint probe (existsSync : string -> bool) (resolvedPath : string)
  (exts : list string) : option string :=
  match exts with
  | [] => None
  | ext :: rest =>
      let withExt := resolvedPath +:+ ext in
      let indexPath := Path.join resolvedPath ("index" +:+ ext) in
      if existsSync withExt then Some withExt
      else if existsSync indexPath then Some indexPath
      else probe existsSync resolvedPath rest
  end.

(** [path.resolve(dir, p)] in a process whose working directory is [cwd]:
    the arguments are taken from the right until the path is absolute, empty
    ones are skipped. *)
Definition resolveFrom (cwd dir p : string) : string :=
  if Path.isAbsolute p then Path.resolve cwd p
  else if String.eqb p "" then Path.resolve cwd dir
  else if String.eqb dir "" then Path.resolve cwd p
  else Path.resolve cwd (dir +:+ "/" +:+ p).

Definition internalTo (fromFile importPath to : string) : Dependency :=
  {| dfrom := fromFile; dto := to; dtype := internal; packageName := None;
     importStatements := [importPath] |}.

Definition classifyDependency (existsSync : string -> bool) (cwd : string)
  (importPath fromFile basePath : string) : Dependency :=
  let isRelative :=
    JsString.startsWith "." importPath || JsString.startsWith "/" importPath in
  let isBuiltin := isNodeBuiltin importPath in
  if isBuiltin then
    {| dfrom := fromFile; dto := importPath; dtype := builtin;
       packageName := Some importPath; importStatements := [importPath] |}
  else if isRelative then
    let fromDir := Path.dirname fromFile in
    let resolvedPath := resolveFrom cwd fromDir importPath in
    let esm :=
      JsString.endsWith ".js" resolvedPath && negb (existsSync resolvedPath) in
    let withoutJs := JsString.dropLast 3 resolvedPath in
    if esm && existsSync (withoutJs +:+ ".ts") then
      internalTo fromFile importPath (withoutJs +:+ ".ts")
    else if esm && existsSync (withoutJs +:+ ".tsx") then
      internalTo fromFile importPath (withoutJs +:+ ".tsx")
    else
      let resolvedPath := if esm then withoutJs else resolvedPath in
      internalTo fromFile importPath
        (default resolvedPath (probe existsSync resolvedPath extensions))
  else
    {| dfrom := fromFile; dto := importPath; dtype := external;
       packageName := Some (getPackageName importPath);
       importStatements := [importPath] |}.

End TypeScriptParser.

(** ** JavaScript numbers: the quotient of two counts

    A count is an integer below [2 ^ 53], which a double holds exactly; the
    quotient of two of them is the double nearest to the exact quotient
    (IEEE 754 division rounds to nearest, ties to even), with a
    significand of 53 bits. *)

Module JsNumber.

(** The integer nearest to [q], ties to the even one. *)
Definition roundHalfEven (q : Q) : Z :=
  let f := Qfloor q in
  match (q - inject_Z f ?= 1 # 2)%Q with
  | Lt => f
  | Gt => (f + 1)%Z
  | Eq => if Z.even f then f else (f + 1)%Z
  end.

(** The exponent of the leading bit of a positive rational:
    [2 ^ exponentOf q <= q < 2 ^ (exponentOf q + 1)]. *)
Definition exponentOf (q : Q) : Z :=
  let k := (Z.log2 (Qnum q) - Z.log2 (Zpos (Qden q)))%Z in
  if Qle_bool (2 ^ k) q then k else (k - 1)%Z.

(** The double nearest to a positive rational. *)
Definition nearestDouble (q : Q) : Q :=
  let e := (exponentOf q - 52)%Z in
  (inject_Z (roundHalfEven (q / 2 ^ e)) * 2 ^ e)%Q.

Definition toDouble (q : Q) : Q :=
  match (q ?= 0)%Q with
  | Eq => 0%Q
  | Gt => nearestDouble q
  | Lt => (- nearestDouble (- q))%Q
  end.

End JsNumber.

(** ** [tools/complexity-analyzer.ts]: hotspots and the analysis summary

    The threshold is any JavaScript number; it and the products the code
    forms with it are exact rationals here.  The average complexity is the
    double that the division of the two counts returns. *)

Module ComplexityReport.

Record FunctionComplexity := {
  fname : string;
  startLine : nat;
  endLine : nat;
  fcomplexity : nat;
  parameterCount : nat;
  maxNestingDepth : nat
}.

(** [FileComplexity] with its path and per-function entries. *)
Record FileComplexity := {
  fpath : string;
  cyclomaticComplexity : nat;
  functionCount : nat;
  linesOfCode : nat;
  functionsComplexity : list FunctionComplexity;
  maintainabilityIndex : Z
}.

(** [ComplexityHotspot] without the [reason] text. *)
Record ComplexityHotspot := {
  hpath : string;
  functionName : option string;
  line : nat;
  hcomplexity : nat;
  hthreshold : Q;
  priority : Severity
}.

(** [n >= x] and [n < x] for a count [n]. *)
Definition geq (n : nat) (x : Q) : bool := Qle_bool x (inject_Z (Z.of_nat n)).
Definition below (n : nat) (x : Q) : bool := negb (geq n x).

Definition functionPriority (complexity : nat) (threshold : Q) : Severity :=
  if geq complexity (threshold * 3) then critical
  else if geq complexity (threshold * 2) then high
  else if geq complexity (threshold * (3 # 2)) then medium
  else low.

(** The hotspots one pass of the loop of [identifyHotspots] pushes. *)
Definition fileHotspots (threshold : Q) (file : FileComplexity)
  : list ComplexityHotspot :=
  (if geq (cyclomaticComplexity file) (threshold * 2) then
     [ {| hpath := fpath file; functionName := None; line := 1;
          hcomplexity := cyclomaticComplexity file; hthreshold := threshold * 2;
          priority :=
            if geq (cyclomaticComplexity file) (threshold * 4) then critical
            else high |} ]
   else [])
  ++ flat_map
       (fun func =>
          if geq (fcomplexity func) threshold then
            [ {| hpath := fpath file; functionName := Some (fname func);
                 line := startLine func; hcomplexity := fcomplexity func;
                 hthreshold := threshold;
                 priority := functionPriority (fcomplexity func) threshold |} ]
          else [])
       (functionsComplexity file)
  ++ (if (maintainabilityIndex file <? 20)%Z then
        [ {| hpath := fpath file; functionName := None; line := 1;
             hcomplexity := cyclomaticComplexity file; hthreshold := 20;
             priority :=
               if (maintainabilityIndex file <? 10)%Z then critical else high |} ]
      else []).

Definition identifyHotspots (files : list FileComplexity) (threshold : Q)
  : list ComplexityHotspot :=
  GraphUtils.sortByKey (fun h => GraphUtils.severityOrder (priority h))
    (flat_map (fileHotspots threshold) files).

(** [files.sort((a, b) => b.cyclomaticComplexity - a.cyclomaticComplexity)]:
    the stable sort by descending key. *)
Fixpoint insertDescending {A : Type} (key : A -> nat) (x : A) (l : list A)
  : list A :=
  match l with
  | [] => [x]
  | y :: l' =>
      if decide (key y <= key x) then x :: l
      else y :: insertDescending key x l'
  end.

Definition sortDescending {A : Type} (key : A -> nat) (l : list A) : list A :=
  foldr (insertDescending key) [] l.

Record Summary := {
  lowComplexity : nat;
  mediumComplexity : nat;
  highComplexity : nat;
  veryHighComplexity : nat
}.

Record AnalyzeComplexityOutput := {
  totalFiles : nat;
  totalComplexity : nat;
  averageComplexity : Q;
  files : list FileComplexity;
  hotspots : list ComplexityHotspot;
  summary : Summary
}.

Section WithAnalysers.

(** [calculatePyFileComplexity] and [calculateTsFileComplexity], which read
    the file; [None] is [null]. *)
Variable calculatePyFileComplexity : string -> option FileComplexity.
Variable calculateTsFileComplexity : string -> option FileComplexity.

(** [analyzeComplexity] from the scanned file list on. *)
Definition analyzeComplexity (filePaths : list string) (language : Language)
  (threshold : Q) : AnalyzeComplexityOutput :=
  match filePaths with
  | [] =>
      {| totalFiles := 0; totalComplexity := 0; averageComplexity := 0;
         files := []; hotspots := [];
         summary := {| lowComplexity := 0; mediumComplexity := 0;
                       highComplexity := 0; veryHighComplexity := 0 |} |}
  | _ =>
      let files :=
        omap (fun filePath =>
                if decide (language = python)
                then calculatePyFileComplexity filePath
                else calculateTsFileComplexity filePath)
          filePaths in
      let totalComplexity :=
        fold_left (fun sum f => sum + cyclomaticComplexity f) files 0 in
      let count (p : nat -> bool) :=
        length (filter (fun f => p (cyclomaticComplexity f) = true) files) in
      {| totalFiles := length files;
         totalComplexity := totalComplexity;
         averageComplexity :=
           if decide (0 < length files)
           then JsNumber.toDouble
                  (inject_Z (Z.of_nat totalComplexity)
                   / inject_Z (Z.of_nat (length files)))%Q
           else 0%Q;
         files := sortDescending cyclomaticComplexity files;
         hotspots := identifyHotspots files threshold;
         summary :=
           {| lowComplexity := count (fun c => below c threshold);
              mediumComplexity :=
                count (fun c => geq c threshold && below c (threshold * 2));
              highComplexity :=
                count (fun c => geq c (threshold * 2) && below c (threshold * 4));
              veryHighComplexity := count (fun c => geq c (threshold * 4)) |} |}
  end.

End WithAnalysers.

End ComplexityReport.

(** ** [tools/module-mapper.ts]: grouping *)

Module Grouping.

(** Does [hay] start with [needle] (lower case), ignoring the case of ASCII
    letters? *)
Fixpoint prefixCI (needle hay : list ascii) : bool :=
  match needle, hay with
  | [], _ => true
  | n :: needle', h :: hay' =>
      Ascii.eqb n (ModuleMapper.toLower h) && prefixCI needle' hay'
  | _ :: _, [] => false
  end.

Fixpoint containsCI (needle hay : list ascii) : bool :=
  prefixCI needle hay
  || match hay with
     | [] => false
     | _ :: hay' => containsCI needle hay'
     end.

(** An alternative of the directory patterns: a word, or a stem with an
    optional final [s] (as in [routes?]). *)
Inductive Alternative :=
| Word (w : string)
| OptionalS (stem : string).

Definition wordsOf (alt : Alternative) : list string :=
  match alt with
  | Word w => [w]
  | OptionalS stem => [stem; stem +:+ "s"]
  end.

(** [/\/(alt1|alt2|...)\//i.test(p)]: some [/w/], with [w] a word of one of
    the alternatives, occurs in [p]. *)
Definition matchesDirectory (alts : list Alternative) (p : string) : bool :=
  existsb
    (fun w =>
       containsCI (Path.chars_of_string ("/" +:+ w +:+ "/"))
         (Path.chars_of_string p))
    (flat_map wordsOf alts).

Definition featurePatterns : list (list Alternative * string) :=
  [ ([Word "api"; OptionalS "route"; OptionalS "endpoint"; OptionalS "handler"],
     "api");
    ([OptionalS "model"; OptionalS "entitie"; OptionalS "schema"], "models");
    ([OptionalS "service"; Word "business"; Word "domain"], "services");
    ([OptionalS "util"; OptionalS "helper"; Word "lib"; Word "common"],
     "utilities");
    ([OptionalS "component"; Word "ui"; OptionalS "view"; OptionalS "page"],
     "ui");
    ([OptionalS "test"; Word "spec"; Word "__tests__"], "tests");
    ([Word "config"; OptionalS "setting"; OptionalS "constant"], "config");
    ([OptionalS "middleware"], "middleware");
    ([OptionalS "repositorie"; Word "data"; Word "db"; Word "database"],
     "data") ].

Definition layerPatterns : list (list Alternative * string) :=
  [ ([OptionalS "controller"; Word "api"; OptionalS "route";
      OptionalS "handler"; OptionalS "endpoint"], "presentation");
    ([OptionalS "service"; Word "business"; Word "domain"; OptionalS "usecase"],
     "business");
    ([OptionalS "repositorie"; Word "data"; Word "db"; Word "database";
      OptionalS "model"], "data");
    ([Word "infrastructure"; Word "external"; OptionalS "adapter"],
     "infrastructure");
    ([OptionalS "util"; OptionalS "helper"; Word "lib"; Word "common";
      Word "shared"], "utility") ].

(** The inner [for ... of patterns] loop: the name of the first pattern
    that matches, or [fallback]. *)
Fixpoint firstMatch (patterns : list (list Alternative * string))
  (p fallback : string)
  : string :=
  match patterns with
  | [] => fallback
  | (alts, name) :: rest =>
      if matchesDirectory alts p then name else firstMatch rest p fallback
  end.

(** [groups.get(name).push(file)] on a [Map] kept in insertion order,
    creating the entry when it is missing. *)
Fixpoint pushTo (name file : string) (groups : list (string * list string))
  : list (string * list string) :=
  match groups with
  | [] => [(name, [file])]
  | (k, members) :: rest =>
      if decide (k = name) then (k, members ++ [file]) :: rest
      else (k, members) :: pushTo name file rest
  end.

Section WithEnvironment.

(** [path.relative]. *)
Variable relative : string -> string -> string.

Definition featureOf (basePath file : string) : string :=
  firstMatch featurePatterns ("/" +:+ relative basePath file) "other".

Definition layerOf (basePath file : string) : string :=
  firstMatch layerPatterns ("/" +:+ relative basePath file) "unknown".

Definition groupByFeature (files : list string) (basePath : string)
  : list (string * list string) :=
  fold_left (fun groups file => pushTo (featureOf basePath file) file groups)
    files [].

Definition groupByLayer (files : list string) (basePath : string)
  : list (string * list string) :=
  fold_left (fun groups file => pushTo (layerOf basePath file) file groups)
    files [].

End WithEnvironment.

End Grouping.

(** ** [detectLanguage] of the four tools *)

Module DetectLanguage.

Section WithEnvironment.

Variable existsSync : string -> bool.
(** [fs.readdirSync(dir, { withFileTypes: true })]: the entries with their
    [isFile()] flag; [None] when it throws. *)
Variable readdirSync : string -> option (list (string * bool)).
(** [path.extname]. *)
Variable extname : string -> string.

(** The counting loop. *)
Definition countEntries (entries : list (string * bool)) : nat * nat * nat :=
  fold_left
    (fun '(tsCount, jsCount, pyCount) entry =>
       if (snd entry : bool) then
         let ext := extname (fst entry) in
         ((if bool_decide (ext ∈ [".ts"; ".tsx"]) then S tsCount else tsCount),
          (if bool_decide (ext ∈ [".js"; ".jsx"; ".mjs"; ".cjs"]) then S jsCount
           else jsCount),
          (if String.eqb ext ".py" then S pyCount else pyCount))
       else (tsCount, jsCount, pyCount))
    entries (0, 0, 0).

Definition byCounts (counts : nat * nat * nat) : Language :=
  let '(tsCount, jsCount, pyCount) := counts in
  if (jsCount <? tsCount) && (pyCount <? tsCount) then typescript
  else if jsCount <? pyCount then python
  else javascript.

Definition hasTsConfig (dirPath : string) : bool :=
  existsSync (Path.join dirPath "tsconfig.json").

Definition hasPythonConfig (dirPath : string) : bool :=
  existsSync (Path.join dirPath "requirements.txt")
  || existsSync (Path.join dirPath "setup.py")
  || existsSync (Path.join dirPath "pyproject.toml").

(** [tools/dependency-graph.ts]: lists the directory first. *)
Definition ofDependencyGraph (dirPath : string) : Language :=
  match readdirSync dirPath with
  | None => javascript
  | Some entries =>
      let counts := countEntries entries in
      if hasTsConfig dirPath then typescript
      else if hasPythonConfig dirPath then python
      else byCounts counts
  end.

(** [tools/circular-detector.ts], [tools/module-mapper.ts] and
    [tools/complexity-analyzer.ts]: look for the configuration files
    first. *)
Definition ofCircularDetector (dirPath : string) : Language :=
  if hasTsConfig dirPath then typescript
  else if hasPythonConfig dirPath then python
  else
    match readdirSync dirPath with
    | None => javascript
    | Some entries => byCounts (countEntries entries)
    end.

Definition ofModuleMapper (dirPath : string) : Language :=
  if hasTsConfig dirPath then typescript
  else if hasPythonConfig dirPath then python
  else
    match readdirSync dirPath with
    | None => javascript
    | Some entries => byCounts (countEntries entries)
    end.

Definition ofComplexityAnalyzer (dirPath : string) : Language :=
  if hasTsConfig dirPath then typescript
  else if hasPythonConfig dirPath then python
  else
    match readdirSync dirPath with
    | None => javascript
    | Some entries => byCounts (countEntries entries)
    end.

End WithEnvironment.

End DetectLanguage.

(** ** [tools/complexity-analyzer.ts]: the architecture overview *)

Module ArchitectureOverview.

Inductive LayerType :=
  presentation | business | data | infrastructure | utility | unknown.

Record ArchitectureLayer := {
  lname : string;
  description : string;
  modules : list string;
  dependsOn : list string;
  ltype : LayerType
}.

(** The value the [layers] map holds for a name. *)
Record LayerData := {
  ld_modules : list string;
  ld_type : LayerType;
  ld_description : string
}.

Record LayerPattern := {
  pattern : list Grouping.Alternative;
  pname : string;
  ptype : LayerType;
  pdescription : string
}.

Import Grouping.

Definition layerPatterns : list LayerPattern :=
  [ {| pattern := [OptionalS "controller"; Word "api"; OptionalS "route";
                   OptionalS "handler"; OptionalS "endpoint"];
       pname := "Presentation"; ptype := presentation;
       pdescription := "Handles HTTP requests and responses" |};
    {| pattern := [OptionalS "service"; Word "business"; Word "domain";
                   OptionalS "usecase"; Word "core"];
       pname := "Business Logic"; ptype := business;
       pdescription := "Contains core business logic and rules" |};
    {| pattern := [OptionalS "repositorie"; Word "data"; Word "db";
                   Word "database"; OptionalS "model"; OptionalS "entitie"];
       pname := "Data Access"; ptype := data;
       pdescription := "Manages data persistence and retrieval" |};
    {| pattern := [Word "infrastructure"; Word "external"; OptionalS "adapter";
                   OptionalS "client"];
       pname := "Infrastructure"; ptype := infrastructure;
       pdescription :=
         "External service integrations and infrastructure concerns" |};
    {| pattern := [OptionalS "util"; OptionalS "helper"; Word "lib";
                   Word "common"; Word "shared"];
       pname := "Utilities"; ptype := utility;
       pdescription := "Shared utilities and helper functions" |} ].

(** The inner loop of [identifyLayers]: the first pattern that matches. *)
Fixpoint firstPattern (patterns : list LayerPattern) (p : string)
  : option LayerPattern :=
  match patterns with
  | [] => None
  | lp :: rest =>
      if matchesDirectory (pattern lp) p then Some lp else firstPattern rest p
  end.

(** [layers.get(name).modules.push(file)], creating the entry when it is
    missing. *)
Fixpoint pushModule (lp : LayerPattern) (file : string)
  (layers : list (string * LayerData)) : list (string * LayerData) :=
  match layers with
  | [] =>
      [(pname lp, {| ld_modules := [file]; ld_type := ptype lp;
                     ld_description := pdescription lp |})]
  | (k, d) :: rest =>
      if decide (k = pname lp) then
        (k, {| ld_modules := ld_modules d ++ [file]; ld_type := ld_type d;
               ld_description := ld_description d |}) :: rest
      else (k, d) :: pushModule lp file rest
  end.

(** [map.set(key, value)] on a [Map] kept in insertion order. *)
Fixpoint mapSet {V : Type} (key : string) (value : V) (m : list (string * V))
  : list (string * V) :=
  match m with
  | [] => [(key, value)]
  | (k, v) :: rest =>
      if decide (k = key) then (k, value) :: rest
      else (k, v) :: mapSet key value rest
  end.

Inductive Category :=
  cat_framework | cat_library | cat_utility | cat_dev | cat_unknown.

Record ExternalDependency := {
  ename : string;
  usedBy : list string;
  usageCount : nat;
  category : Category
}.

Definition frameworkPrefixes : list string :=
  ["react"; "vue"; "angular"; "express"; "fastapi"; "django"; "flask";
   "next"; "nuxt"; "nest"; "koa"].

Definition utilityPrefixes : list string :=
  ["lodash"; "underscore"; "moment"; "dayjs"; "uuid"; "axios"; "fetch"].

Definition categoryOf (name : string) : Category :=
  if existsb (fun p => JsString.startsWith p name) frameworkPrefixes then
    cat_framework
  else if JsString.includes "dev" name || JsString.startsWith "@types/" name then
    cat_dev
  else if existsb (fun p => JsString.startsWith p name) utilityPrefixes then
    cat_utility
  else cat_library.

(** The body of the inner loop of [identifyExternalDependencies] for a
    dependency that is external and has a package name: [usedBy] is a set
    in insertion order. *)
Fixpoint recordUse (name file : string)
  (externalDeps : list (string * (list string * nat)))
  : list (string * (list string * nat)) :=
  match externalDeps with
  | [] => [(name, ([file], 1))]
  | (k, (users, count)) :: rest =>
      if decide (k = name) then
        (k, ((if decide (file ∈ users) then users else users ++ [file]),
             S count)) :: rest
      else (k, (users, count)) :: recordUse name file rest
  end.

Section WithEnvironment.

(** [path.relative]. *)
Variable relative : string -> string -> string.

(** The language-dispatched [extractDependencies] of the three parsers; a
    call that throws contributes nothing, like an empty result. *)
Variable extractDependencies : Language -> string -> string -> list Dependency.

(** The variables of the loop of [identifyLayers]. *)
Definition layerStep (basePath : string)
  (st : list (string * LayerData) * list string) (file : string)
  : list (string * LayerData) * list string :=
  let '(layers, unmatchedFiles) := st in
  match firstPattern layerPatterns ("/" +:+ relative basePath file) with
  | Some lp => (pushModule lp file layers, unmatchedFiles)
  | None => (layers, unmatchedFiles ++ [file])
  end.

Definition identifyLayers (files : list string) (basePath : string)
  : list ArchitectureLayer :=
  let '(layers, unmatchedFiles) := fold_left (layerStep basePath) files ([], []) in
  let layers :=
    match unmatchedFiles with
    | [] => layers
    | _ =>
        mapSet "Other"
          {| ld_modules := unmatchedFiles; ld_type := unknown;
             ld_description := "Files not matching standard layer patterns" |}
          layers
    end in
  map (fun '(name, d) =>
         {| lname := name; description := ld_description d;
            modules := ld_modules d; dependsOn := []; ltype := ld_type d |})
    layers.

Definition packageOf (dep : Dependency) : option string :=
  match dtype dep, packageName dep with
  | external, Some (String c p) => Some (String c p)
  | _, _ => None
  end.

Definition identifyExternalDependencies (files : list string)
  (basePath : string) (language : Language) : list ExternalDependency :=
  let externalDeps :=
    fold_left
      (fun externalDeps file =>
         fold_left
           (fun externalDeps dep =>
              match packageOf dep with
              | Some name => recordUse name file externalDeps
              | None => externalDeps
              end)
           (extractDependencies language file basePath) externalDeps)
      files [] in
  ComplexityReport.sortDescending usageCount
    (map (fun '(name, (users, count)) =>
            {| ename := name; usedBy := users; usageCount := count;
               category := categoryOf name |})
       externalDeps).

End WithEnvironment.

End ArchitectureOverview.

(** * Vocabulary of the properties *)

(** ** Graphs *)

(** What graphlib maintains: node ids are unique and both ends of every edge
    are nodes. *)
Definition wfGraph (g : Graph) : Prop :=
  NoDup (Graphlib.nodes g)
  /\ forall v w, (v, w) ∈ Graphlib.edges g ->
                 v ∈ Graphlib.nodes g /\ w ∈ Graphlib.nodes g.

(** The executable form of [wfGraph]. *)
Definition wellFormed (g : Graph) : bool :=
  bool_decide (NoDup (Graphlib.nodes g))
  && forallb (fun e => Graphlib.hasNode g e.1 && Graphlib.hasNode g e.2)
       (Graphlib.edges g).

(** The edge relation the searches follow, and reachability. *)
Definition Edge (g : Graph) (u v : string) : Prop :=
  v ∈ GraphUtils.successorsOf g u.

Definition reach (g : Graph) : relation string := rtc (Edge g).

(** [cycles.length > 0], the [hasCycles] flag of the tools. *)
Definition hasCycle (g : Graph) : bool :=
  bool_decide (0 < length (GraphUtils.findCycles g)).

Definition hasSelfLoop (g : Graph) : bool :=
  existsb (fun e => bool_decide (e.1 = e.2)) (Graphlib.edges g).

(** The entry [findCycles] makes for a component. *)
Definition mkCycle (g : Graph) (scc : list string) : DependencyCycle :=
  {| cnodes := scc; clength := length scc;
     severity := GraphUtils.determineCycleSeverity scc g |}.

(** The label [buildGraph] gives the edge of a relationship. *)
Definition labelOf (rel : Relationship) : EdgeLabel :=
  {| etype := rtype rel; eweight := weight rel |}.

(** ** Severity *)

(** The count the code makes: one for every edge that enters the cycle from
    outside. *)
Definition enteringEdges (cycle : list string) (g : Graph) : nat :=
  length (filter (fun p => p ∉ cycle) (flat_map (GraphUtils.predecessorsOf g) cycle)).

(** The count the specification words: the distinct nodes outside the cycle
    that are predecessors of some member. *)
Definition distinctOutsidePredecessors (cycle : list string) (g : Graph) : nat :=
  length
    (remove_dups
       (filter (fun p => p ∉ cycle) (flat_map (GraphUtils.predecessorsOf g) cycle))).

(** The thresholds, applied to a length and a count. *)
Definition severityOf (len affectedNodes : nat) : Severity :=
  if decide (5 <= len \/ 10 <= affectedNodes) then critical
  else if decide (4 <= len \/ 5 <= affectedNodes) then high
  else if decide (3 <= len \/ 2 <= affectedNodes) then medium
  else low.

(** ** Groups *)

(** The relationships with exactly one end in the one-file group [f]. *)
Definition crossing (f : string) (relationships : list Relationship) : nat :=
  length (filter (fun rel => ~ (source rel = f <-> target rel = f)) relationships).

(** ** Python specifiers *)

(** [n] dots in front of [name]. *)
Fixpoint dotsPrefix (n : nat) (name : string) : string :=
  match n with
  | O => name
  | S n' => String PythonParser.dot (dotsPrefix n' name)
  end.

(** The resolution as the specification words it: one directory up per
    leading dot. *)
Definition resolveOneUpPerDot (importPath fromFile : string) : string :=
  let '(dots, moduleName) := PythonParser.stripDots importPath in
  fold_left
    (fun resolvedPath part =>
       if decide (part = "") then resolvedPath else Path.join resolvedPath part)
    (Path.split PythonParser.dot moduleName) (Nat.iter dots Path.dirname (Path.dirname fromFile)).

(** ** Example projects *)

(** A project of two TypeScript files that import each other, scanned
    through the absolute path [/p]. *)
Definition mutualImports (language : Language) (file basePath : string)
  : list Dependency :=
  if String.eqb file "/p/a.ts" then
    [ {| dfrom := file; dto := "/p/b.ts"; dtype := internal;
         packageName := None; importStatements := ["./b"] |} ]
  else if String.eqb file "/p/b.ts" then
    [ {| dfrom := file; dto := "/p/a.ts"; dtype := internal;
         packageName := None; importStatements := ["./a"] |} ]
  else [].

(** A project whose [src/a.ts] imports [./b], scanned through the relative
    path [src] from the working directory [/proj]: the TypeScript classifier
    resolves the import to an absolute path. *)
Definition relativeScan (language : Language) (file basePath : string)
  : list Dependency :=
  if String.eqb file "src/a.ts" then
    [ {| dfrom := file; dto := "/proj/src/b.ts"; dtype := internal;
         packageName := None; importStatements := ["./b"] |} ]
  else [].

(** Two modules that import each other. *)
Definition mutualGraph : Graph :=
  GraphUtils.buildGraph
    [ {| source := "A"; target := "B"; rtype := Import; imports := None;
         weight := 1 |};
      {| source := "B"; target := "A"; rtype := Import; imports := None;
         weight := 1 |} ].

(** ** Paths *)

(** Consecutive entries of [p] are joined by edges. *)
Definition isWalk (g : Graph) (p : list string) : Prop :=
  forall i u v, p !! i = Some u -> p !! S i = Some v -> Edge g u v.

(** [p] leads from [s] to [e] along edges and meets no node twice. *)
Definition simplePath (g : Graph) (s e : string) (p : list string) : Prop :=
  head p = Some s /\ last p = Some e /\ NoDup p /\ isWalk g p.

(** The imports that [identifyExternalDependencies] counts: those classified
    external that carry a non-empty package name, over all the files. *)
Definition externalImports
  (extractDependencies : Language -> string -> string -> list Dependency)
  (files : list string) (basePath : string) (language : Language)
  : list Dependency :=
  flat_map
    (fun file =>
       filter (fun dep => is_Some (ArchitectureOverview.packageOf dep))
         (extractDependencies language file basePath))
    files.

(** The layer [identifyLayers] files a path under: the name of the first
    pattern its relative path matches, ["Other"] when there is none. *)
Definition layerNameOf (relative : string -> string -> string)
  (basePath file : string) : string :=
  match ArchitectureOverview.firstPattern ArchitectureOverview.layerPatterns
          ("/" +:+ relative basePath file) with
  | Some lp => ArchitectureOverview.pname lp
  | None => "Other"
  end.

(** The regular files of a directory listing whose extension is one of
    [exts]. *)
Definition filesWithExtension (extname : string -> string) (exts : list string)
  (entries : list (string * bool)) : list (string * bool) :=
  filter (fun entry => snd entry = true /\ extname (fst entry) ∈ exts) entries.

(** * Properties *)

(** ** Paths *)

Example dirname_file : Path.dirname "/proj/pkg/mod.py" = "/proj/pkg".
Proof. reflexivity. Qed.

Example dirname_relative : Path.dirname "src/a.ts" = "src".
Proof. reflexivity. Qed.

Example dirname_bare : Path.dirname "a.ts" = ".".
Proof. reflexivity. Qed.

Example dirname_root : Path.dirname "/a" = "/".
Proof. reflexivity. Qed.

Example join_dotdot : Path.join "/proj/pkg" "../x" = "/proj/x".
Proof. reflexivity. Qed.

Example resolve_relative : Path.resolve "/proj" "src/b.ts" = "/proj/src/b.ts".
Proof. reflexivity. Qed.

Example resolve_absolute : Path.resolve "/proj" "/x/./y/../b.ts" = "/x/b.ts".
Proof. reflexivity. Qed.

(** ** The graph structure *)

Section GraphFacts.

Import Graphlib.

Lemma hasNode_true g v : hasNode g v = true <-> v ∈ nodes g.
Proof. unfold hasNode. apply bool_decide_eq_true. Qed.

Lemma hasNode_false g v : hasNode g v = false <-> v ∉ nodes g.
Proof. unfold hasNode. apply bool_decide_eq_false. Qed.

Lemma nodes_ensureNode g v :
  nodes (ensureNode v g) = if hasNode g v then nodes g else nodes g ++ [v].
Proof.
  unfold ensureNode. destruct (hasNode g v); [done|].
  unfold nodes; simpl. by rewrite map_app.
Qed.

Lemma nodes_setNode g v l :
  nodes (setNode v l g) = if hasNode g v then nodes g else nodes g ++ [v].
Proof.
  unfold setNode. destruct (hasNode g v); unfold nodes; simpl.
  - rewrite map_map. apply map_ext_in. intros [a b] _; simpl.
    by case_decide; simpl; subst.
  - by rewrite map_app.
Qed.

Lemma g_edges_ensureNode g v : g_edges (ensureNode v g) = g_edges g.
Proof. unfold ensureNode. by destruct (hasNode g v). Qed.

Lemma g_edges_setNode g v l : g_edges (setNode v l g) = g_edges g.
Proof. unfold setNode. by destruct (hasNode g v). Qed.

(** What [setEdge] does to the edge list. *)
Definition upsertEdge (v w : string) (l : EdgeLabel)
  (es : list (string * string * EdgeLabel)) : list (string * string * EdgeLabel) :=
  if decide ((v, w) ∈ map edgeEnds es) then
    map (fun e => if decide (edgeEnds e = (v, w)) then (v, w, l) else e) es
  else es ++ [(v, w, l)].

Lemma g_edges_setEdge g v w l :
  g_edges (setEdge v w l g) = upsertEdge v w l (g_edges g).
Proof.
  unfold setEdge, upsertEdge, hasEdge.
  case_bool_decide; case_decide; simpl; try done.
  by rewrite !g_edges_ensureNode.
Qed.

Lemma nodes_setEdge g v w l :
  hasNode g v = true -> hasNode g w = true -> nodes (setEdge v w l g) = nodes g.
Proof.
  intros Hv Hw. unfold setEdge. destruct (hasEdge g v w); [done|].
  unfold ensureNode. by rewrite Hv, Hw.
Qed.

Lemma map_edgeEnds_upsert v w l es :
  map edgeEnds (upsertEdge v w l es) =
  if decide ((v, w) ∈ map edgeEnds es) then map edgeEnds es
  else map edgeEnds es ++ [(v, w)].
Proof.
  unfold upsertEdge. case_decide.
  - rewrite map_map. apply map_ext_in. intros e _.
    case_decide; [by rewrite <- H0|done].
  - by rewrite map_app.
Qed.

End GraphFacts.

(** ** [buildGraph] *)

Section BuildGraphFacts.

Import Graphlib GraphUtils.

(** One iteration of the loop of [buildGraph]. *)
Definition addRelationship (graph : Graph) (rel : Relationship) : Graph :=
  let graph :=
    if hasNode graph (source rel) then graph
    else setNode (source rel) {| path := source rel |} graph in
  let graph :=
    if hasNode graph (target rel) then graph
    else setNode (target rel) {| path := target rel |} graph in
  setEdge (source rel) (target rel) (labelOf rel) graph.

Lemma buildGraph_snoc rels rel :
  buildGraph (rels ++ [rel]) = addRelationship (buildGraph rels) rel.
Proof. unfold buildGraph. by rewrite fold_left_app. Qed.

Lemma g_edges_addRelationship g rel :
  g_edges (addRelationship g rel) =
  upsertEdge (source rel) (target rel) (labelOf rel) (g_edges g).
Proof.
  unfold addRelationship. rewrite g_edges_setEdge.
  by repeat (destruct (hasNode _ _); rewrite ?g_edges_setNode).
Qed.

Lemma filter_upsert_other v w l es v' w' :
  (v, w) <> (v', w') ->
  filter (fun e => edgeEnds e = (v', w'))
    (map (fun e => if decide (edgeEnds e = (v, w)) then (v, w, l) else e) es)
  = filter (fun e => edgeEnds e = (v', w')) es.
Proof.
  intros Hne. induction es as [|e es IH]; [done|].
  cbn [map]. rewrite !filter_cons, IH.
  destruct (decide (edgeEnds e = (v, w))) as [Heq|Hneq].
  - rewrite !decide_False; [done|congruence|done].
  - done.
Qed.

Lemma filter_upsert_same v w l es :
  filter (fun e => edgeEnds e = (v, w))
    (map (fun e => if decide (edgeEnds e = (v, w)) then (v, w, l) else e) es)
  = map (fun _ => (v, w, l)) (filter (fun e => edgeEnds e = (v, w)) es).
Proof.
  induction es as [|e es IH]; [done|].
  cbn [map]. rewrite !filter_cons, IH.
  destruct (decide (edgeEnds e = (v, w))) as [Heq|Hneq].
  - by rewrite decide_True.
  - by rewrite decide_False.
Qed.

Lemma edge_upsert v w l es v' w' :
  match filter (fun e => edgeEnds e = (v', w')) (upsertEdge v w l es) with
  | (_, _, l') :: _ => Some l'
  | [] => None
  end =
  if decide ((v, w) = (v', w')) then Some l
  else match filter (fun e => edgeEnds e = (v', w')) es with
       | (_, _, l') :: _ => Some l'
       | [] => None
       end.
Proof.
  unfold upsertEdge. case_decide as Hin.
  - destruct (decide ((v, w) = (v', w'))) as [Heq|Hne].
    + inversion Heq; subst. rewrite filter_upsert_same.
      apply list_elem_of_fmap in Hin as (e & He & Hin).
      destruct (filter (fun e => edgeEnds e = (v', w')) es) eqn:Hf; [|done].
      exfalso. eapply (filter_nil_not_elem_of _ _ e); eauto. by simpl.
    + by rewrite filter_upsert_other.
  - rewrite filter_app, filter_cons, filter_nil.
    change (edgeEnds (v, w, l)) with (v, w).
    destruct (decide ((v, w) = (v', w'))) as [Heq|Hne].
    + inversion Heq; subst.
      destruct (filter (fun e => edgeEnds e = (v', w')) es) as [|e f] eqn:Hf;
        [done|].
      exfalso. assert (e ∈ filter (fun e => edgeEnds e = (v', w')) es) as He
        by (rewrite Hf; left).
      apply list_elem_of_filter in He as [Hends He].
      apply Hin. rewrite <- Hends. by apply list_elem_of_fmap_2.
    + rewrite app_nil_r. done.
Qed.

Lemma edge_addRelationship g rel v w :
  edge (addRelationship g rel) v w =
  if decide ((source rel, target rel) = (v, w)) then Some (labelOf rel)
  else edge g v w.
Proof. unfold edge. rewrite g_edges_addRelationship. apply edge_upsert. Qed.

Lemma edges_addRelationship g rel :
  edges (addRelationship g rel) =
  if decide ((source rel, target rel) ∈ edges g) then edges g
  else edges g ++ [(source rel, target rel)].
Proof.
  unfold edges. rewrite g_edges_addRelationship. apply map_edgeEnds_upsert.
Qed.

(** The edge list of the built graph holds each connected pair once. *)
Lemma buildGraph_edges_NoDup rels : NoDup (edges (buildGraph rels)).
Proof.
  induction rels as [|rel rels IH] using rev_ind; [constructor|].
  rewrite buildGraph_snoc, edges_addRelationship.
  case_decide; [done|].
  apply NoDup_app; split_and!; [done| |apply NoDup_singleton].
  intros x Hx Hx'. apply list_elem_of_singleton in Hx'. by subst.
Qed.

Lemma buildGraph_edges_elem rels v w :
  (v, w) ∈ edges (buildGraph rels) <->
  exists rel, rel ∈ rels /\ source rel = v /\ target rel = w.
Proof.
  induction rels as [|rel rels IH] using rev_ind.
  - split; [intros H; by apply elem_of_nil in H|].
    intros (rel & H & _); by apply elem_of_nil in H.
  - rewrite buildGraph_snoc, edges_addRelationship.
    assert ((v, w) ∈ edges (buildGraph rels) ++ [(source rel, target rel)] <->
            exists rel0, rel0 ∈ rels ++ [rel] /\ source rel0 = v /\ target rel0 = w)
      as Hsnoc.
    { rewrite elem_of_app, list_elem_of_singleton, IH. split.
      - intros [(r & Hr & Hs & Ht)|Heq].
        + exists r. rewrite elem_of_app. auto.
        + inversion Heq; subst. exists rel.
          rewrite elem_of_app, list_elem_of_singleton. auto.
      - intros (r & Hr & Hs & Ht).
        apply elem_of_app in Hr as [Hr|Hr]; [left; eauto|].
        apply list_elem_of_singleton in Hr. subst. by right. }
    case_decide as Hin; [|done].
    rewrite <- Hsnoc, elem_of_app, list_elem_of_singleton.
    split; [auto|]. intros [?|Heq]; [done|]. by rewrite Heq.
Qed.

(** The label of an edge is that of the last relationship between its
    ends. *)
Lemma buildGraph_edge_last rels v w :
  edge (buildGraph rels) v w =
  labelOf <$> last (filter (fun rel => source rel = v /\ target rel = w) rels).
Proof.
  induction rels as [|rel rels IH] using rev_ind; [done|].
  rewrite buildGraph_snoc, edge_addRelationship, filter_app, filter_cons, filter_nil.
  destruct (decide ((source rel, target rel) = (v, w))) as [Heq|Hne].
  - inversion Heq; subst. rewrite decide_True by done.
    by rewrite last_snoc.
  - rewrite decide_False; [by rewrite app_nil_r|].
    intros [? ?]; apply Hne; congruence.
Qed.

End BuildGraphFacts.

(** C5 (as stated, refuted): two relationships between the same pair with
    import counts 2 and 3 leave one edge, but its weight is 3, not the sum 5. *)
Lemma buildGraph_weight_not_sum :
  let rels :=
    [ {| source := "a.ts"; target := "b.ts"; rtype := Import;
         imports := Some ["x"; "y"]; weight := 2 |};
      {| source := "a.ts"; target := "b.ts"; rtype := Import;
         imports := Some ["p"; "q"; "r"]; weight := 3 |} ] in
  Graphlib.edges (GraphUtils.buildGraph rels) = [("a.ts", "b.ts")]
  /\ eweight <$> Graphlib.edge (GraphUtils.buildGraph rels) "a.ts" "b.ts" = Some 3
  /\ eweight <$> Graphlib.edge (GraphUtils.buildGraph rels) "a.ts" "b.ts"
     <> Some (foldr Nat.add 0 (map weight rels)).
Proof. vm_compute. split_and!; [done|done|congruence]. Qed.

(** C5 (amended): relationships that share a source and target pair are
    collapsed into a single edge, and the weight of that edge is the weight
    of the last such relationship; earlier weights are overwritten, not
    added. *)
Theorem buildGraph_collapses_to_last_weight
  (rels : list Relationship) (v w : string) :
  NoDup (Graphlib.edges (GraphUtils.buildGraph rels))
  /\ ((v, w) ∈ Graphlib.edges (GraphUtils.buildGraph rels) <->
      exists rel, rel ∈ rels /\ source rel = v /\ target rel = w)
  /\ eweight <$> Graphlib.edge (GraphUtils.buildGraph rels) v w =
     weight <$> last (filter (fun rel => source rel = v /\ target rel = w) rels).
Proof.
  split_and!.
  - apply buildGraph_edges_NoDup.
  - apply buildGraph_edges_elem.
  - rewrite buildGraph_edge_last.
    by destruct (last _).
Qed.

(** ** Coupling and cohesion *)

Section ModuleMapperFacts.

Import ModuleMapper.

Lemma ofNat_nonneg n : (0 <= ofNat n)%Q.
Proof.
  unfold ofNat. change 0%Q with (inject_Z 0). rewrite <- Zle_Qle. lia.
Qed.

Lemma ofNat_pos n : (0 < n)%nat -> (0 < ofNat n)%Q.
Proof.
  intros H. unfold ofNat. change 0%Q with (inject_Z 0). rewrite <- Zlt_Qlt. lia.
Qed.

Lemma ofNat_le n m : (n <= m)%nat -> (ofNat n <= ofNat m)%Q.
Proof. intros H. unfold ofNat. rewrite <- Zle_Qle. lia. Qed.

Lemma ofNat_zero_iff n : (ofNat n == 0)%Q <-> n = 0%nat.
Proof.
  unfold ofNat. change 0%Q with (inject_Z 0). rewrite inject_Z_injective. lia.
Qed.

(** A quotient of counts with the numerator below the denominator lies in
    the unit interval. *)
Lemma ratio_unit n m :
  (n <= m)%nat -> (0 < m)%nat -> (0 <= ofNat n / ofNat m <= 1)%Q.
Proof.
  intros Hle Hpos.
  pose proof (ofNat_pos m Hpos) as Hm. pose proof (ofNat_nonneg n) as Hn.
  pose proof (ofNat_le n m Hle) as Hnm.
  split.
  - apply Qle_shift_div_l; [done|]. by rewrite Qmult_0_l.
  - apply Qle_shift_div_r; [done|]. by rewrite Qmult_1_l.
Qed.

Lemma ratio_zero_iff n m :
  (0 < m)%nat -> (ofNat n / ofNat m == 0)%Q <-> n = 0%nat.
Proof.
  intros Hpos. pose proof (ofNat_pos m Hpos) as Hm.
  rewrite <- ofNat_zero_iff. split; intros H.
  - assert (ofNat n == (ofNat n / ofNat m) * ofNat m)%Q as ->.
    { field. intros H0. rewrite H0 in Hm. by apply Qlt_irrefl in Hm. }
    rewrite H. ring.
  - rewrite H. unfold Qdiv. ring.
Qed.

End ModuleMapperFacts.

Section CouplingFacts.

Import ModuleMapper.

Lemma couplingOf_instability_unit file rels :
  (0 <= instability (couplingOf file rels) <= 1)%Q.
Proof.
  unfold couplingOf; simpl. case_decide as Htotal.
  - split; [apply Qle_refl|discriminate].
  - apply ratio_unit; lia.
Qed.

Lemma couplingOf_abstractness file rels :
  abstractness (couplingOf file rels) = 0 \/ abstractness (couplingOf file rels) = 1.
Proof. unfold couplingOf; simpl. destruct (isAbstractName file); auto. Qed.

Lemma distance_unit (a : nat) (x : Q) :
  a = 0 \/ a = 1 -> (0 <= x <= 1)%Q -> (0 <= Qabs (ofNat a + x - 1) <= 1)%Q.
Proof.
  intros Ha [Hlo Hhi]. split; [apply Qabs_nonneg|].
  apply Qabs_Qle_condition.
  destruct Ha as [-> | ->]; unfold ofNat;
    [change (inject_Z (Z.of_nat 0)) with 0%Q
    |change (inject_Z (Z.of_nat 1)) with 1%Q]; split; Lqa.lra.
Qed.

Lemma couplingOf_distance_unit file rels :
  (0 <= distanceFromMainSequence (couplingOf file rels) <= 1)%Q.
Proof.
  change (distanceFromMainSequence (couplingOf file rels))
    with (Qabs (ofNat (abstractness (couplingOf file rels))
                + instability (couplingOf file rels) - 1)).
  apply distance_unit;
    [apply couplingOf_abstractness|apply couplingOf_instability_unit].
Qed.

End CouplingFacts.

(** No relationship passes a test that every one of them fails. *)
Lemma no_relationship_at (P : Relationship -> Prop)
  `{!forall r, Decision (P r)} (relationships : list Relationship) :
  (forall r, r ∈ relationships -> ~ P r) -> filter P relationships = [].
Proof.
  induction relationships as [|r rels IH]; intros Hno; [done|].
  rewrite filter_cons, decide_False by (apply Hno, elem_of_cons; by left).
  apply IH. intros r' Hr'. apply Hno, elem_of_cons. by right.
Qed.

(** C8: the coupling metrics hold an entry for every file and for no other
    name.  In the entry of a file, the afferent and efferent couplings are
    the numbers of relationships that end and that start at the file;
    instability is efferent/(afferent+efferent) when some relationship
    starts or ends at the file and 0 when none does; abstractness is 0 or
    1, the distance is |abstractness + instability - 1|, and both
    instability and distance lie in [0,1]. *)
Theorem coupling_metrics_in_unit_interval
  (files : list string) (relationships : list Relationship) :
  (forall file,
     file ∈ map fst (ModuleMapper.calculateCouplingMetrics files relationships)
     <-> file ∈ files)
  /\ Forall
       (fun entry =>
          let file := fst entry in
          let m := snd entry in
          let incoming :=
            length (filter (fun r => target r = file) relationships) in
          let outgoing :=
            length (filter (fun r => source r = file) relationships) in
          ModuleMapper.afferentCoupling m = incoming
          /\ ModuleMapper.efferentCoupling m = outgoing
          /\ ((exists r, r ∈ relationships
                         /\ (source r = file \/ target r = file)) ->
              ModuleMapper.instability m
              = (ModuleMapper.ofNat outgoing
                 / ModuleMapper.ofNat (incoming + outgoing))%Q)
          /\ ((forall r, r ∈ relationships ->
                         source r <> file /\ target r <> file) ->
              ModuleMapper.instability m = 0%Q)
          /\ (0 <= ModuleMapper.instability m <= 1)%Q
          /\ ModuleMapper.abstractness m
             = (if ModuleMapper.isAbstractName file then 1 else 0)
          /\ (ModuleMapper.abstractness m = 0 \/ ModuleMapper.abstractness m = 1)
          /\ (ModuleMapper.distanceFromMainSequence m ==
              Qabs (ModuleMapper.ofNat (ModuleMapper.abstractness m)
                    + ModuleMapper.instability m - 1))%Q
          /\ (0 <= ModuleMapper.distanceFromMainSequence m <= 1)%Q)
       (ModuleMapper.calculateCouplingMetrics files relationships).
Proof.
  unfold ModuleMapper.calculateCouplingMetrics. split.
  { intros file. rewrite map_map. cbn [fst]. by rewrite map_id. }
  apply Forall_forall. intros [file m] Hin.
  apply list_elem_of_fmap in Hin as (f & Heq & _). inversion Heq; subst.
  cbn [fst snd]. cbv zeta.
  refine (conj _ (conj _ (conj _ (conj _ (conj _ (conj _ (conj _ (conj _ _)))))))).
  - reflexivity.
  - reflexivity.
  - intros (r & Hr & Hends). unfold ModuleMapper.couplingOf.
    cbn [ModuleMapper.instability]. rewrite decide_False; [done|].
    intros Hzero.
    assert (filter (fun r => target r = f) relationships = []
            /\ filter (fun r => source r = f) relationships = []) as [Ht Hs].
    { split; apply length_zero_iff_nil; lia. }
    destruct Hends as [Hsrc|Htgt].
    + assert (r ∈ filter (fun r => source r = f) relationships) as Hmem
        by by apply list_elem_of_filter.
      rewrite Hs in Hmem. by apply elem_of_nil in Hmem.
    + assert (r ∈ filter (fun r => target r = f) relationships) as Hmem
        by by apply list_elem_of_filter.
      rewrite Ht in Hmem. by apply elem_of_nil in Hmem.
  - intros Hnone. unfold ModuleMapper.couplingOf.
    cbn [ModuleMapper.instability]. rewrite decide_True; [done|].
    rewrite !no_relationship_at; [done|..]; intros r Hr; by apply Hnone.
  - apply couplingOf_instability_unit.
  - reflexivity.
  - apply couplingOf_abstractness.
  - reflexivity.
  - apply couplingOf_distance_unit.
Qed.

(** Three files and one import from [a.ts] to [b.ts]: [a.ts] has
    instability 1, and both [b.ts] and the unconnected [c.ts] have
    instability 0. *)
Lemma coupling_metrics_in_unit_interval_witness :
  map (fun entry => Qred (ModuleMapper.instability (snd entry)))
    (ModuleMapper.calculateCouplingMetrics ["a.ts"; "b.ts"; "c.ts"]
       [ {| source := "a.ts"; target := "b.ts"; rtype := Import;
            imports := None; weight := 1 |} ])
  = [1%Q; 0%Q; 0%Q]
  /\ Forall
       (fun entry =>
          (0 <= ModuleMapper.instability (snd entry) <= 1)%Q
          /\ (0 <= ModuleMapper.distanceFromMainSequence (snd entry) <= 1)%Q)
       (ModuleMapper.calculateCouplingMetrics ["a.ts"; "b.ts"; "c.ts"]
          [ {| source := "a.ts"; target := "b.ts"; rtype := Import;
               imports := None; weight := 1 |} ]).
Proof.
  split; [reflexivity|].
  eapply Forall_impl;
    [exact (proj2 (coupling_metrics_in_unit_interval ["a.ts"; "b.ts"; "c.ts"]
                     [ {| source := "a.ts"; target := "b.ts"; rtype := Import;
                          imports := None; weight := 1 |} ]))|].
  intros entry (_ & _ & _ & _ & Hi & _ & _ & _ & Hd). by split.
Defined.

Section GroupFacts.

Import ModuleMapper.

Lemma length_filter_zero {A : Type} (P : A -> Prop) `{!forall x, Decision (P x)}
  (l : list A) :
  length (filter P l) = 0 <-> Forall (fun x => ~ P x) l.
Proof.
  induction l as [|x l IH]; [by split; [constructor|]|].
  rewrite filter_cons, Forall_cons. case_decide; simpl.
  - split; [lia|tauto].
  - rewrite IH. tauto.
Qed.

Lemma single_group_crossing (f : string) (rels : list Relationship) :
  length
    (filter
       (fun rel =>
          ((source rel ∈ [f]) /\ (target rel ∉ [f]))
          \/ ((source rel ∉ [f]) /\ (target rel ∈ [f])))
       rels) = crossing f rels.
Proof.
  unfold crossing. f_equal. apply list_filter_iff. intros rel.
  rewrite !list_elem_of_singleton.
  destruct (decide (source rel = f)), (decide (target rel = f)); tauto.
Qed.

Lemma single_group_others (f : string) (files : list string) :
  filter (fun g => g ∉ [f]) files = filter (fun g => g <> f) files.
Proof. apply list_filter_iff. intros g. by rewrite list_elem_of_singleton. Qed.

End GroupFacts.

(** C6 (as stated, refuted): a group holding one file that imports a file of
    another group has cohesion 1 but external coupling 1/2, not 0. *)
Lemma single_file_group_coupling_nonzero :
  let rels :=
    [ {| source := "/p/api/a.ts"; target := "/p/lib/b.ts"; rtype := Import;
         imports := Some ["./b"]; weight := 1 |} ] in
  let grp :=
    ModuleMapper.moduleGroup "api" ["/p/api/a.ts"]
      ["/p/api/a.ts"; "/p/lib/b.ts"] rels in
  (ModuleMapper.cohesion grp == 1)%Q
  /\ (ModuleMapper.coupling grp == 1 # 2)%Q
  /\ ~ (ModuleMapper.coupling grp == 0)%Q.
Proof. vm_compute. split_and!; [done|done|discriminate]. Qed.

(** C6 (amended): a group that contains exactly one file has cohesion 1.0;
    its external coupling is the number of relationships crossing the group
    boundary divided by (number of files outside the group + 1), which is
    0.0 exactly when there is no file outside the group or no relationship
    crosses the boundary. *)
Theorem single_file_group_scores
  (name f : string) (files : list string) (relationships : list Relationship) :
  let grp := ModuleMapper.moduleGroup name [f] files relationships in
  let others := length (filter (fun g => g <> f) files) in
  ModuleMapper.cohesion grp = 1%Q
  /\ ModuleMapper.coupling grp =
     (if decide (others = 0) then 0%Q
      else (ModuleMapper.ofNat (crossing f relationships)
            / ModuleMapper.ofNat (others + 1))%Q)
  /\ ((ModuleMapper.coupling grp == 0)%Q <->
      Forall (fun g => g = f) files
      \/ Forall (fun rel => source rel = f <-> target rel = f) relationships).
Proof.
  intros grp others.
  assert (ModuleMapper.coupling grp =
          if decide (others = 0) then 0%Q
          else (ModuleMapper.ofNat (crossing f relationships)
                / ModuleMapper.ofNat (others + 1))%Q) as Hcoupling.
  { subst grp others. unfold ModuleMapper.moduleGroup; simpl.
    unfold ModuleMapper.calculateGroupCoupling.
    rewrite single_group_others, single_group_crossing.
    case_decide; [done|]. simpl. by rewrite Nat.add_0_r. }
  assert (others = 0 <-> Forall (fun g => g = f) files) as Hothers.
  { subst others. rewrite length_filter_zero.
    apply Forall_iff. intros g. destruct (decide (g = f)); tauto. }
  assert (crossing f relationships = 0 <->
          Forall (fun rel => source rel = f <-> target rel = f) relationships)
    as Hcrossing.
  { unfold crossing. rewrite length_filter_zero.
    apply Forall_iff. intros rel.
    destruct (decide (source rel = f)), (decide (target rel = f)); tauto. }
  split_and!.
  - done.
  - done.
  - rewrite Hcoupling, <- Hothers, <- Hcrossing. case_decide as H0.
    + split; [auto|reflexivity].
    + rewrite ratio_zero_iff by lia. tauto.
Qed.

(** ** The maintainability index *)

Section ComplexityFacts.

Import ComplexityAnalyzer.
Local Open Scope R_scope.

Lemma clamp_range x : 0 <= clamp x <= 100.
Proof.
  unfold clamp. split; [apply Rmax_l|].
  apply Rmax_lub; [lra|apply Rmin_l].
Qed.

Lemma clamp_above x : 100 <= x -> clamp x = 100.
Proof.
  intros H. unfold clamp. rewrite Rmin_left by done. apply Rmax_right. lra.
Qed.

Lemma clamp_below x y : 0 <= y -> x <= y -> clamp x <= y.
Proof.
  intros Hy H. unfold clamp. apply Rmax_lub; [done|].
  pose proof (Rmin_r 100 x). lra.
Qed.

Lemma mathRound_range x : 0 <= x <= 100 -> (0 <= mathRound x <= 100)%Z.
Proof.
  intros [Hlo Hhi]. unfold mathRound.
  destruct (archimed (x + / 2)) as [Hup1 Hup2].
  assert (0 < up (x + / 2))%Z by (apply lt_IZR; lra).
  assert (up (x + / 2) < 102)%Z by (apply lt_IZR; lra).
  lia.
Qed.

Lemma mathRound_integer (n : Z) : mathRound (IZR n) = n.
Proof.
  unfold mathRound.
  rewrite <- (up_tech (IZR n + / 2) n); [lia| |]; rewrite ?plus_IZR; lra.
Qed.

Lemma maintainabilityIndexOf_range avg loc :
  (0 <= maintainabilityIndexOf avg loc <= 100)%Z.
Proof. apply mathRound_range, clamp_range. Qed.

Lemma ln_2_le_1 : ln 2 <= 1.
Proof.
  pose proof (exp_ineq1 1 ltac:(lra)) as Hexp.
  pose proof (ln_increasing 2 (exp 1) ltac:(lra) ltac:(lra)) as Hln.
  rewrite ln_exp in Hln. lra.
Qed.

Lemma ln_nonneg x : 1 <= x -> 0 <= ln x.
Proof.
  intros [H|<-]; [|rewrite ln_1; lra].
  left. rewrite <- ln_1. apply ln_increasing; lra.
Qed.

End ComplexityFacts.

(** C7 (as stated, refuted): a Python file of one line with 399 boolean
    operators and no function has complexity 400; the code takes
    [avgComplexity = 1] and reports index 100, while the formula with
    [avgComplexity = totalComplexity = 400] is at most 79. *)
Lemma maintainability_no_functions_uses_one :
  let file := ComplexityAnalyzer.calculatePyFileComplexity 400 0 1 in
  ComplexityAnalyzer.cyclomaticComplexity file = 400
  /\ ComplexityAnalyzer.functionCount file = 0
  /\ ComplexityAnalyzer.maintainabilityIndex file = 100%Z
  /\ (ComplexityAnalyzer.clamp (ComplexityAnalyzer.rawIndex (INR 400) 1) <= 79)%R
  /\ IZR (ComplexityAnalyzer.maintainabilityIndex file)
     <> ComplexityAnalyzer.clamp (ComplexityAnalyzer.rawIndex (INR 400) 1).
Proof.
  intros file.
  assert (ComplexityAnalyzer.maintainabilityIndex file = 100%Z) as Hcode.
  { subst file. unfold ComplexityAnalyzer.calculatePyFileComplexity; simpl.
    unfold ComplexityAnalyzer.maintainabilityIndexOf,
      ComplexityAnalyzer.avgComplexity.
    rewrite decide_False by lia.
    rewrite clamp_above; [apply (mathRound_integer 100)|].
    unfold ComplexityAnalyzer.rawIndex. simpl INR.
    replace (1 + 1)%R with 2%R by lra.
    pose proof ln_2_le_1. lra. }
  assert (ComplexityAnalyzer.clamp (ComplexityAnalyzer.rawIndex (INR 400) 1) <= 79)%R
    as Hclaim.
  { apply clamp_below; [lra|].
    unfold ComplexityAnalyzer.rawIndex.
    rewrite (INR_IZR_INZ 400). change (Z.of_nat 400) with 400%Z.
    simpl INR. replace (1 + 1)%R with 2%R by lra.
    pose proof (ln_nonneg 2 ltac:(lra)).
    pose proof (ln_nonneg (400 + 1) ltac:(lra)). lra. }
  split_and!; [done|done|done|done|].
  rewrite Hcode. lra.
Qed.

(** C7 (amended): for every analysed file the maintainability index is
    Math.round(clamp(0, 100, 171 - 5.2 ln(avgComplexity + 1)
    - 0.23 avgComplexity - 16.2 ln(linesOfCode + 1))), where avgComplexity
    is totalComplexity divided by functionCount, or 1 when the file has no
    functions; it is an integer within [0,100] whatever the inputs. *)
Theorem maintainability_index_clamped
  (functions : list nat) (complexity funcCount loc : nat) :
  let ts := ComplexityAnalyzer.calculateTsFileComplexity functions loc in
  let py := ComplexityAnalyzer.calculatePyFileComplexity complexity funcCount loc in
  let total := fold_left Nat.add functions 0 in
  ComplexityAnalyzer.maintainabilityIndex ts =
    ComplexityAnalyzer.mathRound
      (ComplexityAnalyzer.clamp
         (ComplexityAnalyzer.rawIndex
            (if decide (length functions = 0) then 1%R
             else (INR total / INR (length functions))%R) loc))
  /\ ComplexityAnalyzer.maintainabilityIndex py =
    ComplexityAnalyzer.mathRound
      (ComplexityAnalyzer.clamp
         (ComplexityAnalyzer.rawIndex
            (if decide (funcCount = 0) then 1%R
             else (INR complexity / INR funcCount)%R) loc))
  /\ (0 <= ComplexityAnalyzer.maintainabilityIndex ts <= 100)%Z
  /\ (0 <= ComplexityAnalyzer.maintainabilityIndex py <= 100)%Z.
Proof.
  intros ts py total. subst ts py.
  unfold ComplexityAnalyzer.calculateTsFileComplexity,
    ComplexityAnalyzer.calculatePyFileComplexity; cbn [ComplexityAnalyzer.maintainabilityIndex].
  refine (conj _ (conj _ (conj _ _))).
  - unfold ComplexityAnalyzer.maintainabilityIndexOf,
      ComplexityAnalyzer.avgComplexity.
    destruct (length functions); [done|]. rewrite decide_True by lia. done.
  - unfold ComplexityAnalyzer.maintainabilityIndexOf,
      ComplexityAnalyzer.avgComplexity.
    destruct funcCount; [done|]. rewrite decide_True by lia. done.
  - apply maintainabilityIndexOf_range.
  - apply maintainabilityIndexOf_range.
Qed.

(** ** The Python dependency classifier *)

Section PythonFacts.

Import PythonParser.

Lemma isPythonBuiltin_relative importPath :
  startsWithDot importPath = true -> isPythonBuiltin importPath = false.
Proof.
  destruct importPath as [|c rest]; [done|]. simpl. intros Hc.
  apply Ascii.eqb_eq in Hc. subst c.
  unfold isPythonBuiltin, Path.split. cbn [Path.split_on].
  change (Ascii.eqb dot dot) with true. cbn [head default].
  by vm_compute.
Qed.

Lemma stripDots_prefix n name :
  startsWithDot name = false -> stripDots (dotsPrefix n name) = (n, name).
Proof.
  intros Hname. induction n as [|n IH]; simpl.
  - destruct name as [|c rest]; [done|]. simpl in *. by rewrite Hname.
  - by rewrite IH.
Qed.

Lemma goUp_iter n dir : goUp n dir = Nat.iter n Path.dirname dir.
Proof.
  revert dir. induction n as [|n IH]; intros dir; [done|].
  simpl. rewrite IH. clear IH. induction n as [|n IH]; [done|].
  simpl. by rewrite IH.
Qed.

End PythonFacts.

(** C9 (as stated, refuted): [.utils] imported from [/proj/pkg/mod.py] is
    resolved inside [/proj/pkg]; walking up one directory per leading dot
    would leave the package and give [/proj/utils]. *)
Lemma python_single_dot_stays_in_package :
  let dep :=
    PythonParser.classifyPythonDependency (fun _ => false)
      ".utils" "/proj/pkg/mod.py" "/proj" in
  dtype dep = internal
  /\ dto dep = "/proj/pkg/utils"
  /\ resolveOneUpPerDot ".utils" "/proj/pkg/mod.py" = "/proj/utils"
  /\ dto dep <> resolveOneUpPerDot ".utils" "/proj/pkg/mod.py".
Proof. vm_compute. split_and!; [done|done|done|discriminate]. Qed.

(** C9 (amended): a Python import specifier with leading dots is resolved
    against the originating file's directory, walking up one directory per
    leading dot after the first; the classifier then probes, in order, the
    path with '.py' appended and the '__init__.py' file inside the resolved
    directory; the first existing path wins, and if none exists the
    unresolved path is kept as a best-effort internal target. *)
Theorem python_relative_import_resolution
  (existsSync : string -> bool) (n : nat) (name fromFile basePath : string) :
  PythonParser.startsWithDot name = false ->
  let importPath := dotsPrefix (S n) name in
  let targetDir := Nat.iter n Path.dirname (Path.dirname fromFile) in
  let resolved :=
    fold_left
      (fun p part => if decide (part = "") then p else Path.join p part)
      (Path.split PythonParser.dot name) targetDir in
  let dep :=
    PythonParser.classifyPythonDependency existsSync importPath fromFile basePath in
  dtype dep = internal
  /\ dfrom dep = fromFile
  /\ dto dep =
     (if existsSync (resolved +:+ ".py") then resolved +:+ ".py"
      else if existsSync (Path.join resolved "__init__.py")
           then Path.join resolved "__init__.py"
           else resolved).
Proof.
  intros Hname importPath targetDir resolved dep.
  subst dep. unfold PythonParser.classifyPythonDependency.
  assert (PythonParser.startsWithDot importPath = true) as Hrel
    by (subst importPath; reflexivity).
  rewrite (isPythonBuiltin_relative _ Hrel), Hrel.
  assert (PythonParser.resolveRelative importPath fromFile = resolved) as ->.
  { unfold PythonParser.resolveRelative. subst importPath.
    rewrite stripDots_prefix by done.
    replace (S n - 1) with n by lia. by rewrite goUp_iter. }
  by cbn.
Qed.

Lemma python_relative_import_resolution_witness :
  dto (PythonParser.classifyPythonDependency
         (fun p => String.eqb p "/proj/pkg/utils.py")
         "..utils" "/proj/pkg/sub/mod.py" "/proj")
  = "/proj/pkg/utils.py".
Proof.
  exact (proj2 (proj2 (python_relative_import_resolution
                         (fun p => String.eqb p "/proj/pkg/utils.py")
                         1 "utils" "/proj/pkg/sub/mod.py" "/proj" eq_refl))).
Defined.

(** ** The stable sort by severity *)

Section SortFacts.

Import GraphUtils.

Context {A : Type} (key : A -> nat).

Lemma insertByKey_perm x l : insertByKey key x l ≡ₚ x :: l.
Proof.
  induction l as [|y l IH]; [done|]. simpl. case_decide; [done|].
  rewrite IH. apply Permutation_swap.
Qed.

Lemma sortByKey_perm l : sortByKey key l ≡ₚ l.
Proof.
  induction l as [|x l IH]; [done|]. unfold sortByKey in *; simpl.
  by rewrite insertByKey_perm, IH.
Qed.

Lemma insertByKey_sorted x l :
  StronglySorted (fun a b => key a <= key b) l ->
  StronglySorted (fun a b => key a <= key b) (insertByKey key x l).
Proof.
  induction 1 as [|y l Hs IH Hall]; simpl; [by repeat constructor|].
  case_decide as Hle.
  - constructor; [by constructor|]. constructor; [done|].
    eapply Forall_impl; [exact Hall|]. simpl; intros; lia.
  - constructor; [done|]. rewrite insertByKey_perm.
    constructor; [lia|done].
Qed.

Lemma sortByKey_sorted l :
  StronglySorted (fun a b => key a <= key b) (sortByKey key l).
Proof.
  induction l as [|x l IH]; [constructor|].
  unfold sortByKey in *; simpl. by apply insertByKey_sorted.
Qed.

(** Stability: elements with the same key keep their order. *)
Lemma insertByKey_filter k x l :
  filter (fun a => key a = k) (insertByKey key x l) =
  filter (fun a => key a = k) (x :: l).
Proof.
  induction l as [|y l IH]; [done|]. simpl. case_decide as Hle; [done|].
  rewrite filter_cons, IH, !filter_cons.
  repeat case_decide; try done; lia.
Qed.

Lemma sortByKey_stable k l :
  filter (fun a => key a = k) (sortByKey key l) = filter (fun a => key a = k) l.
Proof.
  induction l as [|x l IH]; [done|]. unfold sortByKey in *; simpl.
  by rewrite insertByKey_filter, !filter_cons, IH.
Qed.

Lemma sortByKey_length l : length (sortByKey key l) = length l.
Proof. by rewrite sortByKey_perm. Qed.

End SortFacts.

(** ** [detectCircularDependencies] *)

Section DetectorFacts.

Import CircularDetector.

Lemma slice0_nonneg {A : Type} (l : list A) (e : Z) :
  (0 <= e)%Z -> slice0 l e = take (Z.to_nat e) l.
Proof. intros H. unfold slice0. by rewrite decide_False by lia. Qed.

Lemma setOfList_from (l seen : list string) :
  NoDup seen ->
  let r := fold_left (fun seen x => if decide (x ∈ seen) then seen else seen ++ [x])
             l seen in
  NoDup r /\ forall x, x ∈ r <-> x ∈ seen \/ x ∈ l.
Proof.
  revert seen. induction l as [|y l IH]; intros seen Hnd; simpl.
  - split; [done|]. intros x. rewrite elem_of_nil. tauto.
  - case_decide as Hin.
    + destruct (IH seen Hnd) as [Hnd' Hiff]. split; [done|].
      intros x. rewrite Hiff, elem_of_cons. split; [tauto|].
      intros [?|[->|?]]; auto.
    + destruct (IH (seen ++ [y])) as [Hnd' Hiff].
      { apply NoDup_app. split_and!; [done| |apply NoDup_singleton].
        intros x Hx Hx'. apply list_elem_of_singleton in Hx'. by subst. }
      split; [done|]. intros x.
      rewrite Hiff, elem_of_app, list_elem_of_singleton, elem_of_cons. tauto.
Qed.

Lemma setOfList_spec (l : list string) :
  NoDup (setOfList l) /\ forall x, x ∈ setOfList l <-> x ∈ l.
Proof.
  destruct (setOfList_from l [] (NoDup_nil_2)) as [Hnd Hiff].
  split; [done|]. intros x. unfold setOfList. rewrite Hiff, elem_of_nil. tauto.
Qed.

Lemma countSeverity_total (cs : list DependencyCycle) :
  countSeverity critical cs + countSeverity high cs
  + countSeverity medium cs + countSeverity low cs = length cs.
Proof.
  unfold countSeverity. induction cs as [|c cs IH]; [done|].
  rewrite !filter_cons. destruct (severity c); simpl;
    repeat case_decide; simpl; try done; lia.
Qed.

End DetectorFacts.

(** C10: the reported cycles are the first [maxCycles] elements of the
    severity-sorted list of all detected cycles, while [hasCycles],
    [totalCycles], the per-severity summary and [affectedFiles] are computed
    over all detected cycles; [affectedFiles] is the duplicate-free union of
    the nodes of every detected cycle. *)
Theorem detect_reports_truncated_cycles_full_summary
  (cwd : string) (extractDependencies : Language -> string -> string -> list Dependency)
  (files : list string) (inputPath : string) (language : Language)
  (maxCycles : Z) :
  (0 <= maxCycles)%Z ->
  let allCycles :=
    GraphUtils.findCycles
      (GraphUtils.buildGraph
         (CircularDetector.extractRelationships cwd extractDependencies
            files inputPath language)) in
  let out :=
    CircularDetector.detectCircularDependencies cwd extractDependencies
      files inputPath language maxCycles in
  StronglySorted
    (fun a b => GraphUtils.severityOrder (severity a)
                <= GraphUtils.severityOrder (severity b)) allCycles
  /\ CircularDetector.cycles out = take (Z.to_nat maxCycles) allCycles
  /\ CircularDetector.hasCycles out = bool_decide (allCycles <> [])
  /\ CircularDetector.totalCycles out = length allCycles
  /\ CircularDetector.summary out =
     {| CircularDetector.s_critical :=
          length (filter (fun c => severity c = critical) allCycles);
        CircularDetector.s_high :=
          length (filter (fun c => severity c = high) allCycles);
        CircularDetector.s_medium :=
          length (filter (fun c => severity c = medium) allCycles);
        CircularDetector.s_low :=
          length (filter (fun c => severity c = low) allCycles) |}
  /\ NoDup (CircularDetector.affectedFiles out)
  /\ forall f,
       f ∈ CircularDetector.affectedFiles out <->
       exists c, c ∈ allCycles /\ f ∈ cnodes c.
Proof.
  intros Hmax allCycles out.
  assert (out =
          {| CircularDetector.hasCycles := bool_decide (0 < length allCycles);
             CircularDetector.totalCycles := length allCycles;
             CircularDetector.cycles := CircularDetector.slice0 allCycles maxCycles;
             CircularDetector.summary :=
               {| CircularDetector.s_critical :=
                    CircularDetector.countSeverity critical allCycles;
                  CircularDetector.s_high :=
                    CircularDetector.countSeverity high allCycles;
                  CircularDetector.s_medium :=
                    CircularDetector.countSeverity medium allCycles;
                  CircularDetector.s_low :=
                    CircularDetector.countSeverity low allCycles |};
             CircularDetector.affectedFiles :=
               CircularDetector.setOfList (flat_map cnodes allCycles) |}) as ->.
  { subst out. destruct files as [|file files]; [|done].
    assert (allCycles = []) as Hall by reflexivity.
    clearbody allCycles. subst allCycles.
    unfold CircularDetector.detectCircularDependencies,
      CircularDetector.slice0.
    rewrite decide_False by lia. by rewrite take_nil. }
  cbn [CircularDetector.cycles CircularDetector.hasCycles
       CircularDetector.totalCycles CircularDetector.summary
       CircularDetector.affectedFiles].
  destruct (setOfList_spec (flat_map cnodes allCycles)) as [Hnd Hiff].
  split_and!.
  - apply sortByKey_sorted.
  - by apply slice0_nonneg.
  - destruct allCycles; [done|]. cbn [length].
    rewrite !bool_decide_eq_true_2; [done|done|lia].
  - done.
  - done.
  - done.
  - intros f. rewrite Hiff, list_elem_of_In, in_flat_map.
    split; intros (c & Hc & Hf); exists c;
      by rewrite ?list_elem_of_In in *.
Qed.

Lemma detect_reports_truncated_cycles_full_summary_witness :
  (0 <= 1)%Z
  /\ CircularDetector.cycles
       (CircularDetector.detectCircularDependencies "/p" mutualImports
          ["/p/a.ts"; "/p/b.ts"] "/p" typescript 1)
     = [ {| cnodes := ["/p/a.ts"; "/p/b.ts"]; clength := 2; severity := low |} ].
Proof.
  split; [lia|].
  exact (proj1 (proj2 (detect_reports_truncated_cycles_full_summary
                         "/p" mutualImports ["/p/a.ts"; "/p/b.ts"] "/p"
                         typescript 1 ltac:(lia)))).
Defined.

(** ** Severity *)

Lemma affected_fold (g : Graph) (cycle members : list string) (n : nat) :
  fold_left
    (fun affected v =>
       affected + length (filter (fun p => p ∉ cycle) (GraphUtils.predecessorsOf g v)))
    members n
  = n + length (filter (fun p => p ∉ cycle)
                  (flat_map (GraphUtils.predecessorsOf g) members)).
Proof.
  revert n. induction members as [|v members IH]; intros n; simpl; [lia|].
  rewrite IH, filter_app, length_app. lia.
Qed.

Lemma determineCycleSeverity_edges (cycle : list string) (g : Graph) :
  GraphUtils.determineCycleSeverity cycle g =
  severityOf (length cycle) (enteringEdges cycle g).
Proof.
  unfold GraphUtils.determineCycleSeverity, severityOf, enteringEdges.
  by rewrite affected_fold.
Qed.

Lemma findCycles_sorted (g : Graph) :
  StronglySorted
    (fun a b => GraphUtils.severityOrder (severity a)
                <= GraphUtils.severityOrder (severity b))
    (GraphUtils.findCycles g).
Proof. apply sortByKey_sorted. Qed.

(** Cycles of equal severity stay in the order in which the components were
    found. *)
Lemma findCycles_stable (g : Graph) (s : Severity) :
  map cnodes (filter (fun c => severity c = s) (GraphUtils.findCycles g)) =
  filter (fun scc => GraphUtils.determineCycleSeverity scc g = s)
    (GraphUtils.findStronglyConnectedComponents g).
Proof.
  unfold GraphUtils.findCycles.
  set (mk := fun scc => {| cnodes := scc; clength := length scc;
                           severity := GraphUtils.determineCycleSeverity scc g |}).
  set (sccs := GraphUtils.findStronglyConnectedComponents g).
  rewrite (list_filter_iff _
             (fun c => GraphUtils.severityOrder (severity c)
                       = GraphUtils.severityOrder s)).
  2: { intros c. split; [by intros ->|].
       destruct (severity c), s; simpl; congruence. }
  rewrite sortByKey_stable.
  induction sccs as [|scc sccs IH]; [done|].
  cbn [map]. rewrite !filter_cons. cbn [severity mk].
  destruct (decide (GraphUtils.determineCycleSeverity scc g = s)) as [->|Hne].
  - rewrite decide_True by done. cbn [map cnodes]. by rewrite <- IH.
  - rewrite decide_False; [done|].
    destruct (GraphUtils.determineCycleSeverity scc g), s; simpl; congruence.
Qed.

(** C2 (the code at the failing input): A and B import each other and P
    imports both.  P is the only predecessor outside the cycle, which with
    length 2 gives [low] by the stated thresholds, but the code counts P once
    for A and once for B and reports [medium]. *)
Theorem severity_counts_outside_predecessor_twice :
  let rel := fun a b =>
    {| source := a; target := b; rtype := Import; imports := None; weight := 1 |} in
  let g := GraphUtils.buildGraph
             [rel "A" "B"; rel "B" "A"; rel "P" "A"; rel "P" "B"] in
  GraphUtils.findCycles g =
    [ {| cnodes := ["A"; "B"]; clength := 2; severity := medium |} ]
  /\ distinctOutsidePredecessors ["A"; "B"] g = 1
  /\ enteringEdges ["A"; "B"] g = 2
  /\ severityOf 2 (distinctOutsidePredecessors ["A"; "B"] g) = low.
Proof. by vm_compute. Qed.

(** ** The node set of the dependency graph *)

Section NodeFacts.

Import Graphlib GraphUtils.

Lemma NoDup_snoc_fresh {A : Type} (l : list A) (x : A) :
  NoDup l -> x ∉ l -> NoDup (l ++ [x]).
Proof.
  intros Hnd Hx. apply NoDup_app. split_and!; [done| |apply NoDup_singleton].
  intros y Hy Hy'. apply list_elem_of_singleton in Hy'. by subst.
Qed.

Lemma nodes_ensure_step (g : Graph) (v : string) :
  let g' := if hasNode g v then g else setNode v {| path := v |} g in
  (NoDup (nodes g) -> NoDup (nodes g'))
  /\ forall x, x ∈ nodes g' <-> x ∈ nodes g \/ x = v.
Proof.
  intros g'. subst g'. destruct (hasNode g v) eqn:Hv.
  - apply hasNode_true in Hv. split; [done|]. intros x. split; [auto|].
    intros [?| ->]; done.
  - rewrite nodes_setNode, Hv. apply hasNode_false in Hv. split.
    + intros Hnd. by apply NoDup_snoc_fresh.
    + intros x. by rewrite elem_of_app, list_elem_of_singleton.
Qed.

Lemma nodes_addRelationship (g : Graph) (rel : Relationship) :
  (NoDup (nodes g) -> NoDup (nodes (addRelationship g rel)))
  /\ forall x, x ∈ nodes (addRelationship g rel) <->
               x ∈ nodes g \/ x = source rel \/ x = target rel.
Proof.
  unfold addRelationship.
  destruct (nodes_ensure_step g (source rel)) as [Hnd1 Hin1].
  set (g1 := if hasNode g (source rel) then g else _) in *.
  destruct (nodes_ensure_step g1 (target rel)) as [Hnd2 Hin2].
  set (g2 := if hasNode g1 (target rel) then g1 else _) in *.
  assert (source rel ∈ nodes g2) as Hs by (apply Hin2; left; apply Hin1; auto).
  assert (target rel ∈ nodes g2) as Ht by (apply Hin2; auto).
  apply hasNode_true in Hs, Ht.
  rewrite nodes_setEdge by done.
  split; [auto|]. intros x. rewrite Hin2, Hin1. tauto.
Qed.

Lemma buildGraph_nodes_NoDup rels : NoDup (nodes (buildGraph rels)).
Proof.
  induction rels as [|rel rels IH] using rev_ind; [constructor|].
  rewrite buildGraph_snoc. by apply nodes_addRelationship.
Qed.

Lemma buildGraph_nodes_elem rels x :
  x ∈ nodes (buildGraph rels) <->
  exists rel, rel ∈ rels /\ (x = source rel \/ x = target rel).
Proof.
  induction rels as [|rel rels IH] using rev_ind.
  - split; [intros H; by apply elem_of_nil in H|].
    intros (rel & H & _); by apply elem_of_nil in H.
  - rewrite buildGraph_snoc.
    destruct (nodes_addRelationship (buildGraph rels) rel) as [_ ->].
    rewrite IH. split.
    + intros [(r & Hr & Hx)|Hx].
      * exists r. rewrite elem_of_app. auto.
      * exists rel. rewrite elem_of_app, list_elem_of_singleton. auto.
    + intros (r & Hr & Hx). apply elem_of_app in Hr as [Hr|Hr]; [left; eauto|].
      apply list_elem_of_singleton in Hr. subst. by right.
Qed.

Lemma ensureFiles_nodes files g :
  (NoDup (nodes g) -> NoDup (nodes (DependencyGraph.ensureFiles files g)))
  /\ forall x, x ∈ nodes (DependencyGraph.ensureFiles files g) <->
               x ∈ nodes g \/ x ∈ files.
Proof.
  revert g. induction files as [|file files IH]; intros g.
  - split; [done|]. intros x. rewrite elem_of_nil. simpl. tauto.
  - unfold DependencyGraph.ensureFiles in *. cbn [fold_left].
    destruct (nodes_ensure_step g file) as [Hnd1 Hin1].
    set (g1 := if hasNode g file then g else _) in *.
    destruct (IH g1) as [Hnd2 Hin2]. split; [auto|].
    intros x. rewrite Hin2, Hin1, elem_of_cons. tauto.
Qed.

Lemma jsonNodes_length g : length (jsonNodes g) = nodeCount g.
Proof. unfold jsonNodes, nodes, nodeCount. by rewrite !length_map. Qed.

End NodeFacts.

Section DependencyGraphFacts.

Import Graphlib GraphUtils DependencyGraph.

Variable cwd : string.
Variable extractDependencies : Language -> string -> string -> list Dependency.

Lemma relationships_internal_ends files basePath language rel :
  rel ∈ extractRelationships cwd extractDependencies files basePath language false ->
  source rel ∈ files /\ target rel ∈ map (Path.resolve cwd) files.
Proof.
  unfold extractRelationships. rewrite list_elem_of_In, in_flat_map.
  intros (file & Hfile & Hrel). apply in_flat_map in Hrel as (dep & _ & Hrel).
  rewrite <- !list_elem_of_In in *.
  unfold relationshipsOfDependency in Hrel.
  destruct (dtype dep); [|by apply elem_of_nil in Hrel..].
  case_decide as Hin.
  - apply list_elem_of_singleton in Hrel. by subst.
  - destruct (filter _ (extensionsOf language)) as [|ext exts] eqn:Hf;
      [by apply elem_of_nil in Hrel|].
    apply list_elem_of_singleton in Hrel. subst. split; [done|].
    assert (ext ∈ ext :: exts) as Hext by left.
    rewrite <- Hf in Hext. by apply list_elem_of_filter in Hext as [? _].
Qed.

(** When the scanned paths are distinct and already in resolved form, the
    nodes of the analysed graph are exactly the scanned files. *)
Lemma graphOf_nodes_resolved files basePath language :
  Forall (fun f => Path.resolve cwd f = f) files ->
  NoDup files ->
  nodes (graphOf cwd extractDependencies files basePath language false) ≡ₚ files.
Proof.
  intros Hres Hnd. unfold graphOf.
  set (rels := extractRelationships _ _ _ _ _ _).
  destruct (ensureFiles_nodes files (buildGraph rels)) as [Hnd' Hin].
  apply NoDup_Permutation; [apply Hnd', buildGraph_nodes_NoDup|done|].
  intros x. rewrite Hin, buildGraph_nodes_elem. split; [|auto].
  intros [(rel & Hrel & Hx)|?]; [|done].
  apply relationships_internal_ends in Hrel as [Hs Ht].
  assert (map (Path.resolve cwd) files = files) as Hmap.
  { clear -Hres. induction Hres as [|f files Hf _ IH]; [done|].
    simpl. by rewrite Hf, IH. }
  rewrite Hmap in Ht. by destruct Hx as [-> | ->].
Qed.

(** Then the serialized [nodes] array has one entry per scanned file. *)
Lemma generateDependencyGraph_nodes_resolved files basePath language :
  Forall (fun f => Path.resolve cwd f = f) files ->
  NoDup files ->
  length (graphNodes
            (generateDependencyGraph cwd extractDependencies files basePath
               language false))
  = length files.
Proof.
  intros Hres Hnd. destruct files as [|file files]; [done|].
  cbn [generateDependencyGraph graphNodes].
  rewrite jsonNodes_length. unfold nodeCount.
  rewrite <- (length_map fst (g_nodes _)).
  change (map fst (g_nodes ?g)) with (nodes g).
  by rewrite graphOf_nodes_resolved.
Qed.

End DependencyGraphFacts.

(** C4 (the code at the failing input): for the two files [src/a.ts] and
    [src/b.ts] the graph has three nodes, because the edge target is the
    resolved path [/proj/src/b.ts] while the file list holds [src/b.ts]; the
    serialized [nodes] array has length 3 for 2 files. *)
Theorem relative_scan_adds_resolved_node :
  let out :=
    DependencyGraph.generateDependencyGraph "/proj" relativeScan
      ["src/a.ts"; "src/b.ts"] "src" typescript false in
  map (fun n => fst (fst n)) (DependencyGraph.graphNodes out)
    = ["src/a.ts"; "/proj/src/b.ts"; "src/b.ts"]
  /\ length (DependencyGraph.graphNodes out) = 3
  /\ DependencyGraph.filesCount out = 2.
Proof. by vm_compute. Qed.

(** ** Tarjan's algorithm

    The proof follows the run of [strongConnect].  [Inv] holds between any
    two steps; [LoopInv] is the invariant of the successor loop of one call
    and [Post] what a call establishes.  The nodes of the stack are kept in
    increasing order of index from bottom to top; every stack node reaches
    the node whose call is running, and a stack node reaches every stack
    node above it.  The low link of the running node is the index of a stack
    node it reaches, and no edge leaves the part of the stack above the
    running node towards a stack node of smaller index than the low link.
    Nodes that left the stack only lead to such nodes, and the components
    recorded so far are exactly their strongly connected components with at
    least two nodes. *)

Lemma StronglySorted_ext_in {A : Type} (R1 R2 : A -> A -> Prop) (l : list A) :
  (forall a b, a ∈ l -> b ∈ l -> R1 a b -> R2 a b) ->
  StronglySorted R1 l -> StronglySorted R2 l.
Proof.
  intros Himp Hs. induction Hs as [|a l Hs IH Hall]; constructor.
  - apply IH. intros x y Hx Hy. apply Himp; by right.
  - apply Forall_forall. intros x Hx. apply Himp; [by left|by right|].
    by eapply Forall_forall in Hall.
Qed.

Lemma StronglySorted_app_r {A : Type} (R : A -> A -> Prop) (l1 l2 : list A) :
  StronglySorted R (l1 ++ l2) -> StronglySorted R l2.
Proof.
  induction l1 as [|a l1 IH]; [done|]. simpl. intros Hs.
  apply StronglySorted_inv in Hs as [Hs _]. by apply IH.
Qed.

Lemma StronglySorted_lt_NoDup {A : Type} (f : A -> nat) (l : list A) :
  StronglySorted (fun a b => f b < f a) l -> NoDup l.
Proof.
  induction 1 as [|a l Hs IH Hall]; constructor; [|done].
  intros Ha. eapply Forall_forall in Hall; [|exact Ha]. simpl in Hall. lia.
Qed.

Lemma filter_length_mono {A : Type} (P Q : A -> Prop)
  `{!forall x, Decision (P x)} `{!forall x, Decision (Q x)} (l : list A) :
  (forall x, P x -> Q x) -> length (filter P l) <= length (filter Q l).
Proof.
  intros HPQ. induction l as [|x l IH]; [done|].
  rewrite !filter_cons. repeat case_decide; simpl; try lia.
  exfalso; auto.
Qed.

Lemma filter_length_strict {A : Type} (P Q : A -> Prop)
  `{!forall x, Decision (P x)} `{!forall x, Decision (Q x)} (l : list A) (v : A) :
  (forall x, P x -> Q x) -> v ∈ l -> Q v -> ~ P v ->
  length (filter P l) < length (filter Q l).
Proof.
  intros HPQ Hv HQ HP. induction l as [|x l IH]; [by apply elem_of_nil in Hv|].
  pose proof (filter_length_mono P Q l HPQ).
  rewrite !filter_cons. apply elem_of_cons in Hv as [<-|Hv].
  - rewrite decide_False, decide_True by done. simpl. lia.
  - specialize (IH Hv). repeat case_decide; simpl; try lia.
    exfalso; auto.
Qed.

Section TarjanFacts.

Import GraphUtils.

Variable g : Graph.

Definition visited (st : Tarjan) (v : string) : Prop := is_Some (indices st !! v).

(** The invariant between two steps of the search; [grays] are the nodes
    whose [strongConnect] is running, innermost first. *)
Record Inv (grays : list string) (st : Tarjan) : Prop := {
  inv_onStack : forall v, v ∈ onStack st <-> v ∈ stack st;
  inv_stack_visited : forall v, v ∈ stack st -> visited st v;
  inv_index_bound : forall v i, indices st !! v = Some i -> i < index st;
  inv_index_inj : forall v w i,
    indices st !! v = Some i -> indices st !! w = Some i -> v = w;
  inv_stack_sorted :
    StronglySorted (fun a b => indexOf st b < indexOf st a) (stack st);
  inv_grays_stack : forall v, v ∈ grays -> v ∈ stack st;
  inv_top :
    match grays with
    | v :: _ => forall x, x ∈ stack st -> reach g x v
    | [] => stack st = []
    end;
  inv_stack_reach : forall x y,
    x ∈ stack st -> y ∈ stack st -> indexOf st x <= indexOf st y -> reach g x y;
  inv_black : forall x y, visited st x -> x ∉ grays -> Edge g x y -> visited st y;
  inv_done_closed : forall x y,
    visited st x -> x ∉ stack st -> Edge g x y -> visited st y /\ y ∉ stack st;
  inv_sccs_sound : forall c, c ∈ sccs st ->
    1 < length c /\ NoDup c
    /\ forall x, x ∈ c ->
         (visited st x /\ (x ∉ stack st)
          /\ forall y, y ∈ c <-> reach g x y /\ reach g y x);
  inv_sccs_complete : forall x y,
    visited st x -> x ∉ stack st -> x <> y -> reach g x y -> reach g y x ->
    exists c, c ∈ sccs st /\ x ∈ c;
  inv_sccs_disjoint : forall i j c1 c2 x,
    sccs st !! i = Some c1 -> sccs st !! j = Some c2 -> x ∈ c1 -> x ∈ c2 -> i = j;
  inv_nodes : forall v, visited st v -> v ∈ Graphlib.nodes g
}.

Lemma visited_indexOf st v i : indices st !! v = Some i -> indexOf st v = i.
Proof. unfold indexOf. by intros ->. Qed.

Lemma not_visited_None st v : ~ visited st v <-> indices st !! v = None.
Proof. unfold visited. by rewrite eq_None_not_Some. Qed.

Lemma visited_enter st v x : visited (enter v st) x <-> x = v \/ visited st x.
Proof.
  unfold visited, enter; simpl. rewrite lookup_insert_is_Some. split.
  - intros [->|[_ H]]; auto.
  - intros [->|H]; [by left|]. destruct (decide (v = x)); auto.
Qed.

Lemma indexOf_enter_same st v : indexOf (enter v st) v = index st.
Proof. unfold indexOf, enter; simpl. by rewrite lookup_insert_eq. Qed.

Lemma indexOf_enter_other st v x : x <> v -> indexOf (enter v st) x = indexOf st x.
Proof. intros H. unfold indexOf, enter; simpl. by rewrite lookup_insert_ne. Qed.

Lemma lowOf_enter_same st v : lowOf (enter v st) v = index st.
Proof. unfold lowOf, enter; simpl. by rewrite lookup_insert_eq. Qed.

Lemma indexOf_bound grays st v : Inv grays st -> visited st v -> indexOf st v < index st.
Proof.
  intros HI [i Hi]. rewrite (visited_indexOf _ _ _ Hi). by eapply inv_index_bound.
Qed.

Lemma Inv_setLow grays st v n : Inv grays st -> Inv grays (setLow v n st).
Proof. intros []. by constructor. Qed.

Lemma Inv_enter grays st v :
  Inv grays st -> ~ visited st v -> v ∈ Graphlib.nodes g ->
  match grays with u :: _ => reach g u v | [] => True end ->
  Inv (v :: grays) (enter v st).
Proof.
  intros HI Hv Hnode Hreach.
  assert (forall x, x ∈ stack st -> x <> v) as Hstack_ne.
  { intros x Hx ->. by apply Hv, (inv_stack_visited _ _ HI). }
  assert (forall x, x ∈ stack st -> indexOf (enter v st) x = indexOf st x) as Hidx.
  { intros x Hx. apply indexOf_enter_other. by apply Hstack_ne. }
  assert (forall x, x ∈ stack st -> reach g x v) as Htop.
  { intros x Hx. pose proof (inv_top _ _ HI) as Ht.
    destruct grays as [|u grays]; [rewrite Ht in Hx; by apply elem_of_nil in Hx|].
    etrans; [by apply Ht|done]. }
  constructor.
  - intros x. simpl. rewrite elem_of_union, elem_of_singleton, elem_of_cons.
    by rewrite (inv_onStack _ _ HI).
  - intros x. simpl. rewrite elem_of_cons, visited_enter.
    intros [->|Hx]; [by left|right; by apply (inv_stack_visited _ _ HI)].
  - intros x i. simpl. rewrite lookup_insert. case_decide.
    + intros [= <-]. lia.
    + intros Hi. apply (inv_index_bound _ _ HI) in Hi. lia.
  - intros x y i. simpl. rewrite !lookup_insert.
    repeat case_decide; subst; try done.
    + intros [= <-] Hy. apply (inv_index_bound _ _ HI) in Hy. lia.
    + intros Hx [= <-]. apply (inv_index_bound _ _ HI) in Hx. lia.
    + apply (inv_index_inj _ _ HI).
  - simpl. constructor.
    + pose proof (inv_stack_sorted _ _ HI) as Hs.
      eapply StronglySorted_ext_in; [|exact Hs].
      intros a b Ha Hb. simpl. by rewrite !Hidx.
    + apply Forall_forall. intros x Hx. rewrite indexOf_enter_same, Hidx by done.
      apply (indexOf_bound grays); [done|]. by apply (inv_stack_visited _ _ HI).
  - intros x. simpl. rewrite !elem_of_cons. intros [->|Hx]; [by left|].
    right. by apply (inv_grays_stack _ _ HI).
  - intros x. simpl. rewrite elem_of_cons. intros [->|Hx]; [done|by apply Htop].
  - intros x y. simpl. rewrite !elem_of_cons. intros [->|Hx] [->|Hy].
    + done.
    + rewrite indexOf_enter_same, Hidx by done. intros Hle.
      assert (indexOf st y < index st); [|lia].
      apply (indexOf_bound grays); [done|]. by apply (inv_stack_visited _ _ HI).
    + intros _. by apply Htop.
    + rewrite !Hidx by done. by apply (inv_stack_reach _ _ HI).
  - intros x y. rewrite !visited_enter, not_elem_of_cons.
    intros [->|Hx] [Hne Hg] Hxy; [done|]. right.
    by apply (inv_black _ _ HI x y).
  - intros x y. simpl. rewrite !visited_enter, !not_elem_of_cons.
    intros [->|Hx] [Hne Hs] Hxy; [done|].
    destruct (inv_done_closed _ _ HI x y) as [Hy Hys]; [done..|].
    split_and!; [by right| |done]. intros ->. done.
  - intros c Hc. simpl in Hc.
    destruct (inv_sccs_sound _ _ HI c Hc) as (Hlen & Hnd & Hmem).
    split_and!; [done..|]. intros x Hx.
    destruct (Hmem x Hx) as (Hxv & Hxs & Hiff).
    split_and!; [apply visited_enter; by right| |done].
    simpl. rewrite not_elem_of_cons. split; [|done]. by intros ->.
  - intros x y. simpl. rewrite visited_enter, not_elem_of_cons.
    intros [->|Hx] [Hne Hs]; [done|]. by apply (inv_sccs_complete _ _ HI).
  - apply (inv_sccs_disjoint _ _ HI).
  - intros x. rewrite visited_enter. intros [->|Hx]; [done|].
    by apply (inv_nodes _ _ HI).
Qed.


(** What a part of the search leaves untouched. *)
Record Frame (st0 st : Tarjan) : Prop := {
  fr_indices : forall x, visited st0 x -> indices st !! x = indices st0 !! x;
  fr_low : forall x, visited st0 x -> lowLinks st !! x = lowLinks st0 !! x;
  fr_index : index st0 <= index st;
  fr_new : forall x, visited st x -> ~ visited st0 x -> index st0 <= indexOf st x
}.

Lemma Frame_refl st : Frame st st.
Proof. by constructor. Qed.

Lemma Frame_visited st0 st x : Frame st0 st -> visited st0 x -> visited st x.
Proof. intros HF Hx. unfold visited. by rewrite (fr_indices _ _ HF). Qed.

Lemma Frame_indexOf st0 st x : Frame st0 st -> visited st0 x -> indexOf st x = indexOf st0 x.
Proof. intros HF Hx. unfold indexOf. by rewrite (fr_indices _ _ HF). Qed.

Lemma Frame_lowOf st0 st x : Frame st0 st -> visited st0 x -> lowOf st x = lowOf st0 x.
Proof. intros HF Hx. unfold lowOf. by rewrite (fr_low _ _ HF). Qed.

Lemma Frame_trans st0 st1 st2 : Frame st0 st1 -> Frame st1 st2 -> Frame st0 st2.
Proof.
  intros H1 H2. constructor.
  - intros x Hx. rewrite (fr_indices _ _ H2), (fr_indices _ _ H1); eauto using Frame_visited.
  - intros x Hx. rewrite (fr_low _ _ H2), (fr_low _ _ H1); eauto using Frame_visited.
  - pose proof (fr_index _ _ H1). pose proof (fr_index _ _ H2). lia.
  - intros x Hx2 Hx0. destruct (decide (visited st1 x)) as [Hx1|Hx1].
    + rewrite (Frame_indexOf st1 st2) by done. by apply (fr_new _ _ H1).
    + pose proof (fr_new _ _ H2 x Hx2 Hx1). pose proof (fr_index _ _ H1). lia.
Qed.

Lemma Frame_enter st v : ~ visited st v -> Frame st (enter v st).
Proof.
  intros Hv. constructor; simpl.
  - intros x Hx. rewrite lookup_insert_ne; [done|]. by intros ->.
  - intros x Hx. rewrite lookup_insert_ne; [done|]. by intros ->.
  - lia.
  - intros x Hx Hx0. apply visited_enter in Hx as [->|Hx]; [|done].
    by rewrite indexOf_enter_same.
Qed.

Lemma Frame_setLow st0 st v n :
  ~ visited st0 v -> Frame st0 st -> Frame st0 (setLow v n st).
Proof.
  intros Hv HF. destruct HF. constructor; simpl; try done.
  intros x Hx. rewrite lookup_insert_ne; [by auto|]. by intros ->.
Qed.

(** What [strongConnect v] establishes when started in [st]. *)
Record Post (grays : list string) (v : string) (st st' : Tarjan) : Prop := {
  post_inv : Inv grays st';
  post_frame : Frame st st';
  post_index : indices st' !! v = Some (index st);
  post_stack : exists seg,
    stack st' = seg ++ stack st
    /\ (forall x, x ∈ seg -> ~ visited st x)
    /\ ((seg = [] /\ lowOf st' v = index st)
        \/ (v ∈ seg /\ lowOf st' v < index st
            /\ (exists w, w ∈ stack st /\ indexOf st w = lowOf st' v /\ reach g v w)
            /\ (forall x y, x ∈ seg -> y ∈ stack st -> Edge g x y ->
                           lowOf st' v <= indexOf st y)))
}.

(** The invariant of the successor loop of [strongConnect v], started in
    [st0], after the successors in [processed]. *)
Record LoopInv (grays : list string) (v : string) (st0 st : Tarjan)
  (processed : list string) : Prop := {
  li_inv : Inv (v :: grays) st;
  li_pre : Inv grays st0;
  li_fresh : ~ visited st0 v;
  li_frame : Frame st0 st;
  li_index : indices st !! v = Some (index st0);
  li_low_le : lowOf st v <= index st0;
  li_low_sound : exists w, w ∈ stack st /\ indexOf st w = lowOf st v /\ reach g v w;
  li_stack : exists seg,
    stack st = seg ++ v :: stack st0
    /\ (forall x, x ∈ seg -> ~ visited st0 x /\ x <> v)
    /\ (forall x y, x ∈ seg -> y ∈ stack st0 -> Edge g x y ->
                    lowOf st v <= indexOf st0 y);
  li_processed : forall w, w ∈ processed ->
    visited st w /\ (w ∈ stack st0 -> lowOf st v <= indexOf st0 w)
}.

Lemma LoopInv_enter grays st0 v :
  Inv grays st0 -> ~ visited st0 v -> v ∈ Graphlib.nodes g ->
  match grays with u :: _ => reach g u v | [] => True end ->
  LoopInv grays v st0 (enter v st0) [].
Proof.
  intros HI Hv Hnode Hreach. constructor.
  - by apply Inv_enter.
  - done.
  - done.
  - by apply Frame_enter.
  - simpl. by rewrite lookup_insert_eq.
  - by rewrite lowOf_enter_same.
  - exists v. split_and!; [by left| |done].
    by rewrite indexOf_enter_same, lowOf_enter_same.
  - exists []. split_and!; [done| |].
    + intros x Hx. by apply elem_of_nil in Hx.
    + intros x y Hx. by apply elem_of_nil in Hx.
  - intros w Hw. by apply elem_of_nil in Hw.
Qed.

Lemma lowOf_setLow_same st v n : lowOf (setLow v n st) v = n.
Proof. unfold lowOf, setLow; simpl. by rewrite lookup_insert_eq. Qed.

Lemma LoopInv_lower grays v st0 st processed n w :
  LoopInv grays v st0 st processed ->
  n <= lowOf st v ->
  (n = lowOf st v \/ exists z, z ∈ stack st /\ indexOf st z = n /\ reach g v z) ->
  visited st w ->
  (w ∈ stack st0 -> n <= indexOf st0 w) ->
  LoopInv grays v st0 (setLow v n st) (processed ++ [w]).
Proof.
  intros HL Hn Hsound Hw Hwlow. destruct HL. constructor.
  - by apply Inv_setLow.
  - done.
  - done.
  - by apply Frame_setLow.
  - done.
  - rewrite lowOf_setLow_same. lia.
  - rewrite lowOf_setLow_same. destruct Hsound as [->|Hz]; done.
  - destruct li_stack0 as (seg & Hstack & Hseg & Hlow).
    exists seg. split_and!; [done..|].
    intros x y Hx Hy Hxy. rewrite lowOf_setLow_same.
    specialize (Hlow x y Hx Hy Hxy). lia.
  - intros z. rewrite elem_of_app, list_elem_of_singleton, lowOf_setLow_same.
    intros [Hz| ->]; [|done].
    destruct (li_processed0 z Hz) as [Hzv Hzl]. split; [done|].
    intros Hzs. specialize (Hzl Hzs). lia.
Qed.


Lemma LoopInv_stack_old grays v st0 st processed x :
  LoopInv grays v st0 st processed -> x ∈ stack st0 ->
  x ∈ stack st /\ visited st0 x /\ indexOf st x = indexOf st0 x
  /\ indexOf st0 x < index st0.
Proof.
  intros HL Hx. destruct (li_stack _ _ _ _ _ HL) as (seg & Hstack & _).
  assert (visited st0 x) as Hv by by apply (inv_stack_visited _ _ (li_pre _ _ _ _ _ HL)).
  split_and!; [|done| |].
  - rewrite Hstack, elem_of_app, elem_of_cons. auto.
  - apply Frame_indexOf; [apply (li_frame _ _ _ _ _ HL)|done].
  - by apply (indexOf_bound grays); [apply (li_pre _ _ _ _ _ HL)|].
Qed.

Lemma LoopInv_onStack grays v st0 st processed w i :
  LoopInv grays v st0 st processed ->
  indices st !! w = Some i -> w ∈ onStack st -> Edge g v w ->
  LoopInv grays v st0 (setLow v (Nat.min (lowOf st v) i) st) (processed ++ [w]).
Proof.
  intros HL Hi Hon Hvw. apply LoopInv_lower; [done|lia| |by exists i|].
  - destruct (decide (i < lowOf st v)) as [Hlt|Hge].
    + right. exists w. split_and!.
      * by apply (inv_onStack _ _ (li_inv _ _ _ _ _ HL)).
      * rewrite (visited_indexOf _ _ _ Hi). lia.
      * by apply rtc_once.
    + left. lia.
  - intros Hw0.
    destruct (LoopInv_stack_old _ _ _ _ _ w HL Hw0) as (_ & _ & Hidx & _).
    rewrite <- Hidx, (visited_indexOf _ _ _ Hi). lia.
Qed.

Lemma LoopInv_skip grays v st0 st processed w i :
  LoopInv grays v st0 st processed ->
  indices st !! w = Some i -> w ∉ onStack st ->
  LoopInv grays v st0 st (processed ++ [w]).
Proof.
  intros HL Hi Hon. pose proof HL as HL'. destruct HL. constructor; try done.
  intros z. rewrite elem_of_app, list_elem_of_singleton.
  intros [Hz| ->]; [by apply li_processed0|].
  split; [by exists i|]. intros Hw0. exfalso. apply Hon.
  apply (inv_onStack _ _ li_inv0).
  by destruct (LoopInv_stack_old _ _ _ _ _ w HL' Hw0) as (? & _).
Qed.

Lemma LoopInv_call grays v st0 st st' processed w :
  LoopInv grays v st0 st processed ->
  ~ visited st w -> Edge g v w ->
  Post (v :: grays) w st st' ->
  LoopInv grays v st0
    (setLow v (Nat.min (lowOf st' v) (lowOf st' w)) st') (processed ++ [w]).
Proof.
  intros HL Hw Hvw HP.
  pose proof (li_frame _ _ _ _ _ HL) as HF0.
  pose proof (post_frame _ _ _ _ HP) as HF.
  pose proof (Frame_trans _ _ _ HF0 HF) as HF'.
  assert (visited st v) as Hv by (exists (index st0); apply (li_index _ _ _ _ _ HL)).
  assert (lowOf st' v = lowOf st v) as Hlowv by by apply Frame_lowOf.
  destruct (li_stack _ _ _ _ _ HL) as (seg & Hstack & Hseg & Hlowseg).
  destruct (post_stack _ _ _ _ HP) as (segw & Hstack' & Hsegw & Hcase).
  assert (forall x, x ∈ stack st -> x ∈ stack st') as Hsub.
  { intros x Hx. rewrite Hstack', elem_of_app. auto. }
  assert (forall x, x ∈ stack st -> indexOf st' x = indexOf st x) as Hidx.
  { intros x Hx. apply Frame_indexOf; [done|].
    by apply (inv_stack_visited _ _ (li_inv _ _ _ _ _ HL)). }
  pose proof (li_low_le _ _ _ _ _ HL) as Hle.
  pose proof (fr_index _ _ HF0) as Hidx0.
  constructor.
  - apply Inv_setLow, (post_inv _ _ _ _ HP).
  - apply (li_pre _ _ _ _ _ HL).
  - apply (li_fresh _ _ _ _ _ HL).
  - apply Frame_setLow; [apply (li_fresh _ _ _ _ _ HL)|done].
  - simpl. rewrite (fr_indices _ _ HF) by done. apply (li_index _ _ _ _ _ HL).
  - rewrite lowOf_setLow_same. lia.
  - rewrite lowOf_setLow_same.
    destruct (li_low_sound _ _ _ _ _ HL) as (z & Hz & Hzi & Hvz).
    destruct Hcase as [[-> Hpop]|(Hwseg & Hlt & (z' & Hz' & Hzi' & Hwz') & _)].
    + exists z. split_and!; [by apply Hsub| |done].
      change (indexOf (setLow _ _ st') z) with (indexOf st' z).
      rewrite Hidx by done. lia.
    + destruct (decide (lowOf st' w < lowOf st' v)) as [Hlt'|Hge].
      * exists z'. split_and!; [by apply Hsub| |].
        -- change (indexOf (setLow _ _ st') z') with (indexOf st' z').
           rewrite Hidx by done. lia.
        -- etrans; [by apply rtc_once|done].
      * exists z. split_and!; [by apply Hsub| |done].
        change (indexOf (setLow _ _ st') z) with (indexOf st' z).
        rewrite Hidx by done. lia.
  - exists (segw ++ seg). split_and!.
    + simpl. by rewrite Hstack', Hstack, app_assoc.
    + intros x. rewrite elem_of_app. intros [Hx|Hx]; [|by apply Hseg].
      split.
      * intros Hx0. apply (Hsegw x Hx). by apply (Frame_visited st0 st).
      * intros ->. by apply (Hsegw v Hx).
    + intros x y. rewrite elem_of_app, lowOf_setLow_same.
      intros [Hx|Hx] Hy Hxy.
      * destruct Hcase as [[-> _]|(_ & _ & _ & Hlow)]; [by apply elem_of_nil in Hx|].
        destruct (LoopInv_stack_old _ _ _ _ _ y HL Hy) as (Hys & _ & Hyi & _).
        specialize (Hlow x y Hx Hys Hxy). lia.
      * specialize (Hlowseg x y Hx Hy Hxy). lia.
  - intros z. rewrite elem_of_app, list_elem_of_singleton, lowOf_setLow_same.
    intros [Hz| ->].
    + destruct (li_processed _ _ _ _ _ HL z Hz) as [Hzv Hzl].
      split; [by apply (Frame_visited st st')|].
      intros Hzs. specialize (Hzl Hzs). lia.
    + split; [exists (index st); apply (post_index _ _ _ _ HP)|].
      intros Hw0. exfalso. apply Hw.
      destruct (LoopInv_stack_old _ _ _ _ _ w HL Hw0) as (_ & Hwv & _).
      by apply (Frame_visited st0 st).
Qed.


Lemma popUntil_spec v seg rest ons acc :
  v ∉ seg ->
  exists ons',
    popUntil v (seg ++ v :: rest) ons acc = (rest, ons', acc ++ seg ++ [v])
    /\ forall x, x ∈ ons' <-> x ∈ ons /\ (x ∉ seg) /\ x <> v.
Proof.
  revert ons acc. induction seg as [|w seg IH]; intros ons acc Hv; simpl.
  - rewrite decide_True by done. eexists. split; [done|].
    intros x. rewrite elem_of_difference, elem_of_singleton, elem_of_nil. tauto.
  - apply not_elem_of_cons in Hv as [Hne Hv].
    rewrite decide_False by done.
    destruct (IH (ons ∖ {[w]}) (acc ++ [w]) Hv) as (ons' & -> & Hiff).
    eexists. split; [by rewrite <- app_assoc|].
    intros x. rewrite Hiff, elem_of_difference, elem_of_singleton, not_elem_of_cons.
    tauto.
Qed.

(** Nodes that left the stack only lead to such nodes. *)
Lemma done_closed_reach grays st a b :
  Inv grays st -> reach g a b -> visited st a -> a ∉ stack st ->
  visited st b /\ b ∉ stack st.
Proof.
  intros HI Hab. induction Hab as [a|a a' b Haa' _ IH]; [done|].
  intros Ha Has. destruct (inv_done_closed _ _ HI a a' Ha Has Haa'). by apply IH.
Qed.


(** The facts at the end of the successor loop of [v]. *)
Lemma loop_end_successors grays v st0 st seg x y :
  LoopInv grays v st0 st (successorsOf g v) ->
  stack st = seg ++ v :: stack st0 ->
  (forall x, x ∈ seg -> ~ visited st0 x /\ x <> v) ->
  (forall x y, x ∈ seg -> y ∈ stack st0 -> Edge g x y -> lowOf st v <= indexOf st0 y) ->
  x ∈ seg \/ x = v -> Edge g x y ->
  visited st y /\ (y ∈ stack st0 -> lowOf st v <= indexOf st0 y).
Proof.
  intros HL Hstack Hseg Hlow Hx Hxy.
  destruct Hx as [Hx| ->]; [|by apply (li_processed _ _ _ _ _ HL)].
  split; [|intros Hy; by apply (Hlow x y)].
  apply (inv_black _ _ (li_inv _ _ _ _ _ HL) x y); [| |done].
  - apply (inv_stack_visited _ _ (li_inv _ _ _ _ _ HL)).
    rewrite Hstack, elem_of_app. auto.
  - destruct (Hseg x Hx) as [Hx0 Hne]. rewrite not_elem_of_cons. split; [done|].
    intros Hg. apply Hx0.
    apply (inv_stack_visited _ _ (li_pre _ _ _ _ _ HL)).
    by apply (inv_grays_stack _ _ (li_pre _ _ _ _ _ HL)).
Qed.

Lemma leave_keep grays v st0 st :
  LoopInv grays v st0 st (successorsOf g v) ->
  lowOf st v <> index st0 ->
  Post grays v st0 st.
Proof.
  intros HL Hne.
  pose proof (li_inv _ _ _ _ _ HL) as HI.
  pose proof (li_pre _ _ _ _ _ HL) as HI0.
  pose proof (li_low_le _ _ _ _ _ HL) as Hle.
  destruct (li_stack _ _ _ _ _ HL) as (seg & Hstack & Hseg & Hlow).
  assert (indexOf st v = index st0) as Hidxv
    by apply visited_indexOf, (li_index _ _ _ _ _ HL).
  (* the witness of the low link lies below [v] *)
  assert (exists w, w ∈ stack st0 /\ indexOf st0 w = lowOf st v /\ reach g v w)
    as (w & Hw0 & Hwi & Hvw).
  { destruct (li_low_sound _ _ _ _ _ HL) as (w & Hw & Hwi & Hvw).
    exists w. rewrite Hstack, elem_of_app, elem_of_cons in Hw.
    destruct Hw as [Hw|[->|Hw]].
    - destruct (Hseg w Hw) as [Hw0 _].
      assert (index st0 <= indexOf st w); [|lia].
      apply (fr_new _ _ (li_frame _ _ _ _ _ HL)); [|done].
      apply (inv_stack_visited _ _ HI). rewrite Hstack, elem_of_app. auto.
    - lia.
    - destruct (LoopInv_stack_old _ _ _ _ _ w HL Hw) as (_ & _ & Hi & _).
      split_and!; [done|lia|done]. }
  constructor.
  - destruct HI. constructor; try done.
    + intros x Hx. apply inv_grays_stack0. by right.
    + destruct grays as [|u grays].
      * rewrite (inv_top _ _ HI0) in Hw0. by apply elem_of_nil in Hw0.
      * intros x Hx. etrans; [by apply inv_top0|].
        etrans; [exact Hvw|]. by apply (inv_top _ _ HI0).
    + intros x y Hx Hg Hxy. destruct (decide (x = v)) as [->|Hxv].
      * by apply (li_processed _ _ _ _ _ HL).
      * apply (inv_black0 x y); [done| |done]. rewrite not_elem_of_cons. done.
  - apply (li_frame _ _ _ _ _ HL).
  - apply (li_index _ _ _ _ _ HL).
  - exists (seg ++ [v]). split_and!.
    + by rewrite Hstack, <- app_assoc.
    + intros x. rewrite elem_of_app, list_elem_of_singleton.
      intros [Hx| ->]; [by apply Hseg|apply (li_fresh _ _ _ _ _ HL)].
    + right. split_and!.
      * rewrite elem_of_app, list_elem_of_singleton. auto.
      * lia.
      * by exists w.
      * intros x y. rewrite elem_of_app, list_elem_of_singleton. intros Hx Hy Hxy.
        by apply (loop_end_successors grays v st0 st seg x y).
Qed.


Lemma leave_pop grays v st0 st :
  LoopInv grays v st0 st (successorsOf g v) ->
  lowOf st v = index st0 ->
  Post grays v st0 (leave v st).
Proof.
  intros HL Heq.
  pose proof (li_inv _ _ _ _ _ HL) as HI.
  pose proof (li_pre _ _ _ _ _ HL) as HI0.
  pose proof (li_frame _ _ _ _ _ HL) as HF.
  destruct (li_stack _ _ _ _ _ HL) as (seg & Hstack & Hseg & Hlow).
  assert (indexOf st v = index st0) as Hidxv
    by apply visited_indexOf, (li_index _ _ _ _ _ HL).
  assert (v ∉ seg) as Hvseg by (intros Hv; by destruct (Hseg v Hv)).
  assert (forall x, x ∈ seg \/ x = v -> x ∈ stack st) as Hin.
  { intros x Hx. rewrite Hstack, elem_of_app, elem_of_cons. tauto. }
  assert (forall x, x ∈ stack st -> x ∈ seg \/ x = v \/ x ∈ stack st0) as Hsplit.
  { intros x. rewrite Hstack, elem_of_app, elem_of_cons. tauto. }
  assert (forall x, x ∈ stack st0 -> ~ (x ∈ seg \/ x = v)) as Hold.
  { intros x Hx0 Hx.
    destruct (LoopInv_stack_old _ _ _ _ _ x HL Hx0) as (_ & Hv0 & _).
    destruct Hx as [Hx| ->]; [by destruct (Hseg x Hx)|].
    by apply (li_fresh _ _ _ _ _ HL). }
  assert (forall x y, x ∈ seg \/ x = v -> Edge g x y ->
            visited st y /\ y ∉ stack st0) as Hsucc.
  { intros x y Hx Hxy.
    destruct (loop_end_successors grays v st0 st seg x y) as [Hy Hylow]; try done.
    split; [done|]. intros Hy0. specialize (Hylow Hy0).
    destruct (LoopInv_stack_old _ _ _ _ _ y HL Hy0) as (_ & _ & _ & Hlt). lia. }
  (* paths from the popped nodes stay among them or end in finished nodes *)
  assert (forall a b, reach g a b ->
            (a ∈ seg \/ a = v) \/ (visited st a /\ a ∉ stack st) ->
            (b ∈ seg \/ b = v) \/ (visited st b /\ b ∉ stack st)) as Hclosed.
  { intros a b Hab. induction Hab as [a|a a' b Haa' _ IH]; [done|].
    intros [Ha|[Ha Has]]; apply IH.
    - destruct (Hsucc a a' Ha Haa') as [Hv' Hs'].
      destruct (decide (a' ∈ stack st)) as [Hin'|Hout]; [|by right].
      left. apply Hsplit in Hin'. tauto.
    - right. by apply (inv_done_closed _ _ HI a a'). }
  assert (forall x y, x ∈ seg \/ x = v ->
            (y ∈ seg \/ y = v) <-> reach g x y /\ reach g y x) as Hscc.
  { intros x y Hx. split.
    - intros Hy.
      assert (forall z, z ∈ seg \/ z = v -> reach g z v /\ reach g v z) as Hboth.
      { intros z Hz. split; [by apply (inv_top _ _ HI), Hin|].
        apply (inv_stack_reach _ _ HI); [apply Hin; auto|by apply Hin|].
        rewrite Hidxv. destruct Hz as [Hz| ->]; [|lia].
        apply (fr_new _ _ HF); [by apply (inv_stack_visited _ _ HI), Hin; left|].
        by destruct (Hseg z Hz). }
      destruct (Hboth x Hx), (Hboth y Hy). split; by etrans.
    - intros [Hxy Hyx]. destruct (Hclosed x y Hxy (or_introl Hx)) as [?|[Hyv Hys]]; [done|].
      exfalso. destruct (done_closed_reach _ _ y x HI Hyx Hyv Hys) as [_ Hxs].
      by apply Hxs, Hin. }
  destruct (popUntil_spec v seg (stack st0) (onStack st) [] Hvseg)
    as (ons' & Hpop & Hons').
  assert (leave v st =
          {| indices := indices st; lowLinks := lowLinks st; onStack := ons';
             stack := stack st0;
             sccs := if decide (1 < length (seg ++ [v]))
                     then sccs st ++ [rev (seg ++ [v])] else sccs st;
             index := index st |}) as ->.
  { unfold leave. rewrite decide_True by lia. rewrite <- Hstack in Hpop.
    by rewrite Hpop. }
  set (st' := {| indices := indices st |}).
  assert (forall x, visited st' x <-> visited st x) as Hvis by done.
  assert (NoDup (seg ++ [v])) as Hnd.
  { pose proof (StronglySorted_lt_NoDup _ _ (inv_stack_sorted _ _ HI)) as Hnd.
    rewrite Hstack, (cons_middle v), app_assoc in Hnd.
    by apply NoDup_app in Hnd as [? _]. }
  assert (forall c, c ∈ sccs st' ->
            c ∈ sccs st \/ (1 < length (seg ++ [v]) /\ c = rev (seg ++ [v]))) as Hsccs.
  { intros c. subst st'; simpl. case_decide; [|auto].
    rewrite elem_of_app, list_elem_of_singleton. tauto. }
  assert (forall x, x ∈ rev (seg ++ [v]) <-> x ∈ seg \/ x = v) as Hrev.
  { intros x. rewrite list_elem_of_In, <- in_rev, <- list_elem_of_In.
    by rewrite elem_of_app, list_elem_of_singleton. }
  constructor.
  - constructor.
    + intros x. simpl. rewrite Hons', (inv_onStack _ _ HI). split.
      * intros (Hx & Hxs & Hxv). apply Hsplit in Hx. tauto.
      * intros Hx0. pose proof (Hold x Hx0).
        destruct (LoopInv_stack_old _ _ _ _ _ x HL Hx0) as (? & _). tauto.
    + intros x Hx0. apply Hvis.
      destruct (LoopInv_stack_old _ _ _ _ _ x HL Hx0) as (? & _).
      by apply (inv_stack_visited _ _ HI).
    + apply (inv_index_bound _ _ HI).
    + apply (inv_index_inj _ _ HI).
    + pose proof (inv_stack_sorted _ _ HI) as Hs. rewrite Hstack in Hs.
      apply StronglySorted_app_r in Hs. by apply StronglySorted_inv in Hs as [? _].
    + apply (inv_grays_stack _ _ HI0).
    + apply (inv_top _ _ HI0).
    + intros x y Hx Hy. simpl in Hx, Hy.
      destruct (LoopInv_stack_old _ _ _ _ _ x HL Hx) as (? & _).
      destruct (LoopInv_stack_old _ _ _ _ _ y HL Hy) as (? & _).
      by apply (inv_stack_reach _ _ HI).
    + intros x y Hx Hg Hxy. apply Hvis. apply Hvis in Hx.
      destruct (decide (x = v)) as [->|Hne].
      * by apply (Hsucc v y); [right|].
      * apply (inv_black _ _ HI x y); [done| |done].
        rewrite not_elem_of_cons. done.
    + intros x y Hx Hxs Hxy. simpl in Hxs. apply Hvis in Hx.
      destruct (decide (x ∈ stack st)) as [Hin'|Hout].
      * apply Hsplit in Hin'. destruct (Hsucc x y) as [? ?]; [tauto|done|done].
      * destruct (inv_done_closed _ _ HI x y Hx Hout Hxy) as [Hy Hys].
        split; [done|]. simpl. intros Hy0. apply Hys.
        by destruct (LoopInv_stack_old _ _ _ _ _ y HL Hy0) as (? & _).
    + intros c Hc. apply Hsccs in Hc as [Hc|[Hlen ->]].
      * destruct (inv_sccs_sound _ _ HI c Hc) as (? & ? & Hmem).
        split_and!; [done..|]. intros x Hx.
        destruct (Hmem x Hx) as (? & Hxs & ?). split_and!; [done| |done].
        simpl. intros Hx0. apply Hxs.
        by destruct (LoopInv_stack_old _ _ _ _ _ x HL Hx0) as (? & _).
      * split_and!.
        -- by rewrite length_rev.
        -- by apply NoDup_ListNoDup, List.NoDup_rev, NoDup_ListNoDup.
        -- intros x Hx. apply Hrev in Hx. split_and!.
           ++ apply Hvis, (inv_stack_visited _ _ HI). by apply Hin.
           ++ simpl. intros Hx0. by apply (Hold x).
           ++ intros y. rewrite Hrev. by apply Hscc.
    + intros x y Hx Hxs Hne Hxy Hyx. simpl in Hxs. apply Hvis in Hx.
      destruct (decide (x ∈ stack st)) as [Hin'|Hout].
      * apply Hsplit in Hin'.
        assert (x ∈ seg \/ x = v) as Hx' by tauto.
        assert (y ∈ seg \/ y = v) as Hy' by by apply (Hscc x y).
        exists (rev (seg ++ [v])). split; [|by apply Hrev].
        subst st'; simpl. rewrite decide_True.
        { rewrite elem_of_app, list_elem_of_singleton. auto. }
        assert (x ∈ seg ++ [v]) as Hxm
          by (rewrite elem_of_app, list_elem_of_singleton; done).
        assert (y ∈ seg ++ [v]) as Hym
          by (rewrite elem_of_app, list_elem_of_singleton; done).
        destruct (seg ++ [v]) as [|a [|b l]]; simpl; [| |lia].
        -- by apply elem_of_nil in Hxm.
        -- apply list_elem_of_singleton in Hxm, Hym. congruence.
      * destruct (inv_sccs_complete _ _ HI x y Hx Hout Hne Hxy Hyx) as (c & Hc & Hxc).
        exists c. split; [|done]. subst st'; simpl. case_decide; [|done].
        rewrite elem_of_app. auto.
    + intros i j c1 c2 x. subst st'. cbn [sccs].
      case_decide as Hlen; [|apply (inv_sccs_disjoint _ _ HI)].
      intros Hi Hj Hx1 Hx2.
      assert (forall k c, (sccs st ++ [rev (seg ++ [v])]) !! k = Some c -> x ∈ c ->
                (k < length (sccs st) /\ sccs st !! k = Some c /\ x ∉ stack st)
                \/ (k = length (sccs st) /\ x ∈ stack st)) as Hk.
      { intros k c Hk Hxc. apply lookup_app_Some in Hk as [Hk|[Hge Hk]].
        - left. split_and!; [by eapply lookup_lt_Some|done|].
          apply list_elem_of_lookup_2 in Hk.
          destruct (inv_sccs_sound _ _ HI c Hk) as (_ & _ & Hmem).
          by destruct (Hmem x Hxc) as (_ & ? & _).
        - right. apply list_lookup_singleton_Some in Hk as [Hk <-].
          split; [lia|]. by apply Hin, Hrev. }
      destruct (Hk i c1 Hi Hx1) as [(? & Hi' & ?)|[-> ?]],
               (Hk j c2 Hj Hx2) as [(? & Hj' & ?)|[-> ?]]; try done.
      by apply (inv_sccs_disjoint _ _ HI i j c1 c2 x).
    + intros x Hx. by apply (inv_nodes _ _ HI), Hvis.
  - destruct HF. by constructor.
  - apply (li_index _ _ _ _ _ HL).
  - exists []. split_and!; [done| |].
    + intros x Hx. by apply elem_of_nil in Hx.
    + left. split; [done|]. exact Heq.
Qed.


Lemma leave_Post grays v st0 st :
  LoopInv grays v st0 st (successorsOf g v) -> Post grays v st0 (leave v st).
Proof.
  intros HL. destruct (decide (lowOf st v = index st0)) as [Heq|Hne].
  - by apply leave_pop.
  - assert (leave v st = st) as ->; [|by apply leave_keep].
    unfold leave. rewrite decide_False; [done|].
    by rewrite (visited_indexOf _ _ _ (li_index _ _ _ _ _ HL)).
Qed.

(** *** Termination: the fuel bounds the number of unvisited nodes *)

Hypothesis Hwf : forall u w, Edge g u w -> w ∈ Graphlib.nodes g.

Definition unvisited (st : Tarjan) : nat :=
  length (filter (fun x => indices st !! x = None) (Graphlib.nodes g)).

Lemma unvisited_mono st st' :
  (forall x, visited st x -> visited st' x) -> unvisited st' <= unvisited st.
Proof.
  intros Hsub. apply filter_length_mono. intros x Hx.
  apply not_visited_None. intros Hv. apply Hsub in Hv.
  by apply not_visited_None in Hx.
Qed.

Lemma unvisited_enter st v :
  v ∈ Graphlib.nodes g -> ~ visited st v -> unvisited (enter v st) < unvisited st.
Proof.
  intros Hnode Hv. apply (filter_length_strict _ _ _ v); [|done| |].
  - intros x Hx. apply not_visited_None. intros Hxv.
    apply not_visited_None in Hx. apply Hx, visited_enter. auto.
  - by apply not_visited_None.
  - simpl. by rewrite lookup_insert_eq.
Qed.

Section Loop.

Variable fuel : nat.

Hypothesis IH : forall grays v st,
  Inv grays st -> ~ visited st v -> v ∈ Graphlib.nodes g ->
  match grays with u :: _ => reach g u v | [] => True end ->
  unvisited st < fuel ->
  exists st', strongConnect g fuel v st = Some st' /\ Post grays v st st'.

Lemma visitSuccessors_spec grays v st0 succs :
  forall processed st,
    LoopInv grays v st0 st processed ->
    (forall w, w ∈ succs -> Edge g v w) ->
    unvisited st < fuel ->
    exists st',
      visitSuccessors (strongConnect g fuel) v succs st = Some st'
      /\ LoopInv grays v st0 st' (processed ++ succs).
Proof.
  induction succs as [|w succs IHs]; intros processed st HL Hsuccs Hfuel.
  - exists st. by rewrite app_nil_r.
  - assert (Edge g v w) as Hvw by (apply Hsuccs; left).
    assert (forall w', w' ∈ succs -> Edge g v w') as Hsuccs'
      by (intros w' Hw'; apply Hsuccs; by right).
    rewrite (cons_middle w), app_assoc. cbn [visitSuccessors].
    destruct (indices st !! w) as [i|] eqn:Hi.
    + case_decide as Hon.
      * apply IHs; [by apply LoopInv_onStack|done|done].
      * apply IHs; [by eapply LoopInv_skip|done|done].
    + apply not_visited_None in Hi.
      destruct (IH (v :: grays) w st) as (st' & -> & HP);
        [apply (li_inv _ _ _ _ _ HL)|done|by eapply Hwf|by apply rtc_once|done|].
      apply IHs; [by apply (LoopInv_call grays v st0 st st')|done|].
      eapply Nat.le_lt_trans; [|exact Hfuel].
      apply unvisited_mono. intros x.
      apply (Frame_visited st st'), (post_frame _ _ _ _ HP).
Qed.

End Loop.

Lemma strongConnect_spec fuel :
  forall grays v st,
    Inv grays st -> ~ visited st v -> v ∈ Graphlib.nodes g ->
    match grays with u :: _ => reach g u v | [] => True end ->
    unvisited st < fuel ->
    exists st', strongConnect g fuel v st = Some st' /\ Post grays v st st'.
Proof.
  induction fuel as [|fuel IH]; intros grays v st HI Hv Hnode Hreach Hfuel; [lia|].
  cbn [strongConnect].
  destruct (visitSuccessors_spec fuel IH grays v st (successorsOf g v) []
              (enter v st)) as (st' & -> & HL).
  - by apply LoopInv_enter.
  - done.
  - pose proof (unvisited_enter st v Hnode Hv). lia.
  - exists (leave v st'). split; [done|]. by apply leave_Post.
Qed.

Lemma Inv_initial : Inv [] initial.
Proof.
  assert (forall x, ~ visited initial x) as Hno.
  { intros x [? Hx]. simpl in Hx. by rewrite lookup_empty in Hx. }
  constructor; simpl; try done.
  - intros v. by rewrite elem_of_empty, elem_of_nil.
  - intros v Hv. by apply elem_of_nil in Hv.
  - constructor.
  - intros x y Hx. by apply elem_of_nil in Hx.
  - intros x y Hx. by apply Hno in Hx.
  - intros c Hc. by apply elem_of_nil in Hc.
  - intros x y Hx. by apply Hno in Hx.
  - intros x Hx. by apply Hno in Hx.
Qed.

Lemma visitNodes_spec fuel vs :
  forall st,
    Inv [] st -> Graphlib.nodeCount g < fuel ->
    (forall v, v ∈ vs -> v ∈ Graphlib.nodes g) ->
    exists st',
      visitNodes g fuel vs st = Some st' /\ Inv [] st'
      /\ (forall x, visited st x -> visited st' x)
      /\ (forall v, v ∈ vs -> visited st' v).
Proof.
  induction vs as [|v vs IHvs]; intros st HI Hfuel Hvs.
  - exists st. split_and!; [done..|]. intros v Hv. by apply elem_of_nil in Hv.
  - cbn [visitNodes].
    assert (forall v', v' ∈ vs -> v' ∈ Graphlib.nodes g) as Hvs'
      by (intros v' Hv'; apply Hvs; by right).
    destruct (indices st !! v) as [i|] eqn:Hi.
    + destruct (IHvs st HI Hfuel Hvs') as (st' & Hrun & HI' & Hmono & Hall).
      exists st'. split_and!; [done..|].
      intros x [->|Hx]%elem_of_cons; [apply Hmono; by exists i|by apply Hall].
    + apply not_visited_None in Hi.
      destruct (strongConnect_spec fuel [] v st) as (st1 & -> & HP);
        [done|done|apply Hvs; by left|done| |].
      { eapply Nat.le_lt_trans; [|exact Hfuel].
        unfold unvisited, Graphlib.nodeCount.
        rewrite <- (length_map fst (g_nodes g)). apply length_filter. }
      destruct (IHvs st1 (post_inv _ _ _ _ HP) Hfuel Hvs')
        as (st' & Hrun & HI' & Hmono & Hall).
      exists st'. split_and!; [done|done| |].
      * intros x Hx. by apply Hmono, (Frame_visited st st1), Hx; apply (post_frame _ _ _ _ HP).
      * intros x [->|Hx]%elem_of_cons; [|by apply Hall].
        apply Hmono. exists (index st). apply (post_index _ _ _ _ HP).
Qed.

(** The search terminates with every node visited and an empty stack. *)
Lemma runTarjan_spec :
  exists st,
    runTarjan g = Some st /\ Inv [] st
    /\ forall v, v ∈ Graphlib.nodes g -> visited st v.
Proof.
  destruct (visitNodes_spec (S (Graphlib.nodeCount g)) (Graphlib.nodes g) initial)
    as (st & Hrun & HI & _ & Hall); [apply Inv_initial|lia|done|].
  by exists st.
Qed.

End TarjanFacts.

(** ** Well-formed graphs

    On a graph that satisfies graphlib's invariants the successor and the
    predecessor lists both describe the edge list; the graphs the tools
    build satisfy them. *)

Section WfFacts.

Import Graphlib GraphUtils.

Lemma Edge_edges g u w : wfGraph g -> Edge g u w <-> (u, w) ∈ edges g.
Proof.
  intros [_ Hwf]. unfold Edge, successorsOf, successors.
  destruct (hasNode g u) eqn:Hu; simpl.
  - rewrite list_elem_of_fmap. split.
    + intros ([a b] & -> & Hin). by apply list_elem_of_filter in Hin as [<- ?].
    + intros Hin. exists (u, w). split; [done|]. by apply list_elem_of_filter.
  - apply hasNode_false in Hu. split; [by intros ?%elem_of_nil|].
    intros Hin. by apply Hwf in Hin as [? _].
Qed.

Lemma predecessors_edges g u w :
  wfGraph g -> u ∈ predecessorsOf g w <-> (u, w) ∈ edges g.
Proof.
  intros [_ Hwf]. unfold predecessorsOf, predecessors.
  destruct (hasNode g w) eqn:Hw; simpl.
  - rewrite list_elem_of_fmap. split.
    + intros ([a b] & -> & Hin). by apply list_elem_of_filter in Hin as [<- ?].
    + intros Hin. exists (u, w). split; [done|]. by apply list_elem_of_filter.
  - apply hasNode_false in Hw. split; [by intros ?%elem_of_nil|].
    intros Hin. by apply Hwf in Hin as [_ ?].
Qed.

Lemma sinks_spec g v :
  wfGraph g -> v ∈ sinks g <-> v ∈ nodes g /\ forall w, ~ Edge g v w.
Proof.
  intros Hwf. unfold sinks. rewrite list_elem_of_filter. split.
  - intros [Hnone Hv]. split; [done|]. intros w Hvw.
    apply (Edge_edges g v w Hwf) in Hvw.
    assert ((v, w) ∈ filter (fun e => e.1 = v) (edges g)) as Hin
      by by apply list_elem_of_filter.
    rewrite Hnone in Hin. by apply elem_of_nil in Hin.
  - intros [Hv Hnone]. split; [|done].
    destruct (filter _ (edges g)) as [|[a b] l] eqn:Hf; [done|].
    assert ((a, b) ∈ filter (fun e => e.1 = v) (edges g)) as Hin
      by (rewrite Hf; left).
    apply list_elem_of_filter in Hin as [Ha Hin]. simpl in Ha. subst a.
    exfalso. apply (Hnone b). by apply Edge_edges.
Qed.

Lemma wfGraph_addRelationship g rel : wfGraph g -> wfGraph (addRelationship g rel).
Proof.
  intros [Hnd Hwf].
  destruct (nodes_addRelationship g rel) as [Hnd' Hin]. split; [auto|].
  intros v w. rewrite edges_addRelationship, !Hin.
  case_decide as He.
  - intros Hvw. destruct (Hwf v w Hvw). auto.
  - rewrite elem_of_app, list_elem_of_singleton. intros [Hvw|[= -> ->]]; [|auto].
    destruct (Hwf v w Hvw). auto.
Qed.

Lemma wfGraph_buildGraph rels : wfGraph (buildGraph rels).
Proof.
  induction rels as [|rel rels IH] using rev_ind.
  - split; [constructor|]. intros v w Hvw. by apply elem_of_nil in Hvw.
  - rewrite buildGraph_snoc. by apply wfGraph_addRelationship.
Qed.

Lemma edges_ensureFiles files g :
  edges (DependencyGraph.ensureFiles files g) = edges g.
Proof.
  revert g. induction files as [|file files IH]; intros g; [done|].
  unfold DependencyGraph.ensureFiles in *. cbn [fold_left]. rewrite IH.
  destruct (hasNode g file); [done|]. unfold edges. by rewrite g_edges_setNode.
Qed.

Lemma wfGraph_ensureFiles files g :
  wfGraph g -> wfGraph (DependencyGraph.ensureFiles files g).
Proof.
  intros [Hnd Hwf]. destruct (ensureFiles_nodes files g) as [Hnd' Hin].
  split; [auto|]. intros v w. rewrite edges_ensureFiles, !Hin.
  intros Hvw. destruct (Hwf v w Hvw). auto.
Qed.

End WfFacts.

(** ** graphlib's [topsort] and [isAcyclic]

    [topsort] visits predecessors depth first from every sink.  The result
    list only ever receives a node after all its predecessors, so a
    completed run that reached every node excludes a cycle; a node met again
    while its visit is running lies on a cycle, and nodes that no sink
    reaches backwards all have successors among themselves, which in a
    finite graph gives a cycle as well. *)

Section TopsortFacts.

Import Graphlib GraphUtils.

Variable g : Graph.
Hypothesis Hwf : wfGraph g.


(** In a finite set of nodes in which every node has a successor there is a
    cycle. *)
Lemma endless_walk_cycle (n : nat) :
  forall (L : list string) (U : string -> Prop),
    length L <= n ->
    (forall x, U x -> x ∈ L) ->
    (forall x, U x -> (exists y, (Edge g) x y /\ U y) \/ exists z, tc (Edge g) z z) ->
    (exists x, U x) ->
    exists z, tc (Edge g) z z.
Proof.
  induction n as [|n IH]; intros L U Hlen HL Hnext [x0 Hx0].
  - destruct L; [|simpl in Hlen; lia]. by apply HL, elem_of_nil in Hx0.
  - destruct (Hnext x0 Hx0) as [(y0 & Hxy & Hy0)|?]; [|done].
    destruct (decide (y0 = x0)) as [->|Hne]; [exists x0; by apply tc_once|].
    apply (IH (filter (fun x => x <> x0) L)
              (fun x => U x /\ x <> x0 /\ rtc (Edge g) x0 x)).
    + assert (length (filter (fun x => x <> x0) L) < length L); [|lia].
      apply (length_filter_lt _ _ x0); [by apply HL|]. by intros ?.
    + intros x (Hx & Hxne & _). apply list_elem_of_filter. split; [done|by apply HL].
    + intros x (Hx & Hxne & Hreach).
      destruct (Hnext x Hx) as [(y & Hxy' & Hy)|?]; [|by right].
      destruct (decide (y = x0)) as [->|Hyne].
      * right. exists x0. eapply tc_rtc_l; [exact Hreach|by apply tc_once].
      * left. exists y. split_and!; [done..|]. by eapply rtc_r.
    + exists y0. split_and!; [done..|]. by apply rtc_once.
Qed.

(** The invariant of the search; [path] lists the nodes whose [visit] is
    running, innermost first. *)
Record TInv (path : list string) (st : TopsortState) : Prop := {
  t_stack : forall x, x ∈ ts_stack st <-> x ∈ path;
  t_visited : forall x, x ∈ ts_visited st <-> x ∈ path \/ x ∈ ts_results st;
  t_disjoint : forall x, x ∈ path -> x ∉ ts_results st;
  t_nodup : NoDup (ts_results st);
  t_topo : forall j x p, ts_results st !! j = Some x -> (Edge g) p x ->
    exists i, i < j /\ ts_results st !! i = Some p;
  t_chain : match path with
            | c :: _ => forall x, x ∈ path -> rtc (Edge g) c x
            | [] => True
            end;
  t_nodes : forall x, x ∈ ts_visited st -> x ∈ nodes g
}.

(** In a topologically ordered list no node lies on a cycle. *)
Lemma topo_before (l : list string) :
  (forall j x p, l !! j = Some x -> (Edge g) p x -> exists i, i < j /\ l !! i = Some p) ->
  forall a b, tc (Edge g) a b ->
    forall j, l !! j = Some b -> exists i, i < j /\ l !! i = Some a.
Proof.
  intros Htopo a b Hab. induction Hab as [a b Hab|a a' b Haa' _ IH]; intros j Hj.
  - by apply (Htopo j b a).
  - destruct (IH j Hj) as (i & Hi & Hli).
    destruct (Htopo i a' a Hli Haa') as (k & Hk & Hlk).
    exists k. split; [lia|done].
Qed.

Lemma topo_acyclic (l : list string) x :
  NoDup l ->
  (forall j x p, l !! j = Some x -> (Edge g) p x -> exists i, i < j /\ l !! i = Some p) ->
  x ∈ l -> ~ tc (Edge g) x x.
Proof.
  intros Hnd Htopo Hx Hcycle. apply list_elem_of_lookup in Hx as [j Hj].
  destruct (topo_before l Htopo x x Hcycle j Hj) as (i & Hi & Hli).
  pose proof (NoDup_lookup l i j x Hnd Hli Hj). lia.
Qed.

Definition tunvisited (st : TopsortState) : nat :=
  length (filter (fun x => x ∉ ts_visited st) (nodes g)).

(** What [visit] and the loops over it return. *)
Definition visitResult (path : list string) (st : TopsortState)
  (r : Outcome TopsortState) (targets : list string) : Prop :=
  match r with
  | Done st' =>
      TInv path st'
      /\ (forall x, x ∈ ts_visited st -> x ∈ ts_visited st')
      /\ (forall x, x ∈ ts_results st -> x ∈ ts_results st')
      /\ (forall x, x ∈ targets -> x ∈ ts_results st')
  | Cycle => exists z, tc (Edge g) z z
  | OutOfFuel => False
  end.

Lemma tunvisited_mono st st' :
  (forall x, x ∈ ts_visited st -> x ∈ ts_visited st') ->
  tunvisited st' <= tunvisited st.
Proof. intros Hsub. apply filter_length_mono. intros x Hx Hin. by apply Hx, Hsub. Qed.

Section Loop.

Variable fuel : nat.

Hypothesis IH : forall path v st,
  TInv path st -> v ∈ nodes g ->
  match path with c :: _ => (Edge g) v c | [] => True end ->
  tunvisited st < fuel ->
  visitResult path st (visit g fuel v st) [v].

Lemma forEach_visit_spec path vs :
  forall st,
    TInv path st ->
    (forall v, v ∈ vs -> v ∈ nodes g) ->
    (forall v, v ∈ vs -> match path with c :: _ => (Edge g) v c | [] => True end) ->
    tunvisited st < fuel ->
    visitResult path st (forEach (visit g fuel) vs st) vs.
Proof.
  induction vs as [|v vs IHvs]; intros st HT Hnodes Hedge Hfuel.
  - simpl. split_and!; [done..|]. intros x Hx. by apply elem_of_nil in Hx.
  - cbn [forEach].
    pose proof (IH path v st HT (Hnodes v ltac:(left)) (Hedge v ltac:(left)) Hfuel)
      as Hv.
    destruct (visit g fuel v st) as [st1| |]; [|exact Hv..].
    destruct Hv as (HT1 & Hvis1 & Hres1 & Hv1).
    assert (tunvisited st1 < fuel) as Hfuel1.
    { eapply Nat.le_lt_trans; [by apply tunvisited_mono|done]. }
    pose proof (IHvs st1 HT1 (fun x Hx => Hnodes x ltac:(by right))
                  (fun x Hx => Hedge x ltac:(by right)) Hfuel1) as Hrest.
    destruct (forEach (visit g fuel) vs st1) as [st2| |]; [|exact Hrest..].
    destruct Hrest as (HT2 & Hvis2 & Hres2 & Hvs2).
    split_and!; [done|auto|auto|].
    intros x [->|Hx]%elem_of_cons; [|by apply Hvs2].
    apply Hres2, Hv1. by left.
Qed.

End Loop.


Lemma TInv_push path v st :
  TInv path st -> v ∈ nodes g -> v ∉ ts_visited st ->
  match path with c :: _ => (Edge g) v c | [] => True end ->
  TInv (v :: path)
    {| ts_visited := {[v]} ∪ ts_visited st; ts_stack := {[v]} ∪ ts_stack st;
       ts_results := ts_results st |}.
Proof.
  intros HT Hnode Hv Hedge. constructor; simpl.
  - intros x. rewrite elem_of_union, elem_of_singleton, elem_of_cons.
    by rewrite (t_stack _ _ HT).
  - intros x. rewrite elem_of_union, elem_of_singleton, elem_of_cons.
    rewrite (t_visited _ _ HT). tauto.
  - intros x [->|Hx]%elem_of_cons; [|by apply (t_disjoint _ _ HT)].
    intros Hr. apply Hv, (t_visited _ _ HT). auto.
  - apply (t_nodup _ _ HT).
  - apply (t_topo _ _ HT).
  - intros x [->|Hx]%elem_of_cons; [done|].
    pose proof (t_chain _ _ HT) as Hc. destruct path as [|c path].
    + by apply elem_of_nil in Hx.
    + eapply rtc_l; [exact Hedge|by apply Hc].
  - intros x. rewrite elem_of_union, elem_of_singleton.
    intros [->|Hx]; [done|by apply (t_nodes _ _ HT)].
Qed.

Lemma TInv_pop path v st0 st :
  TInv path st0 -> TInv (v :: path) st -> v ∉ path ->
  (forall p, (Edge g) p v -> p ∈ ts_results st) ->
  TInv path
    {| ts_visited := ts_visited st; ts_stack := ts_stack st ∖ {[v]};
       ts_results := ts_results st ++ [v] |}.
Proof.
  intros HT0 HT Hv Hpreds.
  assert (v ∉ ts_results st) as Hvr by (apply (t_disjoint _ _ HT); by left).
  constructor; simpl.
  - intros x. rewrite elem_of_difference, elem_of_singleton, (t_stack _ _ HT).
    rewrite elem_of_cons. split; [tauto|]. intros Hx. split; [auto|]. by intros ->.
  - intros x. rewrite (t_visited _ _ HT), elem_of_cons, elem_of_app,
      list_elem_of_singleton. tauto.
  - intros x Hx. rewrite elem_of_app, list_elem_of_singleton.
    intros [Hr| ->]; [|done]. revert Hr. apply (t_disjoint _ _ HT). by right.
  - apply NoDup_app. split_and!; [apply (t_nodup _ _ HT)| |apply NoDup_singleton].
    intros x Hx ->%list_elem_of_singleton. done.
  - intros j x p Hj Hpx. apply lookup_app_Some in Hj as [Hj|[Hge Hj]].
    + destruct (t_topo _ _ HT j x p Hj Hpx) as (i & Hi & Hli).
      exists i. split; [done|]. by apply lookup_app_l_Some.
    + apply list_lookup_singleton_Some in Hj as [Hj <-].
      apply Hpreds, list_elem_of_lookup in Hpx as [i Hi].
      exists i. split; [|by apply lookup_app_l_Some].
      apply lookup_lt_Some in Hi. lia.
  - apply (t_chain _ _ HT0).
  - apply (t_nodes _ _ HT).
Qed.

Lemma visit_spec fuel :
  forall path v st,
    TInv path st -> v ∈ nodes g ->
    match path with c :: _ => (Edge g) v c | [] => True end ->
    tunvisited st < fuel ->
    visitResult path st (visit g fuel v st) [v].
Proof.
  induction fuel as [|fuel IH]; intros path v st HT Hnode Hedge Hfuel; [lia|].
  cbn [visit]. case_decide as Hstack.
  { (* [v] is on the stack: a cycle *)
    apply (t_stack _ _ HT) in Hstack. pose proof (t_chain _ _ HT) as Hc.
    destruct path as [|c path]; [by apply elem_of_nil in Hstack|].
    exists v. eapply tc_rtc_r; [by apply tc_once|by apply Hc]. }
  case_decide as Hvis.
  { split_and!; [done..|]. intros x ->%list_elem_of_singleton.
    apply (t_visited _ _ HT) in Hvis as [Hp|?]; [|done].
    by apply (t_stack _ _ HT) in Hp. }
  set (st1 := {| ts_visited := {[v]} ∪ ts_visited st;
                 ts_stack := {[v]} ∪ ts_stack st;
                 ts_results := ts_results st |}).
  change (default [] (predecessors g v)) with (predecessorsOf g v).
  assert (TInv (v :: path) st1) as HT1 by by apply TInv_push.
  assert (forall x, x ∈ ts_visited st -> x ∈ ts_visited st1) as Hsub1.
  { intros x Hx. subst st1; simpl. rewrite elem_of_union. auto. }
  assert (tunvisited st1 < fuel) as Hfuel1.
  { assert (tunvisited st1 < tunvisited st); [|lia].
    apply (filter_length_strict _ _ _ v); [|done|done|].
    - intros x Hx Hin. by apply Hx, Hsub1.
    - intros Hn. apply Hn. subst st1; simpl.
      rewrite elem_of_union, elem_of_singleton. auto. }
  assert (forall p, p ∈ predecessorsOf g v <-> (Edge g) p v) as Hpred.
  { intros p. by rewrite predecessors_edges, Edge_edges. }
  assert (visitResult (v :: path) st1
            (forEach (visit g fuel) (predecessorsOf g v) st1)
            (predecessorsOf g v)) as Hloop.
  { apply (forEach_visit_spec fuel IH); [done| | |done].
    - intros p Hp. apply (predecessors_edges g p v Hwf) in Hp.
      by apply Hwf in Hp as [? _].
    - intros p Hp. by apply Hpred. }
  destruct (forEach (visit g fuel) (predecessorsOf g v) st1) as [st2| |];
    [|exact Hloop..].
  destruct Hloop as (HT2 & Hvis2 & Hres2 & Hpreds).
  split_and!.
  - apply (TInv_pop path v st st2); [done..| |].
    + intros Hp. by apply Hstack, (t_stack _ _ HT).
    + intros p Hp. by apply Hpreds, Hpred.
  - intros x Hx. simpl. by apply Hvis2, Hsub1.
  - intros x Hx. simpl. rewrite elem_of_app. left. by apply Hres2.
  - intros x ->%list_elem_of_singleton. simpl.
    rewrite elem_of_app, list_elem_of_singleton. auto.
Qed.


Lemma TInv_initial :
  TInv [] {| ts_visited := ∅; ts_stack := ∅; ts_results := [] |}.
Proof.
  constructor; simpl; try done.
  - intros x. by rewrite elem_of_empty, elem_of_nil.
  - intros x. rewrite elem_of_empty, elem_of_nil. tauto.
  - intros x Hx. by apply elem_of_nil in Hx.
  - constructor.
Qed.

Lemma Edge_nodes u w : (Edge g) u w -> u ∈ nodes g /\ w ∈ nodes g.
Proof. intros H. apply Edge_edges in H; [|done]. by apply Hwf. Qed.

Lemma tc_Edge_node x y : tc (Edge g) x y -> x ∈ nodes g.
Proof. intros H. destruct H as [x y H|x y z H _]; by apply Edge_nodes in H as [? _]. Qed.

(** [topsort] never runs out of fuel, completes when the graph has no cycle
    and throws [CycleException] when it has one. *)
Lemma topsort_spec :
  match topsort g with
  | Done _ => ~ exists z, tc (Edge g) z z
  | Cycle => exists z, tc (Edge g) z z
  | OutOfFuel => False
  end.
Proof.
  unfold topsort.
  set (st0 := {| ts_visited := ∅; ts_stack := ∅; ts_results := [] |}).
  assert (visitResult [] st0
            (forEach (visit g (S (nodeCount g))) (sinks g) st0) (sinks g)) as Hrun.
  { apply (forEach_visit_spec _ (visit_spec _)); [apply TInv_initial| |done|].
    - intros v Hv. by apply sinks_spec in Hv as [? _].
    - assert (tunvisited st0 <= nodeCount g); [|lia].
      unfold tunvisited, nodeCount. rewrite <- (length_map fst (g_nodes g)).
      apply length_filter. }
  destruct (forEach (visit g (S (nodeCount g))) (sinks g) st0) as [st| |];
    [|exact Hrun..].
  destruct Hrun as (HT & _ & _ & Hsinks).
  assert (forall x, x ∈ ts_visited st <-> x ∈ ts_results st) as Hvis.
  { intros x. rewrite (t_visited _ _ HT), elem_of_nil. tauto. }
  assert (size (list_to_set (nodes g) : gset string) = nodeCount g) as Hsize.
  { rewrite size_list_to_set by apply Hwf. unfold nodeCount, nodes.
    by rewrite length_map. }
  case_decide as Hcount.
  - (* every node is in the topological order *)
    intros (z & Hz).
    assert (ts_visited st = list_to_set (nodes g)) as Hall.
    { apply set_subseteq_size_eq; [|lia].
      intros x Hx. apply elem_of_list_to_set. by apply (t_nodes _ _ HT). }
    apply (topo_acyclic (ts_results st) z (t_nodup _ _ HT) (t_topo _ _ HT));
      [|done].
    apply Hvis. rewrite Hall. apply elem_of_list_to_set. by eapply tc_Edge_node.
  - (* some node was not reached from the sinks *)
    destruct (decide (Forall (fun u => u ∈ ts_visited st) (nodes g))) as [Hall|Hsome].
    { exfalso. apply Hcount. rewrite <- Hsize. f_equal.
      apply set_eq. intros x. rewrite elem_of_list_to_set. split.
      - apply (t_nodes _ _ HT).
      - intros Hx. by eapply Forall_forall in Hall. }
    apply not_Forall_Exists, Exists_exists in Hsome as (u & Hu & Hunv);
      [|apply _].
    apply (endless_walk_cycle (length (nodes g)) (nodes g)
             (fun x => x ∈ nodes g /\ x ∉ ts_visited st)); [done|tauto| |by exists u].
    intros x [Hx Hxv]. left.
    destruct (successorsOf g x) as [|y ys] eqn:Hsuccs.
    + exfalso. apply Hxv, Hvis, Hsinks, sinks_spec; [done|]. split; [done|].
      intros w Hw. unfold Edge in Hw. rewrite Hsuccs in Hw.
      by apply elem_of_nil in Hw.
    + assert ((Edge g) x y) as Hxy by (unfold Edge; rewrite Hsuccs; left).
      exists y. split_and!; [done|by apply Edge_nodes in Hxy as [_ ?]|].
      intros Hy. apply Hxv. apply Hvis in Hy.
      apply list_elem_of_lookup in Hy as [j Hj].
      destruct (t_topo _ _ HT j y x Hj Hxy) as (i & _ & Hi).
      apply Hvis. by eapply list_elem_of_lookup_2.
Qed.

Lemma isAcyclic_spec : isAcyclic g = true <-> ~ exists z, tc (Edge g) z z.
Proof.
  unfold isAcyclic. pose proof topsort_spec as H.
  destruct (topsort g); [done| |done].
  split; [done|]. intros Hno. by destruct Hno.
Qed.

End TopsortFacts.

Section CycleFacts.

Import Graphlib GraphUtils.

Lemma wellFormed_wfGraph g : wellFormed g = true <-> wfGraph g.
Proof.
  unfold wellFormed, wfGraph.
  rewrite andb_true_iff, bool_decide_eq_true, forallb_forall.
  split; intros [Hnd Hall]; (split; [done|]).
  - intros v w Hvw. apply list_elem_of_In, Hall, andb_true_iff in Hvw.
    simpl in Hvw. by rewrite !hasNode_true in Hvw.
  - intros [v w] Hvw. apply list_elem_of_In, Hall in Hvw. simpl.
    by rewrite andb_true_iff, !hasNode_true.
Qed.

Lemma hasSelfLoop_spec g : wfGraph g -> hasSelfLoop g = true <-> exists x, Edge g x x.
Proof.
  intros Hwf. unfold hasSelfLoop. rewrite existsb_exists. split.
  - intros ([v w] & Hin & Heq). apply bool_decide_eq_true in Heq. simpl in Heq.
    subst w. exists v. by apply Edge_edges, list_elem_of_In.
  - intros (x & Hx). exists (x, x). split; [|by apply bool_decide_eq_true].
    by apply list_elem_of_In, Edge_edges.
Qed.

(** Tarjan's algorithm on a well-formed graph: the components found are
    exactly the strongly connected components with at least two nodes, each
    found once. *)
Lemma findStronglyConnectedComponents_spec g :
  wfGraph g ->
  let sccs := findStronglyConnectedComponents g in
  (forall c, c ∈ sccs ->
     1 < length c /\ NoDup c
     /\ forall x, x ∈ c ->
          x ∈ nodes g /\ forall y, y ∈ c <-> reach g x y /\ reach g y x)
  /\ (forall x y, x ∈ nodes g -> x <> y -> reach g x y -> reach g y x ->
        exists c, c ∈ sccs /\ x ∈ c)
  /\ (forall i j c1 c2 x,
        sccs !! i = Some c1 -> sccs !! j = Some c2 -> x ∈ c1 -> x ∈ c2 -> i = j).
Proof.
  intros Hwf sccs.
  destruct (runTarjan_spec g) as (st & Hrun & HI & Hall).
  { intros u w Huw. apply Edge_edges in Huw; [|done]. by apply Hwf in Huw as [_ ?]. }
  assert (sccs = GraphUtils.sccs st) as ->.
  { subst sccs. unfold findStronglyConnectedComponents. by rewrite Hrun. }
  pose proof (inv_top _ _ _ HI) as Hempty. simpl in Hempty.
  assert (forall x, x ∉ stack st) as Hnostack.
  { intros x. rewrite Hempty. apply not_elem_of_nil. }
  split_and!.
  - intros c Hc. destruct (inv_sccs_sound _ _ _ HI c Hc) as (? & ? & Hmem).
    split_and!; [done..|]. intros x Hx. destruct (Hmem x Hx) as (Hv & _ & ?).
    split; [by apply (inv_nodes _ _ _ HI)|done].
  - intros x y Hx. apply (inv_sccs_complete _ _ _ HI); [by apply Hall|done].
  - apply (inv_sccs_disjoint _ _ _ HI).
Qed.

Lemma findCycles_perm g :
  findCycles g ≡ₚ map (mkCycle g) (findStronglyConnectedComponents g).
Proof. apply sortByKey_perm. Qed.

Lemma findCycles_elem g c :
  c ∈ findCycles g <->
  exists scc, scc ∈ findStronglyConnectedComponents g /\ c = mkCycle g scc.
Proof.
  rewrite findCycles_perm, list_elem_of_fmap.
  split; intros (scc & ? & ?); by exists scc.
Qed.

Lemma findCycles_length g :
  length (findCycles g) = length (findStronglyConnectedComponents g).
Proof. by rewrite findCycles_perm, length_map. Qed.

(** Two distinct nodes of one component lie on a cycle. *)
Lemma mutual_reach_cycle g x y :
  x <> y -> reach g x y -> reach g y x -> tc (Edge g) x x.
Proof.
  intros Hne Hxy Hyx. apply rtc_tc in Hxy as [->|Hxy]; [done|].
  by eapply tc_rtc_r.
Qed.

Lemma hasCycle_spec g :
  wfGraph g ->
  hasCycle g = true <-> exists x y, x <> y /\ reach g x y /\ reach g y x.
Proof.
  intros Hwf. destruct (findStronglyConnectedComponents_spec g Hwf)
    as (Hsound & Hcomplete & _).
  unfold hasCycle. rewrite bool_decide_eq_true, findCycles_length. split.
  - intros Hlen.
    destruct (findStronglyConnectedComponents g) as [|c sccs] eqn:Hs;
      [simpl in Hlen; lia|].
    destruct (Hsound c ltac:(left)) as (Hclen & Hnd & Hmem).
    destruct c as [|x [|y c]]; [simpl in Hclen; lia..|].
    exists x, y. split.
    + intros ->. apply NoDup_cons in Hnd as [Hnd _]. apply Hnd. by left.
    + destruct (Hmem x ltac:(left)) as [_ Hiff]. apply Hiff. right; left.
  - intros (x & y & Hne & Hxy & Hyx).
    assert (x ∈ nodes g) as Hx.
    { apply rtc_inv in Hxy as [->|(z & Hxz & _)]; [done|].
      apply Edge_edges in Hxz; [|done]. by apply Hwf in Hxz as [? _]. }
    destruct (Hcomplete x y Hx Hne Hxy Hyx) as (c & Hc & _).
    destruct (findStronglyConnectedComponents g); [by apply elem_of_nil in Hc|].
    simpl. lia.
Qed.

(** [isDAG] is the negation of [hasCycle] only up to self-loops. *)
Lemma isDAG_hasCycle g :
  wfGraph g -> isDAG g = negb (hasCycle g || hasSelfLoop g).
Proof.
  intros Hwf.
  assert ((exists z, tc (Edge g) z z) <->
          hasCycle g = true \/ hasSelfLoop g = true) as Hcycle.
  { rewrite hasCycle_spec, hasSelfLoop_spec by done. split.
    - intros (z & Hz).
      assert (forall a b, tc (Edge g) a b ->
                exists y, Edge g a y /\ rtc (Edge g) y b) as Hstep.
      { intros a b Hab. destruct Hab as [a b Hab|a y b Hay Hyb];
          [by exists b|].
        exists y. split; [done|by apply tc_rtc]. }
      destruct (Hstep z z Hz) as (y & Hzy & Hyz).
      destruct (decide (z = y)) as [<-|Hne]; [right; by exists z|].
      left. exists z, y. split_and!; [done|by apply rtc_once|done].
    - intros [(x & y & Hne & Hxy & Hyx)|(x & Hx)].
      + exists x. by eapply mutual_reach_cycle.
      + exists x. by apply tc_once. }
  pose proof (isAcyclic_spec g Hwf) as Hdag. unfold isDAG.
  destruct (isAcyclic g), (hasCycle g), (hasSelfLoop g); simpl; try done;
    try (exfalso; apply Hdag; [done|]; apply Hcycle; auto; fail).
  exfalso. destruct Hdag as [_ Hdag].
  discriminate Hdag. intros Hz. apply Hcycle in Hz as [?|?]; done.
Qed.

End CycleFacts.

Lemma filter_unique {A : Type} (P : A -> Prop) `{!forall x, Decision (P x)}
  (l : list A) (x : A) :
  x ∈ l -> P x ->
  (forall i j y z, l !! i = Some y -> l !! j = Some z -> P y -> P z -> i = j) ->
  filter P l = [x].
Proof.
  induction l as [|y l IH]; intros Hx HP Huniq; [by apply elem_of_nil in Hx|].
  rewrite filter_cons. case_decide as HPy.
  - assert (filter P l = []) as ->.
    { destruct (filter P l) as [|z f] eqn:Hf; [done|]. exfalso.
      assert (z ∈ filter P l) as Hz by (rewrite Hf; left).
      apply list_elem_of_filter in Hz as [HPz Hz].
      apply list_elem_of_lookup in Hz as [j Hj].
      by specialize (Huniq 0 (S j) y z eq_refl Hj HPy HPz). }
    apply elem_of_cons in Hx as [->|Hx]; [done|].
    apply list_elem_of_lookup in Hx as [j Hj].
    by specialize (Huniq 0 (S j) y x eq_refl Hj HPy HP).
  - apply elem_of_cons in Hx as [->|Hx]; [done|].
    apply IH; [done..|]. intros i j y' z Hi Hj Hy' Hz.
    by specialize (Huniq (S i) (S j) y' z Hi Hj Hy' Hz) as [= ->].
Qed.

Lemma filter_map_mkCycle (g : Graph) (a : string) (l : list (list string)) :
  filter (fun c => a ∈ cnodes c) (map (mkCycle g) l) =
  map (mkCycle g) (filter (fun scc => a ∈ scc) l).
Proof.
  induction l as [|s l IH]; [done|].
  cbn [map]. rewrite !filter_cons. cbn [cnodes mkCycle].
  case_decide; cbn [map]; by rewrite IH.
Qed.

Lemma two_distinct (c : list string) (a : string) :
  1 < length c -> NoDup c -> exists y, y ∈ c /\ y <> a.
Proof.
  intros Hlen Hnd. destruct c as [|x [|y c]]; [simpl in Hlen; lia..|].
  destruct (decide (x = a)) as [->|Hne].
  - exists y. split; [right; left|]. intros ->.
    apply NoDup_cons in Hnd as [Hnd _]. apply Hnd. left.
  - exists x. split; [left|done].
Qed.

(** C3 (as stated, refuted): a graph whose only edge is the self-loop A -> A
    has no reported cycle, yet graphlib does not consider it acyclic: [isDAG]
    and [hasCycle] are both false. *)
Lemma self_loop_neither_dag_nor_cycle :
  let g := GraphUtils.buildGraph
             [ {| source := "A"; target := "A"; rtype := Import;
                  imports := None; weight := 1 |} ] in
  GraphUtils.findCycles g = []
  /\ hasCycle g = false
  /\ GraphUtils.isDAG g = false
  /\ GraphUtils.isDAG g <> negb (hasCycle g).
Proof. vm_compute. split_and!; [done..|discriminate]. Qed.

(** C3 (amended): for every graph G, hasCycle(G) is true if and only if
    findCycles(G) returns at least one entry with length >= 2, and isDAG(G)
    equals the negation of (hasCycle(G) or G has a self-loop edge): without
    self-loop edges isDAG(G) = !hasCycle(G), and a graph with a self-loop
    edge is not a DAG although findCycles may report nothing. *)
Theorem hasCycle_isDAG_up_to_self_loops (g : Graph) :
  wellFormed g = true ->
  (hasCycle g = true <->
   exists c, c ∈ GraphUtils.findCycles g /\ 2 <= clength c)
  /\ GraphUtils.isDAG g = negb (hasCycle g || hasSelfLoop g)
  /\ (hasSelfLoop g = false -> GraphUtils.isDAG g = negb (hasCycle g))
  /\ (hasSelfLoop g = true -> GraphUtils.isDAG g = false).
Proof.
  intros Hwf%wellFormed_wfGraph.
  pose proof (isDAG_hasCycle g Hwf) as Hdag.
  destruct (findStronglyConnectedComponents_spec g Hwf) as (Hsound & _ & _).
  split_and!.
  - unfold hasCycle. rewrite bool_decide_eq_true. split.
    + intros Hlen. destruct (GraphUtils.findCycles g) as [|c cs] eqn:Hc;
        [simpl in Hlen; lia|].
      exists c. split; [left|].
      assert (c ∈ GraphUtils.findCycles g) as Hin by (rewrite Hc; left).
      apply findCycles_elem in Hin as (scc & Hscc & ->). simpl.
      destruct (Hsound scc Hscc) as [? _]. lia.
    + intros (c & Hc & _). destruct (GraphUtils.findCycles g);
        [by apply elem_of_nil in Hc|simpl; lia].
  - done.
  - intros Hno. by rewrite Hdag, Hno, orb_false_r.
  - intros Hloop. by rewrite Hdag, Hloop, orb_true_r.
Qed.

Lemma hasCycle_isDAG_up_to_self_loops_witness :
  wellFormed mutualGraph = true
  /\ GraphUtils.isDAG mutualGraph = negb (hasCycle mutualGraph).
Proof.
  split; [reflexivity|].
  exact (proj1 (proj2 (proj2 (hasCycle_isDAG_up_to_self_loops mutualGraph eq_refl)))
           eq_refl).
Defined.

(** C1: on every graph [findCycles] keeps only strongly connected
    components with at least two members, each reported once: the nodes of a
    reported cycle are exactly the nodes mutually reachable with any of its
    members.  When A imports B and B imports A and no other node lies on a
    cycle through A, exactly one reported cycle contains A; it has length 2
    and consists of A and B.  A node that imports itself and lies on no
    other cycle is in no reported cycle. *)
Theorem findCycles_reports_nontrivial_components (g : Graph) :
  wellFormed g = true ->
  (forall c, c ∈ GraphUtils.findCycles g ->
     2 <= clength c /\ clength c = length (cnodes c) /\ NoDup (cnodes c)
     /\ forall x, x ∈ cnodes c ->
          forall y, y ∈ cnodes c <-> reach g x y /\ reach g y x)
  /\ (forall a b,
        a <> b -> Edge g a b -> Edge g b a ->
        (forall y, reach g a y -> reach g y a -> y = a \/ y = b) ->
        exists c,
          filter (fun c => a ∈ cnodes c) (GraphUtils.findCycles g) = [c]
          /\ clength c = 2 /\ cnodes c ≡ₚ [a; b])
  /\ (forall a,
        Edge g a a ->
        (forall y, reach g a y -> reach g y a -> y = a) ->
        forall c, c ∈ GraphUtils.findCycles g -> a ∉ cnodes c).
Proof.
  intros Hwf%wellFormed_wfGraph.
  destruct (findStronglyConnectedComponents_spec g Hwf)
    as (Hsound & Hcomplete & Hdisjoint).
  split_and!.
  - intros c (scc & Hscc & ->)%findCycles_elem. simpl.
    destruct (Hsound scc Hscc) as (Hlen & Hnd & Hmem).
    split_and!; [lia|done|done|]. intros x Hx. by apply Hmem.
  - intros a b Hne Hab Hba Honly.
    assert (a ∈ Graphlib.nodes g) as Ha.
    { apply Edge_edges in Hab; [|done]. by apply Hwf in Hab as [? _]. }
    destruct (Hcomplete a b Ha Hne) as (scc & Hscc & Hascc);
      [by apply rtc_once..|].
    destruct (Hsound scc Hscc) as (Hlen & Hnd & Hmem).
    destruct (Hmem a Hascc) as [_ Hiff].
    assert (scc ≡ₚ [a; b]) as Hperm.
    { apply NoDup_Permutation; [done| |].
      - apply NoDup_cons. split; [by intros ->%list_elem_of_singleton|].
        apply NoDup_singleton.
      - intros y. rewrite Hiff, elem_of_cons, list_elem_of_singleton. split.
        + intros [? ?]. by apply Honly.
        + intros [->| ->]; split; by (done || apply rtc_once). }
    exists (mkCycle g scc). split_and!; [|by simpl; rewrite Hperm|done].
    apply Permutation_singleton_r.
    rewrite findCycles_perm.
    rewrite filter_map_mkCycle, (filter_unique _ _ scc); [done..|].
    intros i j y z Hi Hj Hy Hz. by apply (Hdisjoint i j y z a).
  - intros a _ Honly c (scc & Hscc & ->)%findCycles_elem Ha. simpl in Ha.
    destruct (Hsound scc Hscc) as (Hlen & Hnd & Hmem).
    destruct (two_distinct scc a Hlen Hnd) as (y & Hy & Hne).
    destruct (Hmem a Ha) as [_ Hiff]. apply Hiff in Hy as [? ?].
    by apply Hne, Honly.
Qed.

Lemma findCycles_reports_nontrivial_components_witness :
  wellFormed mutualGraph = true
  /\ forall c, c ∈ GraphUtils.findCycles mutualGraph ->
       2 <= clength c /\ clength c = length (cnodes c) /\ NoDup (cnodes c)
       /\ forall x, x ∈ cnodes c ->
            forall y, y ∈ cnodes c <-> reach mutualGraph x y /\ reach mutualGraph y x.
Proof.
  split; [reflexivity|].
  exact (proj1 (findCycles_reports_nontrivial_components mutualGraph eq_refl)).
Defined.

(** The two scenarios of the specification, evaluated. *)
Example two_hop_cycle_reported :
  GraphUtils.findCycles mutualGraph =
  [ {| cnodes := ["A"; "B"]; clength := 2; severity := low |} ].
Proof. reflexivity. Qed.

Example self_import_not_reported :
  GraphUtils.findCycles
    (GraphUtils.buildGraph
       [ {| source := "A"; target := "A"; rtype := Import; imports := None;
            weight := 1 |} ]) = [].
Proof. reflexivity. Qed.

Example three_cycle_medium :
  GraphUtils.findCycles
    (GraphUtils.buildGraph
       [ {| source := "A"; target := "B"; rtype := Import; imports := None;
            weight := 1 |};
         {| source := "B"; target := "C"; rtype := Import; imports := None;
            weight := 1 |};
         {| source := "C"; target := "A"; rtype := Import; imports := None;
            weight := 1 |} ])
  = [ {| cnodes := ["A"; "B"; "C"]; clength := 3; severity := medium |} ].
Proof. reflexivity. Qed.

(** The component of A in [mutualGraph] is {A, B}: the two-hop case of
    [findCycles_reports_nontrivial_components] applies to it. *)
Example two_hop_component_reported_once :
  exists c,
    filter (fun c => "A" ∈ cnodes c) (GraphUtils.findCycles mutualGraph) = [c]
    /\ clength c = 2 /\ cnodes c ≡ₚ ["A"; "B"].
Proof.
  assert (wfGraph mutualGraph) as Hwf by by apply wellFormed_wfGraph.
  assert (forall u v, Edge mutualGraph u v -> v = "A" \/ v = "B") as Hedge.
  { intros u v Huv. apply Edge_edges in Huv; [|done].
    change (Graphlib.edges mutualGraph) with [("A", "B"); ("B", "A")] in Huv.
    apply elem_of_cons in Huv as [[= -> ->]|Huv]; [by right|].
    apply list_elem_of_singleton in Huv as [= -> ->]. by left. }
  destruct (findCycles_reports_nontrivial_components mutualGraph eq_refl)
    as (_ & Htwo & _).
  apply Htwo; [done| | |].
  - apply Edge_edges; [done|]. left.
  - apply Edge_edges; [done|]. right; left.
  - intros y Hy _. apply rtc_inv_r in Hy as [<-|(z & _ & Hzy)]; [by left|].
    by apply Hedge in Hzy.
Qed.

(** A node whose only edge is a self-import is in no reported cycle: the
    self-import case applies. *)
Example self_import_component_not_reported :
  let g := GraphUtils.buildGraph
             [ {| source := "A"; target := "A"; rtype := Import;
                  imports := None; weight := 1 |} ] in
  Edge g "A" "A"
  /\ forall c, c ∈ GraphUtils.findCycles g -> "A" ∉ cnodes c.
Proof.
  intros g.
  assert (wfGraph g) as Hwf by by apply wellFormed_wfGraph.
  assert (forall u v, Edge g u v -> v = "A") as Hedge.
  { intros u v Huv. apply Edge_edges in Huv; [|done].
    change (Graphlib.edges g) with [("A", "A")] in Huv.
    by apply list_elem_of_singleton in Huv as [= -> ->]. }
  assert (Edge g "A" "A") as Hloop by (apply Edge_edges; [done|left]).
  split; [done|].
  destruct (findCycles_reports_nontrivial_components g eq_refl) as (_ & _ & Hself).
  apply Hself; [done|].
  intros y Hy _. apply rtc_inv_r in Hy as [<-|(z & _ & Hzy)]; [done|].
  by apply Hedge in Hzy.
Qed.

(** * Further properties of the tools *)

(** ** Transitive and reverse dependencies

    The breadth-first loop ends with the set of nodes reachable along the
    neighbour lists it follows.  Every pass either drops a queue entry or
    marks a node whose out-edges have not been counted yet, so the number of
    passes is at most the number of edges plus one. *)

Section BfsFacts.

Import Graphlib GraphUtils.

Variable next : string -> list string.
Variable E : list (string * string).
Variable key : string * string -> string.
Hypothesis Hnext :
  forall v, length (next v) <= length (filter (fun e => key e = v) E).

Variable node : string.

Definition pending (visited : list string) : nat :=
  length (filter (fun e => key e ∉ visited) E).

Lemma pending_split (l : list (string * string)) (visited : list string)
  (current : string) (n : nat) :
  current ∉ visited ->
  n <= length (filter (fun e => key e = current) l) ->
  length (filter (fun e => key e ∉ visited ++ [current]) l) + n
  <= length (filter (fun e => key e ∉ visited) l).
Proof.
  intros Hnew. revert n. induction l as [|e l IH]; intros n Hle.
  - simpl in *. lia.
  - rewrite !filter_cons in *.
    destruct (decide (key e = current)) as [He|He].
    + rewrite decide_False.
      2:{ rewrite He. intros Hn. apply Hn, elem_of_app. right. left. }
      rewrite decide_True by by rewrite He.
      simpl in *. destruct n as [|n]; [specialize (IH 0); lia|].
      specialize (IH n). lia.
    + specialize (IH n Hle).
      destruct (decide (key e ∉ visited)) as [Hv|Hv].
      * rewrite decide_True.
        2:{ intros [?|?%list_elem_of_singleton]%elem_of_app; done. }
        simpl. lia.
      * rewrite decide_False; [lia|].
        intros Hn. apply Hv. intros Hin. apply Hn, elem_of_app. by left.
Qed.

Lemma pending_visit (visited : list string) (current : string) :
  current ∉ visited ->
  pending (visited ++ [current]) + length (next current) <= pending visited.
Proof. intros Hnew. by apply pending_split. Qed.

Record BfsInv (queue visited : list string) : Prop := {
  bi_nodup : NoDup visited;
  bi_visited : forall v, v ∈ visited -> rtc (fun a b => b ∈ next a) node v;
  bi_queue : forall v, v ∈ queue -> rtc (fun a b => b ∈ next a) node v;
  bi_closed : forall v w, v ∈ visited -> w ∈ next v -> w ∈ visited \/ w ∈ queue;
  bi_start : node ∈ visited \/ node ∈ queue
}.

Lemma BfsInv_end visited v :
  BfsInv [] visited -> rtc (fun a b => b ∈ next a) node v -> v ∈ visited.
Proof.
  intros HI. revert v. apply rtc_ind_r.
  - destruct (bi_start _ _ HI) as [?|H]; [done|by apply elem_of_nil in H].
  - intros b c _ Hbc Hb.
    destruct (bi_closed _ _ HI b c Hb Hbc) as [?|H]; [done|by apply elem_of_nil in H].
Qed.

Lemma bfs_spec fuel :
  forall queue visited,
    BfsInv queue visited ->
    length queue + pending visited <= fuel ->
    exists r, bfs next fuel queue visited = Some r
      /\ NoDup r
      /\ forall v, v ∈ r <-> rtc (fun a b => b ∈ next a) node v.
Proof.
  induction fuel as [|fuel IH]; intros queue visited HI Hfuel.
  - destruct queue as [|c q]; [|simpl in Hfuel; lia].
    exists visited. split; [done|]. split; [apply HI|].
    intros v. split; [apply HI|].
    by apply BfsInv_end.
  - destruct queue as [|current rest].
    + exists visited. split; [done|]. split; [apply HI|].
      intros v. split; [apply HI|].
      by apply BfsInv_end.
    + cbn [bfs]. case_decide as Hcur.
      * apply IH; [|simpl in Hfuel; lia].
        destruct HI as [Hnd Hvis Hq Hcl Hst]. constructor; try done.
        -- intros v Hv. apply Hq. by right.
        -- intros v w Hv Hw. destruct (Hcl v w Hv Hw) as [?|Hin]; [by left|].
           apply elem_of_cons in Hin as [->|?]; [by left|by right].
        -- destruct Hst as [?|Hin]; [by left|].
           apply elem_of_cons in Hin as [->|?]; [by left|by right].
      * apply IH.
        -- destruct HI as [Hnd Hvis Hq Hcl Hst].
           assert (rtc (fun a b => b ∈ next a) node current) as Hreach
             by (apply Hq; left).
           constructor.
           ++ apply NoDup_app. split_and!; [done| |apply NoDup_singleton].
              intros x Hx ->%list_elem_of_singleton. done.
           ++ intros v [Hv| ->%list_elem_of_singleton]%elem_of_app; auto.
           ++ intros v [Hv|Hv]%elem_of_app; [apply Hq; by right|].
              apply list_elem_of_filter in Hv as [_ Hv].
              eapply rtc_r; [exact Hreach|done].
           ++ intros v w [Hv| ->%list_elem_of_singleton]%elem_of_app Hw.
              ** destruct (Hcl v w Hv Hw) as [?|Hin];
                   [left; apply elem_of_app; by left|].
                 apply elem_of_cons in Hin as [->|?].
                 --- left. apply elem_of_app. right. left.
                 --- right. apply elem_of_app. by left.
              ** destruct (decide (w ∈ visited ++ [current])) as [?|Hnot];
                   [by left|].
                 right. apply elem_of_app. right. by apply list_elem_of_filter.
           ++ destruct Hst as [?|Hin]; [left; apply elem_of_app; by left|].
              apply elem_of_cons in Hin as [->|?].
              ** left. apply elem_of_app. right. left.
              ** right. apply elem_of_app. by left.
        -- rewrite length_app.
           pose proof (pending_visit visited current Hcur).
           pose proof (length_filter (fun s => s ∉ visited ++ [current]) (next current)).
           simpl in Hfuel. lia.
Qed.

End BfsFacts.

Section ReachFacts.

Import Graphlib GraphUtils.

Lemma successorsOf_length g v :
  length (successorsOf g v) <= length (filter (fun e => e.1 = v) (edges g)).
Proof.
  unfold successorsOf, successors. destruct (hasNode g v); simpl; [|lia].
  by rewrite length_map.
Qed.

Lemma predecessorsOf_length g v :
  length (predecessorsOf g v) <= length (filter (fun e => e.2 = v) (edges g)).
Proof.
  unfold predecessorsOf, predecessors. destruct (hasNode g v); simpl; [|lia].
  by rewrite length_map.
Qed.

Lemma BfsInv_initial next node : BfsInv next node [node] [].
Proof.
  constructor.
  - constructor.
  - intros v Hv. by apply elem_of_nil in Hv.
  - by intros v ->%list_elem_of_singleton.
  - intros v w Hv. by apply elem_of_nil in Hv.
  - right. left.
Qed.

Lemma bfs_graph (g : Graph) (next : string -> list string)
  (key : string * string -> string) (node : string) :
  (forall v, length (next v) <= length (filter (fun e => key e = v) (edges g))) ->
  exists r, bfs next (S (length (g_edges g))) [node] [] = Some r
    /\ NoDup r
    /\ forall v, v ∈ r <-> rtc (fun a b => b ∈ next a) node v.
Proof.
  intros Hnext. apply (bfs_spec next (edges g) key Hnext node).
  - apply BfsInv_initial.
  - unfold pending.
    assert (length (edges g) = length (g_edges g)) as Heq
      by (unfold edges; apply length_map).
    simpl. rewrite <- Heq. apply le_n_S, length_filter.
Qed.

Lemma getTransitiveDependencies_spec g node :
  NoDup (getTransitiveDependencies g node)
  /\ forall v, v ∈ getTransitiveDependencies g node <-> v <> node /\ reach g node v.
Proof.
  unfold getTransitiveDependencies.
  destruct (bfs_graph g (successorsOf g) fst node (successorsOf_length g))
    as (r & -> & Hnd & Hr).
  split; [by apply NoDup_filter|].
  intros v. rewrite list_elem_of_filter, Hr. done.
Qed.

Lemma rtc_flip {A : Type} (R S : relation A) :
  (forall a b, R a b <-> S b a) -> forall x y, rtc R x y <-> rtc S y x.
Proof.
  intros HRS. assert (forall (R S : relation A),
    (forall a b, R a b -> S b a) -> forall x y, rtc R x y -> rtc S y x) as Hone.
  { intros R' S' Himp x y Hxy. induction Hxy as [|x y z Hxy _ IH]; [done|].
    eapply rtc_r; [exact IH|]. by apply Himp. }
  intros x y. split; apply Hone; intros a b; by apply HRS.
Qed.

Lemma getReverseDependencies_spec g node :
  wfGraph g ->
  NoDup (getReverseDependencies g node)
  /\ forall v, v ∈ getReverseDependencies g node <-> v <> node /\ reach g v node.
Proof.
  intros Hwf. unfold getReverseDependencies.
  destruct (bfs_graph g (predecessorsOf g) snd node (predecessorsOf_length g))
    as (r & -> & Hnd & Hr).
  split; [by apply NoDup_filter|].
  intros v. rewrite list_elem_of_filter, Hr.
  unfold reach. rewrite (rtc_flip (fun a b => b ∈ predecessorsOf g a) (Edge g)); [done|].
  intros a b. by rewrite predecessors_edges, Edge_edges.
Qed.

End ReachFacts.

(** X1: [getTransitiveDependencies] returns, without repetition, exactly the
    nodes other than [node] that can be reached from [node] along import
    edges; a start that is no node of the graph has none. *)
Theorem transitive_dependencies_are_the_reachable_nodes (g : Graph) (node : string) :
  NoDup (GraphUtils.getTransitiveDependencies g node)
  /\ (forall v, v ∈ GraphUtils.getTransitiveDependencies g node
                <-> v <> node /\ reach g node v)
  /\ (Graphlib.hasNode g node = false -> GraphUtils.getTransitiveDependencies g node = []).
Proof.
  destruct (getTransitiveDependencies_spec g node) as [Hnd Hiff].
  split_and!; [done..|].
  intros Hno. destruct (GraphUtils.getTransitiveDependencies g node) as [|v l] eqn:Hl; [done|].
  exfalso. assert (v ∈ v :: l) as Hv by left.
  apply Hiff in Hv as [Hne Hreach].
  apply rtc_inv in Hreach as [->|(z & Hz & _)]; [done|].
  unfold Edge, GraphUtils.successorsOf, Graphlib.successors in Hz.
  rewrite Hno in Hz. by apply elem_of_nil in Hz.
Qed.

(** X2: on a graph that satisfies graphlib's invariants
    [getReverseDependencies] returns, without repetition, exactly the nodes
    other than [node] from which [node] can be reached. *)
Theorem reverse_dependencies_are_the_nodes_that_reach (g : Graph) (node : string) :
  wellFormed g = true ->
  NoDup (GraphUtils.getReverseDependencies g node)
  /\ forall v, v ∈ GraphUtils.getReverseDependencies g node
               <-> v <> node /\ reach g v node.
Proof. intros Hwf%wellFormed_wfGraph. by apply getReverseDependencies_spec. Qed.

Lemma reverse_dependencies_are_the_nodes_that_reach_witness :
  wellFormed mutualGraph = true
  /\ NoDup (GraphUtils.getReverseDependencies mutualGraph "A").
Proof.
  split; [reflexivity|].
  exact (proj1 (reverse_dependencies_are_the_nodes_that_reach mutualGraph "A" eq_refl)).
Defined.

(** X3: the two traversals are converse to each other: [w] is a transitive
    dependency of [v] exactly when [v] is a reverse dependency of [w]. *)
Theorem transitive_and_reverse_dependencies_are_converse (g : Graph) (v w : string) :
  wellFormed g = true ->
  w ∈ GraphUtils.getTransitiveDependencies g v <-> v ∈ GraphUtils.getReverseDependencies g w.
Proof.
  intros Hwf%wellFormed_wfGraph.
  destruct (getTransitiveDependencies_spec g v) as [_ ->].
  destruct (getReverseDependencies_spec g w Hwf) as [_ ->].
  split; intros [? ?]; by split.
Qed.

Lemma transitive_and_reverse_dependencies_are_converse_witness :
  wellFormed mutualGraph = true
  /\ ("B" ∈ GraphUtils.getTransitiveDependencies mutualGraph "A"
      <-> "A" ∈ GraphUtils.getReverseDependencies mutualGraph "B").
Proof.
  split; [reflexivity|].
  exact (transitive_and_reverse_dependencies_are_converse mutualGraph "A" "B" eq_refl).
Defined.

(** X4: a file lies on a cycle reported by [findCycles] exactly when some
    other file is both a transitive and a reverse dependency of it. *)
Theorem on_reported_cycle_iff_dependency_both_ways (g : Graph) (v : string) :
  wellFormed g = true ->
  (exists c, c ∈ GraphUtils.findCycles g /\ v ∈ cnodes c)
  <-> exists w, w ∈ GraphUtils.getTransitiveDependencies g v
                /\ w ∈ GraphUtils.getReverseDependencies g v.
Proof.
  intros Hwf%wellFormed_wfGraph.
  destruct (findStronglyConnectedComponents_spec g Hwf) as (Hsound & Hcomplete & _).
  destruct (getTransitiveDependencies_spec g v) as [_ Htd].
  destruct (getReverseDependencies_spec g v Hwf) as [_ Hrd].
  split.
  - intros (c & (scc & Hscc & ->)%findCycles_elem & Hv). simpl in Hv.
    destruct (Hsound scc Hscc) as (Hlen & Hnd & Hmem).
    destruct (two_distinct scc v Hlen Hnd) as (w & Hw & Hne).
    destruct (Hmem v Hv) as [_ Hiff]. apply Hiff in Hw as [? ?].
    exists w. rewrite Htd, Hrd. by split_and!; try (intros ->).
  - intros (w & [Hne Hvw]%Htd & [_ Hwv]%Hrd).
    assert (v ∈ Graphlib.nodes g) as Hv.
    { apply rtc_inv in Hvw as [->|(z & Hz & _)]; [done|].
      apply Edge_edges in Hz; [|done]. by apply Hwf in Hz as [? _]. }
    destruct (Hcomplete v w Hv) as (scc & Hscc & Hin); [by intros ->|done..|].
    exists (mkCycle g scc). split; [|done]. apply findCycles_elem. by exists scc.
Qed.

Lemma on_reported_cycle_iff_dependency_both_ways_witness :
  wellFormed mutualGraph = true
  /\ ((exists c, c ∈ GraphUtils.findCycles mutualGraph /\ "A" ∈ cnodes c)
      <-> exists w, w ∈ GraphUtils.getTransitiveDependencies mutualGraph "A"
                    /\ w ∈ GraphUtils.getReverseDependencies mutualGraph "A").
Proof.
  split; [reflexivity|].
  exact (on_reported_cycle_iff_dependency_both_ways mutualGraph "A" eq_refl).
Defined.

(** ** [findAllPaths]

    The depth-first search keeps in [visited] the nodes of the path that
    leads to the current node, so the paths it records meet no node twice;
    it tries every successor that is not on that path, so unless the
    [maxPaths] bound stops it, it records every such path.  The depth of the
    recursion is bounded by the number of nodes. *)

Section DfsFacts.

Import Graphlib GraphUtils.

Variable g : Graph.
Hypothesis Hwf : wfGraph g.
Variable endNode : string.
Variable maxPaths : nat.

Definition Good (q : list string) : Prop :=
  NoDup q /\ isWalk g q /\ last q = Some endNode.

Definition remaining (st : PathSearch) : nat :=
  length (filter (fun x => x ∉ ps_visited st) (nodes g)).

Record DfsPre (pre : list string) (current : string) (st : PathSearch) : Prop := {
  pre_nodup : NoDup (pre ++ [current]);
  pre_walk : isWalk g (pre ++ [current]);
  pre_visited : forall x, x ∈ ps_visited st <-> x ∈ pre;
  pre_end : endNode ∉ pre;
  pre_nodes : forall x, x ∈ pre ++ [current] -> x ∈ nodes g
}.

Record DfsPost (path : list string) (P : list string -> Prop)
  (st st' : PathSearch) : Prop := {
  dp_visited : ps_visited st' = ps_visited st;
  dp_paths : exists new,
    ps_paths st' = ps_paths st ++ new
    /\ (forall q, q ∈ new -> path `prefix_of` q /\ Good q)
    /\ (length (ps_paths st') < maxPaths ->
        forall q, P q -> Good q -> q ∈ new);
  dp_bound : length (ps_paths st') <= Nat.max maxPaths (length (ps_paths st))
}.

Lemma isWalk_snoc (p : list string) (u s : string) :
  isWalk g (p ++ [u]) -> Edge g u s -> isWalk g ((p ++ [u]) ++ [s]).
Proof.
  intros Hwalk Hus i a b Ha Hb.
  destruct (decide (S i < length (p ++ [u]))) as [Hlt|Hge].
  - rewrite lookup_app_l in Ha by lia. rewrite lookup_app_l in Hb by lia.
    by apply (Hwalk i).
  - assert (i < length (p ++ [u])) as Hi.
    { apply lookup_lt_Some in Hb. rewrite length_app in Hb. simpl in Hb. lia. }
    rewrite lookup_app_l in Ha by lia.
    rewrite lookup_app_r in Hb by lia.
    rewrite length_app in *. simpl in *.
    assert (i = length p) as -> by lia.
    rewrite lookup_app_r in Ha by lia. rewrite Nat.sub_diag in Ha.
    replace (S (length p) - (length p + 1)) with 0 in Hb by lia.
    simpl in *. by simplify_eq.
Qed.

Lemma walk_next (p ext : list string) (u s : string) :
  isWalk g ((p ++ [u]) ++ s :: ext) -> Edge g u s.
Proof.
  intros Hwalk. apply (Hwalk (length p)).
  - rewrite lookup_app_l by (rewrite length_app; simpl; lia).
    rewrite lookup_app_r by lia. by rewrite Nat.sub_diag.
  - rewrite lookup_app_r by (rewrite length_app; simpl; lia).
    rewrite length_app. simpl.
    by replace (S (length p) - (length p + 1)) with 0 by lia.
Qed.

Lemma remaining_add (st : PathSearch) (current : string) :
  current ∈ nodes g -> current ∉ ps_visited st ->
  length (filter (fun x => x ∉ ({[current]} ∪ ps_visited st : gset string)) (nodes g))
  < remaining st.
Proof.
  intros Hin Hnew. unfold remaining.
  apply (filter_length_strict _ _ _ current); [|done|done|].
  - intros x Hx Hx'. apply Hx. apply elem_of_union. by right.
  - intros Hx. apply Hx. apply elem_of_union. left. by apply elem_of_singleton.
Qed.

Section Loop.

Variable fuel : nat.
Hypothesis IH :
  forall pre current st,
    DfsPre pre current st -> remaining st < fuel ->
    exists st', dfs g endNode maxPaths fuel current (pre ++ [current]) st = Some st'
      /\ DfsPost (pre ++ [current])
           (fun q => (pre ++ [current]) `prefix_of` q) st st'.

Lemma forSuccessors_spec (pre : list string) (current : string) :
  current <> endNode ->
  NoDup (pre ++ [current]) ->
  isWalk g (pre ++ [current]) ->
  endNode ∉ pre ->
  (forall x, x ∈ pre ++ [current] -> x ∈ nodes g) ->
  forall succs st,
    (forall s, s ∈ succs -> Edge g current s) ->
    (forall x, x ∈ ps_visited st <-> x ∈ pre ++ [current]) ->
    remaining st < fuel ->
    exists st',
      forSuccessors
        (fun s st => dfs g endNode maxPaths fuel s ((pre ++ [current]) ++ [s]) st)
        succs st = Some st'
      /\ DfsPost (pre ++ [current])
           (fun q => exists s, s ∈ succs /\ ((pre ++ [current]) ++ [s]) `prefix_of` q)
           st st'.
Proof.
  intros Hne Hnd Hwalk Hend Hnodes.
  induction succs as [|s rest IHl]; intros st Hedges Hvis Hfuel.
  - exists st. split; [done|]. constructor; [done| |lia].
    exists []. rewrite app_nil_r. split_and!; [done| |].
    + intros q Hq. by apply elem_of_nil in Hq.
    + intros _ q (s & Hs & _). by apply elem_of_nil in Hs.
  - cbn [forSuccessors].
    assert (forall s', s' ∈ rest -> Edge g current s') as Hrest
      by (intros s' Hs'; apply Hedges; by right).
    case_decide as Hs.
    + destruct (IHl st Hrest Hvis Hfuel) as (st' & Hrun & [Hv (new & Hp & Hsound & Hcompl) Hb]).
      exists st'. split; [done|]. constructor; [done| |done].
      exists new. split_and!; [done..|].
      intros Hlen q (s' & [->|Hs']%elem_of_cons & Hpre) Hq.
      * exfalso. destruct Hpre as [ext ->]. destruct Hq as (Hq & _).
        apply Hvis in Hs. rewrite <- app_assoc in Hq.
        apply NoDup_app in Hq as (_ & Hq & _). apply (Hq s Hs). left.
      * apply Hcompl; [done| |done]. by exists s'.
    + assert (s ∉ pre ++ [current]) as Hs' by (by rewrite <- Hvis).
      destruct (IH (pre ++ [current]) s st) as (st1 & Hcall & [Hv1 (new1 & Hp1 & Hsound1 & Hcompl1) Hb1]); [|done|].
      { constructor; [|by apply isWalk_snoc, Hedges; [|left]|done| |].
        - apply NoDup_app. split_and!; [done| |apply NoDup_singleton].
          by intros x Hx ->%list_elem_of_singleton.
        - intros [?| ->%list_elem_of_singleton]%elem_of_app; done.
        - intros x [?| ->%list_elem_of_singleton]%elem_of_app; [auto|].
          assert (Edge g current s) as He by (apply Hedges; left).
          apply Edge_edges in He; [|done]. by apply Hwf in He as [_ ?]. }
      rewrite Hcall.
      destruct (IHl st1 Hrest) as (st' & Hrun & [Hv (new & Hp & Hsound & Hcompl) Hb]).
      { intros x. by rewrite Hv1. }
      { unfold remaining in *. by rewrite Hv1. }
      exists st'. split; [done|]. constructor; [by rewrite Hv, Hv1| |lia].
      exists (new1 ++ new). split_and!.
      * by rewrite Hp, Hp1, app_assoc.
      * intros q [Hq|Hq]%elem_of_app; [|by apply Hsound].
        destruct (Hsound1 q Hq) as [Hpre ?]. split; [|done].
        etrans; [|exact Hpre]. by apply prefix_app_r.
      * intros Hlen q (s' & [->|Hin]%elem_of_cons & Hpre) Hq.
        -- apply elem_of_app. left. apply Hcompl1; [|done..].
           rewrite Hp, length_app in Hlen. lia.
        -- apply elem_of_app. right. apply Hcompl; [done| |done]. by exists s'.
Qed.

End Loop.

Lemma dfs_spec fuel :
  forall pre current st,
    DfsPre pre current st -> remaining st < fuel ->
    exists st', dfs g endNode maxPaths fuel current (pre ++ [current]) st = Some st'
      /\ DfsPost (pre ++ [current])
           (fun q => (pre ++ [current]) `prefix_of` q) st st'.
Proof.
  induction fuel as [|fuel IH]; intros pre current st HP Hfuel; [lia|].
  destruct HP as [Hnd Hwalk Hvis Hend Hnodes].
  cbn [dfs]. case_decide as Hmax.
  { exists st. split; [done|]. constructor; [done| |lia].
    exists []. rewrite app_nil_r. split_and!; [done| |lia].
    intros q Hq. by apply elem_of_nil in Hq. }
  case_decide as Hcur.
  { eexists. split; [done|]. constructor; simpl; [done| |rewrite length_app; simpl; lia].
    exists [pre ++ [current]]. split_and!; [done| |].
    - intros q ->%list_elem_of_singleton. split; [done|].
      split_and!; [done..|]. by rewrite last_snoc, Hcur.
    - intros _ q [ext ->] (Hq & _ & Hlast). apply list_elem_of_singleton.
      destruct ext as [|x ext _] using rev_ind; [by rewrite app_nil_r|].
      exfalso. rewrite app_assoc, last_snoc in Hlast. simplify_eq.
      rewrite <- app_assoc in Hq. apply NoDup_app in Hq as (_ & _ & Hq).
      simpl in Hq. apply NoDup_cons in Hq as [Hq _].
      apply Hq, elem_of_app. right. left. }
  assert (current ∉ ps_visited st) as Hfresh.
  { rewrite Hvis. apply NoDup_app in Hnd as (_ & Hnd & _).
    intros Hin. apply (Hnd current Hin). left. }
  set (st1 := {| ps_paths := ps_paths st;
                 ps_visited := {[current]} ∪ ps_visited st |}).
  destruct (forSuccessors_spec fuel IH pre current Hcur Hnd Hwalk Hend Hnodes
              (successorsOf g current) st1)
    as (st' & Hrun & [Hv (new & Hp & Hsound & Hcompl) Hb]).
  { done. }
  { intros x. subst st1. simpl. rewrite elem_of_union, elem_of_singleton, Hvis,
      elem_of_app, list_elem_of_singleton. tauto. }
  { assert (remaining st1 < remaining st); [|lia].
    apply (remaining_add st current); [|done].
    apply Hnodes, elem_of_app. right. left. }
  rewrite Hrun. eexists. split; [done|].
  constructor; simpl; [| |done].
  - rewrite Hv. subst st1. simpl. apply set_eq. intros x.
    rewrite elem_of_difference, elem_of_union, elem_of_singleton.
    split; [tauto|]. intros Hx. split; [by right|]. by intros ->.
  - exists new. split_and!; [done..|].
    intros Hlen q [ext ->] Hq. apply Hcompl; [done| |done].
    destruct ext as [|s ext].
    + exfalso. destruct Hq as (_ & _ & Hlast).
      rewrite app_nil_r, last_snoc in Hlast. by simplify_eq.
    + exists s. split.
      * destruct Hq as (_ & Hq & _). by apply walk_next in Hq.
      * exists ext. by rewrite <- (app_assoc _ [s] ext).
Qed.

End DfsFacts.

Section PathFacts.

Import Graphlib GraphUtils.

Lemma simplePath_end_node g s e p :
  wfGraph g -> simplePath g s e p -> s ∈ nodes g -> e ∈ nodes g.
Proof.
  intros Hwf (Hhead & Hlast & _ & Hwalk) Hs.
  destruct p as [|x p _] using rev_ind; [done|].
  rewrite last_snoc in Hlast. simplify_eq.
  destruct p as [|y p _] using rev_ind.
  - simpl in Hhead. by simplify_eq.
  - assert (Edge g y e) as He by by eapply walk_next.
    apply Edge_edges in He; [|done]. by apply Hwf in He as [_ ?].
Qed.

Lemma findAllPaths_spec g s e maxPaths :
  wfGraph g ->
  (forall p, p ∈ findAllPaths g s e maxPaths -> simplePath g s e p)
  /\ length (findAllPaths g s e maxPaths) <= maxPaths
  /\ (length (findAllPaths g s e maxPaths) < maxPaths ->
      s ∈ nodes g ->
      forall p, simplePath g s e p -> p ∈ findAllPaths g s e maxPaths).
Proof.
  intros Hwf. unfold findAllPaths.
  destruct (hasNode g s && hasNode g e) eqn:Hnodes.
  - apply andb_true_iff in Hnodes as [Hs%hasNode_true He%hasNode_true].
    set (st0 := {| ps_paths := []; ps_visited := ∅ |}).
    destruct (dfs_spec g Hwf e maxPaths (S (nodeCount g)) [] s st0)
      as (st' & Hrun & [_ (new & Hp & Hsound & Hcompl) Hb]).
    { constructor; simpl.
      - apply NoDup_singleton.
      - intros i u v Hu Hv. by destruct i.
      - intros x. by rewrite elem_of_empty, elem_of_nil.
      - apply not_elem_of_nil.
      - by intros x ->%list_elem_of_singleton. }
    { assert (remaining g st0 <= nodeCount g); [|lia].
      unfold remaining, nodeCount. rewrite <- (length_map fst (g_nodes g)).
      apply length_filter. }
    change ([] ++ [s]) with [s] in Hrun, Hsound, Hcompl. subst st0.
    rewrite Hrun. simpl in Hp, Hb. rewrite Hp in *.
    split_and!.
    + intros p Hin. destruct (Hsound p Hin) as ([ext ->] & Hnd & Hwalk & Hlast).
      by split_and!.
    + lia.
    + intros Hlen _ p (Hhead & Hlast & Hnd & Hwalk). apply Hcompl; [done| |done].
      destruct p as [|x p]; [done|]. simpl in Hhead. simplify_eq. by exists p.
  - split_and!; [by intros p ?%elem_of_nil|simpl; lia|].
    intros _ Hs p Hp. exfalso.
    pose proof (simplePath_end_node g s e p Hwf Hp Hs) as He.
    apply hasNode_true in Hs, He. by rewrite Hs, He in Hnodes.
Qed.

Lemma simplePath_length g s e p :
  wfGraph g -> simplePath g s e p -> s ∈ nodes g -> length p <= nodeCount g.
Proof.
  intros Hwf (Hhead & Hlast & Hnd & Hwalk) Hs.
  unfold nodeCount. rewrite <- (length_map fst (g_nodes g)).
  change (map fst (g_nodes g)) with (nodes g).
  apply submseteq_length, NoDup_submseteq; [done|].
  intros x Hx. apply list_elem_of_lookup in Hx as [i Hi].
  destruct i as [|i].
  - destruct p; simpl in *; by simplify_eq.
  - destruct (lookup_lt_is_Some_2 p i) as [y Hy].
    { apply lookup_lt_Some in Hi. lia. }
    assert (Edge g y x) as He by by apply (Hwalk i).
    apply Edge_edges in He; [|done]. by apply Hwf in He as [_ ?].
Qed.

(** The loop of [calculateNodeDepth]: the result is 0 or the number of
    edges of a recorded path from one of the entries. *)
Lemma depth_fold g node entries d0 :
  let d := fold_left
             (fun maxDepth entry =>
                match findAllPaths g entry node 1 with
                | p :: _ => Nat.max maxDepth (length p - 1)
                | [] => maxDepth
                end) entries d0 in
  d = d0
  \/ exists entry p, entry ∈ entries /\ p ∈ findAllPaths g entry node 1
                     /\ d = length p - 1.
Proof.
  revert d0. induction entries as [|entry entries IH]; intros d0; [by left|].
  cbn [fold_left]. cbv zeta in IH.
  destruct (findAllPaths g entry node 1) as [|p ps] eqn:Hpaths.
  - destruct (IH d0) as [->|(e' & p' & He' & Hp' & ->)]; [by left|].
    right. exists e', p'. split_and!; [by right|done..].
  - destruct (IH (Nat.max d0 (length p - 1))) as [->|(e' & p' & He' & Hp' & ->)].
    + destruct (Nat.max_spec d0 (length p - 1)) as [[_ ->]|[_ ->]]; [|by left].
      right. exists entry, p. split_and!; [left|rewrite Hpaths; left|done].
    + right. exists e', p'. split_and!; [by right|done..].
Qed.

(** The loop never lowers the depth, and a path recorded for one of the
    entries is a lower bound. *)
Lemma depth_fold_ge g node entries d0 :
  let d := fold_left
             (fun maxDepth entry =>
                match findAllPaths g entry node 1 with
                | p :: _ => Nat.max maxDepth (length p - 1)
                | [] => maxDepth
                end) entries d0 in
  d0 <= d
  /\ forall entry p ps, entry ∈ entries ->
       findAllPaths g entry node 1 = p :: ps -> length p - 1 <= d.
Proof.
  revert d0. induction entries as [|entry entries IH]; intros d0.
  - split; [done|]. by intros ? ? ? ?%elem_of_nil.
  - cbn [fold_left]. cbv zeta in IH.
    destruct (findAllPaths g entry node 1) as [|p ps] eqn:Hpaths.
    + destruct (IH d0) as [Hmono Hlow]. split; [done|].
      intros e' p' ps' [->|He']%elem_of_cons Hp'; [congruence|eauto].
    + destruct (IH (Nat.max d0 (length p - 1))) as [Hmono Hlow].
      split; [lia|].
      intros e' p' ps' [->|He']%elem_of_cons Hp'; [|eauto].
      rewrite Hpaths in Hp'. injection Hp' as <- <-. lia.
Qed.

(** A walk leads from its first to its last node. *)
Lemma walk_reach g p s e :
  isWalk g p -> head p = Some s -> last p = Some e -> reach g s e.
Proof.
  revert s. induction p as [|x p IH]; intros s Hwalk Hhead Hlast; [done|].
  simpl in Hhead. injection Hhead as ->.
  destruct p as [|y p].
  - simpl in Hlast. injection Hlast as ->. apply rtc_refl.
  - apply rtc_l with y.
    + by apply (Hwalk 0).
    + apply IH; [|done|done]. intros i u v Hu Hv. by apply (Hwalk (S i)).
Qed.

(** Whatever can be reached can be reached without meeting a node twice. *)
Lemma reach_simplePath g s e : reach g s e -> exists p, simplePath g s e p.
Proof.
  revert e. apply rtc_ind_r.
  - exists [s]. split_and!; [done|done|apply NoDup_singleton|].
    intros i u v Hu Hv. by destruct i.
  - intros y z _ Hyz (p & Hhead & Hlast & Hnd & Hwalk).
    destruct (decide (z ∈ p)) as [Hin|Hnotin].
    + apply list_elem_of_lookup in Hin as [k Hk].
      pose proof (lookup_lt_Some _ _ _ Hk) as Hlt.
      exists (take (S k) p). split_and!.
      * destruct p; [done|]. done.
      * rewrite last_lookup, length_take, Nat.min_l by lia. simpl.
        apply lookup_take_Some. split; [done|lia].
      * eapply sublist_NoDup; [exact Hnd|apply sublist_take].
      * intros i u v [Hu _]%lookup_take_Some [Hv _]%lookup_take_Some.
        by apply (Hwalk i).
    + exists (p ++ [z]). apply last_Some in Hlast as [p' ->]. split_and!.
      * by destruct p'.
      * by rewrite last_snoc.
      * apply NoDup_app. split_and!; [done| |apply NoDup_singleton].
        by intros x Hx ->%list_elem_of_singleton.
      * by apply isWalk_snoc.
Qed.

End PathFacts.

(** X5: every path [findAllPaths] returns leads from [start] to [end] along
    edges of the graph and meets no node twice, and at most [maxPaths] paths
    are returned. *)
Theorem findAllPaths_returns_simple_paths (g : Graph) (s e : string) (maxPaths : nat) :
  wellFormed g = true ->
  (forall p, p ∈ GraphUtils.findAllPaths g s e maxPaths -> simplePath g s e p)
  /\ length (GraphUtils.findAllPaths g s e maxPaths) <= maxPaths.
Proof.
  intros Hwf%wellFormed_wfGraph.
  destruct (findAllPaths_spec g s e maxPaths Hwf) as (? & ? & _). done.
Qed.

Lemma findAllPaths_returns_simple_paths_witness :
  wellFormed mutualGraph = true
  /\ length (GraphUtils.findAllPaths mutualGraph "A" "B" 10) <= 10.
Proof.
  split; [reflexivity|].
  exact (proj2 (findAllPaths_returns_simple_paths mutualGraph "A" "B" 10 eq_refl)).
Defined.

(** X6: when [findAllPaths] returns fewer than [maxPaths] paths it has
    returned every path from [start] to [end] that meets no node twice. *)
Theorem findAllPaths_complete_below_bound (g : Graph) (s e : string)
  (maxPaths : nat) (p : list string) :
  wellFormed g = true ->
  length (GraphUtils.findAllPaths g s e maxPaths) < maxPaths ->
  Graphlib.hasNode g s = true ->
  simplePath g s e p ->
  p ∈ GraphUtils.findAllPaths g s e maxPaths.
Proof.
  intros Hwf%wellFormed_wfGraph Hlen Hs%hasNode_true Hp.
  destruct (findAllPaths_spec g s e maxPaths Hwf) as (_ & _ & Hcompl). auto.
Qed.

Lemma findAllPaths_complete_below_bound_witness :
  ["A"; "B"] ∈ GraphUtils.findAllPaths mutualGraph "A" "B" 10.
Proof.
  apply (findAllPaths_complete_below_bound mutualGraph "A" "B" 10 ["A"; "B"]).
  - reflexivity.
  - vm_compute. lia.
  - reflexivity.
  - split_and!; [reflexivity|reflexivity| |].
    + apply NoDup_cons. split; [by intros ?%list_elem_of_singleton|apply NoDup_singleton].
    + intros [|[|i]] u v Hu Hv; simpl in *; simplify_eq. vm_compute. left.
Defined.

(** X7: [calculateNodeDepth] is 0 for a node without predecessors and for a
    name that is no node of the graph, and for a node of the graph it is
    below the number of nodes.  It is positive exactly when the node is
    not an entry point (a node without predecessors) and can be reached
    from one, and then it is the number of edges of a path without
    repeated nodes that leads to the node from an entry point. *)
Theorem calculateNodeDepth_is_a_path_length (g : Graph) (node : string) :
  wellFormed g = true ->
  (node ∈ Graphlib.nodes g -> GraphUtils.predecessorsOf g node = [] ->
   GraphUtils.calculateNodeDepth g node = 0)
  /\ (node ∉ Graphlib.nodes g -> GraphUtils.calculateNodeDepth g node = 0)
  /\ (node ∈ Graphlib.nodes g ->
      GraphUtils.calculateNodeDepth g node < Graphlib.nodeCount g)
  /\ (0 < GraphUtils.calculateNodeDepth g node <->
      ~ (node ∈ Graphlib.nodes g /\ GraphUtils.predecessorsOf g node = [])
      /\ exists entry,
           entry ∈ Graphlib.nodes g /\ GraphUtils.predecessorsOf g entry = []
           /\ reach g entry node)
  /\ (0 < GraphUtils.calculateNodeDepth g node ->
      exists entry p,
        entry ∈ Graphlib.nodes g /\ GraphUtils.predecessorsOf g entry = []
        /\ simplePath g entry node p
        /\ length p = S (GraphUtils.calculateNodeDepth g node)).
Proof.
  intros Hwf%wellFormed_wfGraph.
  assert (forall x, x ∈ filter (fun n => length (GraphUtils.predecessorsOf g n) = 0)
                          (Graphlib.nodes g) <->
            x ∈ Graphlib.nodes g /\ GraphUtils.predecessorsOf g x = []) as Hentries.
  { intros x. rewrite list_elem_of_filter, length_zero_iff_nil. tauto. }
  assert (0 < GraphUtils.calculateNodeDepth g node ->
          exists entry p,
            entry ∈ Graphlib.nodes g /\ GraphUtils.predecessorsOf g entry = []
            /\ simplePath g entry node p
            /\ length p = S (GraphUtils.calculateNodeDepth g node)) as Hpath.
  { unfold GraphUtils.calculateNodeDepth. case_decide; [lia|]. intros Hpos.
    destruct (depth_fold g node
                (filter (fun n => length (GraphUtils.predecessorsOf g n) = 0)
                   (Graphlib.nodes g)) 0)
      as [Heq|(entry & p & He & Hp & Heq)]; [lia|].
    destruct (findAllPaths_spec g entry node 1 Hwf) as (Hsound & _).
    apply Hentries in He as [He Hnone].
    exists entry, p. split_and!; [done|done|by apply Hsound|lia]. }
  assert (node ∈ Graphlib.nodes g \/ GraphUtils.calculateNodeDepth g node = 0)
    as Hnode.
  { destruct (GraphUtils.calculateNodeDepth g node) as [|d] eqn:Hd; [by right|].
    left. destruct Hpath as (entry & p & He & _ & Hp & _); [lia|].
    by eapply simplePath_end_node. }
  split_and!.
  - intros Hn Hp. unfold GraphUtils.calculateNodeDepth.
    rewrite decide_True; [done|]. by apply Hentries.
  - intros Hno. by destruct Hnode.
  - intros Hn.
    assert (0 < Graphlib.nodeCount g) as Hcount.
    { unfold Graphlib.nodeCount. rewrite <- (length_map fst).
      change (map fst (g_nodes g)) with (Graphlib.nodes g).
      destruct (Graphlib.nodes g); [by apply elem_of_nil in Hn|simpl; lia]. }
    destruct (GraphUtils.calculateNodeDepth g node) as [|d] eqn:Hd; [done|].
    destruct Hpath as (entry & p & He & _ & Hp & Hlen); [lia|].
    pose proof (simplePath_length g entry node p Hwf Hp He). lia.
  - split.
    + intros Hpos. split.
      * intros Hentry%Hentries. unfold GraphUtils.calculateNodeDepth in Hpos.
        rewrite decide_True in Hpos by done. lia.
      * destruct (Hpath Hpos) as (entry & p & He & Hnone & Hp & _).
        exists entry. split_and!; [done..|].
        destruct Hp as (Hhead & Hlast & _ & Hwalk). by eapply walk_reach.
    + intros [Hnot (entry & He & Hnone & Hreach)].
      apply reach_simplePath in Hreach as [p0 Hp0].
      destruct (findAllPaths_spec g entry node 1 Hwf) as (Hsound & _ & Hcompl).
      destruct (GraphUtils.findAllPaths g entry node 1) as [|p ps] eqn:Hpaths.
      { specialize (Hcompl ltac:(simpl; lia) He p0 Hp0).
        by apply elem_of_nil in Hcompl. }
      assert (simplePath g entry node p) as (Hhead & Hlast & _ & _).
      { apply Hsound. by left. }
      assert (entry <> node) as Hne by (intros ->; by apply Hnot).
      assert (2 <= length p) as Hlen.
      { destruct p as [|x [|y p]]; simpl in *; [done| |lia]. congruence. }
      unfold GraphUtils.calculateNodeDepth. rewrite decide_False by by rewrite Hentries.
      destruct (depth_fold_ge g node
                  (filter (fun n => length (GraphUtils.predecessorsOf g n) = 0)
                     (Graphlib.nodes g)) 0) as [_ Hlow].
      specialize (Hlow entry p ps ltac:(by apply Hentries) Hpaths). lia.
  - exact Hpath.
Qed.

(** In the graph of one import from [A] to [B], [B] has depth 1. *)
Lemma calculateNodeDepth_is_a_path_length_witness :
  let g := GraphUtils.buildGraph
             [ {| source := "A"; target := "B"; rtype := Import; imports := None;
                  weight := 1 |} ] in
  wellFormed g = true
  /\ GraphUtils.calculateNodeDepth g "B" = 1
  /\ GraphUtils.calculateNodeDepth g "B" < Graphlib.nodeCount g.
Proof.
  intros g. split; [reflexivity|]. split; [reflexivity|].
  apply (calculateNodeDepth_is_a_path_length g "B" eq_refl).
  vm_compute. right. left.
Defined.

(** ** [getTopologicalSort] and [calculateGraphStats] *)

Section OrderFacts.

Import Graphlib GraphUtils.

(** A completed [topsort] lists every node once, each after all its
    predecessors. *)
Lemma topsort_order g order :
  wfGraph g -> topsort g = Done order ->
  NoDup order
  /\ (forall x, x ∈ order <-> x ∈ nodes g)
  /\ (forall j x p, order !! j = Some x -> Edge g p x ->
        exists i, i < j /\ order !! i = Some p).
Proof.
  intros Hwf. unfold topsort.
  set (st0 := {| ts_visited := ∅; ts_stack := ∅; ts_results := [] |}).
  assert (visitResult g [] st0
            (forEach (visit g (S (nodeCount g))) (sinks g) st0) (sinks g)) as Hrun.
  { apply (forEach_visit_spec g _ (visit_spec g Hwf _)); [apply TInv_initial| |done|].
    - intros v Hv. by apply sinks_spec in Hv as [? _].
    - assert (tunvisited g st0 <= nodeCount g); [|lia].
      unfold tunvisited, nodeCount. rewrite <- (length_map fst (g_nodes g)).
      apply length_filter. }
  destruct (forEach (visit g (S (nodeCount g))) (sinks g) st0) as [st| |];
    [|done..].
  destruct Hrun as (HT & _ & _ & _).
  case_decide as Hcount; [|done]. intros [= <-].
  assert (forall x, x ∈ ts_visited st <-> x ∈ ts_results st) as Hvis.
  { intros x. rewrite (t_visited _ _ _ HT), elem_of_nil. tauto. }
  assert (size (list_to_set (nodes g) : gset string) = nodeCount g) as Hsize.
  { rewrite size_list_to_set by apply Hwf. unfold nodeCount, nodes.
    by rewrite length_map. }
  assert (ts_visited st = list_to_set (nodes g)) as Hall.
  { apply set_subseteq_size_eq; [|lia].
    intros x Hx. apply elem_of_list_to_set. by apply (t_nodes _ _ _ HT). }
  split_and!.
  - apply (t_nodup _ _ _ HT).
  - intros x. by rewrite <- Hvis, Hall, elem_of_list_to_set.
  - apply (t_topo _ _ _ HT).
Qed.

Lemma getTopologicalSort_spec g :
  wfGraph g ->
  match getTopologicalSort g with
  | Done None => exists z, tc (Edge g) z z
  | Done (Some order) =>
      order ≡ₚ nodes g
      /\ forall i j u v, order !! i = Some u -> order !! j = Some v ->
                         Edge g u v -> i < j
  | _ => False
  end.
Proof.
  intros Hwf. unfold getTopologicalSort, isDAG.
  pose proof (isAcyclic_spec g Hwf) as Hdag.
  pose proof (topsort_spec g Hwf) as Hspec.
  unfold isAcyclic in *.
  destruct (topsort g) as [order| |] eqn:Hsort; simpl; [| |done].
  - destruct (topsort_order g order Hwf Hsort) as (Hnd & Hall & Htopo).
    split.
    + apply NoDup_Permutation; [done|apply Hwf|done].
    + intros i j u v Hi Hj Huv.
      destruct (Htopo j v u Hj Huv) as (i' & Hlt & Hi').
      by rewrite (NoDup_lookup order i i' u Hnd Hi Hi').
  - done.
Qed.

Lemma sum_filter_key {A : Type} (key : A -> string) (l : list string) (E : list A) :
  NoDup l -> (forall e, e ∈ E -> key e ∈ l) ->
  sum_list_with (fun v => length (filter (fun e => key e = v) E)) l = length E.
Proof.
  intros Hnd Hin.
  assert (sum_list_with (fun v => length (filter (fun e => key e = v) E)) l
          = length (filter (fun e => key e ∈ l) E)) as ->.
  { clear Hin. induction Hnd as [|v l Hv Hnd IH].
    - simpl. induction E as [|e E IHE]; [done|].
      rewrite filter_cons, decide_False by apply not_elem_of_nil. done.
    - cbn [sum_list_with]. rewrite IH. clear IH.
      induction E as [|e E IHE]; [done|].
      rewrite !filter_cons.
      destruct (decide (key e = v)) as [He|He].
      + rewrite decide_False by (rewrite He; done).
        rewrite decide_True by (apply elem_of_cons; by left).
        simpl. lia.
      + destruct (decide (key e ∈ l)) as [Hl|Hl].
        * rewrite decide_True by (apply elem_of_cons; by right).
          simpl. lia.
        * rewrite decide_False; [done|].
          intros [?|?]%elem_of_cons; done. }
  f_equal. induction E as [|e E IHE]; [done|].
  rewrite filter_cons, decide_True by (apply Hin; left).
  f_equal. apply IHE. intros e' He'. apply Hin. by right.
Qed.

End OrderFacts.

Section StatsFacts.

Import Graphlib GraphUtils.

Variable g : Graph.

Lemma filter_none {A : Type} (P : A -> Prop) `{!forall x, Decision (P x)}
  (l : list A) : (forall x, x ∈ l -> ~ P x) -> filter P l = [].
Proof.
  induction l as [|x l IH]; intros Hno; [done|].
  rewrite filter_cons, decide_False by (apply Hno; left).
  apply IH. intros y Hy. apply Hno. by right.
Qed.

Definition tally0 : Tally := {| dependencies := ∅; maxDeps := 0; connected := [] |}.

Lemma tally_max (l : list string) :
  let t := fold_left (tally g) l tally0 in
  (forall v, v ∈ l -> totalConnections g v <= maxDeps t)
  /\ connected t = filter (fun v => totalConnections g v = maxDeps t) l
  /\ (l = [] -> maxDeps t = 0)
  /\ (l <> [] -> connected t <> []).
Proof.
  induction l as [|x l IH] using rev_ind.
  { simpl. split_and!; [by intros v ?%elem_of_nil|done..]. }
  rewrite fold_left_app. cbn [fold_left]. cbv zeta in IH.
  destruct IH as (Hle & Hconn & Hnil & Hcons).
  set (t := fold_left (tally g) l tally0) in *.
  unfold tally. case_decide as Hgt; [|case_decide as Heq]; simpl.
  - split_and!.
    + intros v [Hv| ->%list_elem_of_singleton]%elem_of_app; [|done].
      specialize (Hle v Hv). lia.
    + rewrite filter_app, filter_cons, decide_True by done.
      rewrite filter_none; [done|].
      intros v Hv. specialize (Hle v Hv). lia.
    + intros [_ ?]%app_eq_nil. done.
    + done.
  - split_and!.
    + intros v [Hv| ->%list_elem_of_singleton]%elem_of_app; [by apply Hle|lia].
    + rewrite filter_app, filter_cons, decide_True by done. by rewrite Hconn.
    + by intros [_ ?]%app_eq_nil.
    + intros _. by intros [_ ?]%app_eq_nil.
  - split_and!.
    + intros v [Hv| ->%list_elem_of_singleton]%elem_of_app; [by apply Hle|lia].
    + rewrite filter_app, filter_cons, decide_False by done.
      by rewrite app_nil_r.
    + by intros [_ ?]%app_eq_nil.
    + intros _. apply Hcons. intros ->. apply Hgt.
      rewrite Hnil by done.
      destruct (totalConnections g x) eqn:Hx; [|lia].
      exfalso. apply Heq. by rewrite Hnil.
Qed.

Lemma tally_sum (l : list string) :
  NoDup l ->
  let t := fold_left (tally g) l tally0 in
  map_fold (fun _ n sum => sum + n) 0 (dependencies t)
  = sum_list_with (totalConnections g) l
  /\ forall v, v ∉ l -> dependencies t !! v = None.
Proof.
  induction l as [|x l IH] using rev_ind; intros Hnd.
  - simpl. split; [apply map_fold_empty|]. intros v _. apply lookup_empty.
  - apply NoDup_app in Hnd as (Hnd & Hx & _).
    rewrite fold_left_app. cbn [fold_left]. cbv zeta in IH.
    destruct (IH Hnd) as [Hsum Hnone].
    set (t := fold_left (tally g) l tally0) in *.
    assert (dependencies (tally g t x)
            = <[x := totalConnections g x]> (dependencies t)) as ->.
    { unfold tally. by repeat case_decide. }
    split.
    + rewrite map_fold_insert_L.
      * rewrite Hsum, sum_list_with_app. simpl. lia.
      * intros. lia.
      * apply Hnone. intros Hin. apply (Hx x Hin). left.
    + intros v Hv. rewrite lookup_insert_ne.
      * apply Hnone. intros Hin. apply Hv, elem_of_app. by left.
      * intros ->. apply Hv, elem_of_app. right. left.
Qed.

Lemma totalConnections_sum :
  wfGraph g ->
  sum_list_with (totalConnections g) (nodes g) = 2 * length (edges g).
Proof.
  intros Hwf.
  assert (forall l, (forall v, v ∈ l -> v ∈ nodes g) ->
            sum_list_with (totalConnections g) l
            = sum_list_with (fun v => length (filter (fun e => e.1 = v) (edges g))) l
              + sum_list_with (fun v => length (filter (fun e => e.2 = v) (edges g))) l)
    as Hsplit.
  { induction l as [|v l IH]; intros Hin; [done|].
    cbn [sum_list_with]. rewrite IH by (intros w Hw; apply Hin; by right).
    assert (hasNode g v = true) as Hv by (apply hasNode_true, Hin; left).
    unfold totalConnections, successorsOf, predecessorsOf, successors, predecessors.
    rewrite Hv. simpl. rewrite !length_map. lia. }
  rewrite Hsplit by done.
  rewrite !sum_filter_key; [lia|apply Hwf| |apply Hwf|].
  - intros [v w] He. by apply Hwf in He as [_ ?].
  - intros [v w] He. by apply Hwf in He as [? _].
Qed.

End StatsFacts.

(** X8: on a graph with at least one node that satisfies graphlib's
    invariants, the [averageDependencies] of [calculateGraphStats] is the
    number of edges divided by the number of nodes: every edge is counted
    once at each end and the sum is halved. *)
Theorem average_dependencies_is_edges_per_node (g : Graph) :
  wellFormed g = true ->
  Graphlib.nodes g <> [] ->
  let stats := GraphUtils.calculateGraphStats g in
  GraphUtils.totalNodes stats = Graphlib.nodeCount g
  /\ GraphUtils.totalEdges stats = length (Graphlib.edges g)
  /\ (GraphUtils.averageDependencies stats
      == inject_Z (Z.of_nat (length (Graphlib.edges g)))
         / inject_Z (Z.of_nat (Graphlib.nodeCount g)))%Q.
Proof.
  intros Hwf%wellFormed_wfGraph Hne. unfold GraphUtils.calculateGraphStats.
  destruct (Graphlib.nodes g) as [|v l] eqn:Hnodes; [done|]. cbn zeta.
  rewrite <- Hnodes. cbn [GraphUtils.totalNodes GraphUtils.totalEdges GraphUtils.averageDependencies].
  assert (length (Graphlib.nodes g) = Graphlib.nodeCount g) as Hcount
    by apply length_map.
  rewrite Hcount. split_and!; [done..|].
  destruct (tally_sum g (Graphlib.nodes g)) as [Hsum _]; [apply Hwf|].
  unfold tally0 in Hsum. rewrite Hsum, totalConnections_sum by done.
  assert (0 < Graphlib.nodeCount g) as Hpos
    by (rewrite <- Hcount, Hnodes; simpl; lia).
  rewrite Nat2Z.inj_mul, inject_Z_mult. simpl (Z.of_nat 2).
  field. intros H0. apply (ofNat_zero_iff (Graphlib.nodeCount g)) in H0. lia.
Qed.

Lemma average_dependencies_is_edges_per_node_witness :
  wellFormed mutualGraph = true /\ Graphlib.nodes mutualGraph <> []
  /\ GraphUtils.totalNodes (GraphUtils.calculateGraphStats mutualGraph) = Graphlib.nodeCount mutualGraph.
Proof.
  split; [reflexivity|]. split; [discriminate|].
  exact (proj1 (average_dependencies_is_edges_per_node mutualGraph eq_refl
                  ltac:(discriminate))).
Defined.

(** X9: [maxDependencies] is the largest number of connections (successors
    plus predecessors) of any node, and [mostConnected] lists, in node
    order, exactly the nodes that have that many; it is empty only for the
    empty graph. *)
Theorem most_connected_are_the_nodes_of_maximal_degree (g : Graph) :
  let stats := GraphUtils.calculateGraphStats g in
  (forall v, v ∈ Graphlib.nodes g ->
     GraphUtils.totalConnections g v <= GraphUtils.maxDependencies stats)
  /\ GraphUtils.mostConnected stats
     = filter (fun v => GraphUtils.totalConnections g v = GraphUtils.maxDependencies stats)
         (Graphlib.nodes g)
  /\ (GraphUtils.mostConnected stats = [] <-> Graphlib.nodes g = []).
Proof.
  unfold GraphUtils.calculateGraphStats.
  destruct (Graphlib.nodes g) as [|v l] eqn:Hnodes; cbn zeta.
  - split_and!; [by intros v ?%elem_of_nil|done|done].
  - cbn [GraphUtils.maxDependencies GraphUtils.mostConnected].
    destruct (tally_max g (v :: l)) as (Hle & Hconn & _ & Hcons).
    split_and!; [done..|]. split; [|done]. intros Hnil. by apply Hcons in Hnil.
Qed.

(** X10: [getTopologicalSort] never throws: it returns [null] exactly when
    some node lies on a directed cycle (a self-import included), and
    otherwise an order that lists every node once and puts every file
    before the files it imports. *)
Theorem getTopologicalSort_orders_exactly_the_acyclic_graphs (g : Graph) :
  wellFormed g = true ->
  (exists r, GraphUtils.getTopologicalSort g = Graphlib.Done r)
  /\ (GraphUtils.getTopologicalSort g = Graphlib.Done None <-> exists z, tc (Edge g) z z)
  /\ (forall order,
        GraphUtils.getTopologicalSort g = Graphlib.Done (Some order) ->
        order ≡ₚ Graphlib.nodes g
        /\ forall i j u v, order !! i = Some u -> order !! j = Some v ->
                           Edge g u v -> i < j).
Proof.
  intros Hwf%wellFormed_wfGraph.
  pose proof (getTopologicalSort_spec g Hwf) as Hspec.
  destruct (GraphUtils.getTopologicalSort g) as [[order|]| |] eqn:Hsort; [| |done..].
  - split_and!; [by eexists| |by intros ? [= <-]].
    split; [done|]. intros Hcycle. exfalso.
    unfold GraphUtils.getTopologicalSort in Hsort.
    destruct (GraphUtils.isDAG g) eqn:Hdag; [|done].
    by apply (isAcyclic_spec g Hwf) in Hdag.
  - split_and!; [by eexists|done|done].
Qed.

Lemma getTopologicalSort_orders_exactly_the_acyclic_graphs_witness :
  wellFormed mutualGraph = true
  /\ exists r, GraphUtils.getTopologicalSort mutualGraph = Graphlib.Done r.
Proof.
  split; [reflexivity|].
  exact (proj1 (getTopologicalSort_orders_exactly_the_acyclic_graphs mutualGraph eq_refl)).
Defined.

(** X11: for a graph that [isDAG] accepts and that has at least one node,
    [calculateGraphStats] reports at least one entry point and at least one
    leaf node. *)
Theorem acyclic_graph_has_entry_points_and_leaves (g : Graph) :
  wellFormed g = true ->
  GraphUtils.isDAG g = true ->
  Graphlib.nodes g <> [] ->
  GraphUtils.entryPoints (GraphUtils.calculateGraphStats g) <> []
  /\ GraphUtils.leafNodes (GraphUtils.calculateGraphStats g) <> [].
Proof.
  intros Hwf%wellFormed_wfGraph Hdag Hne.
  unfold GraphUtils.isDAG, Graphlib.isAcyclic in Hdag.
  destruct (Graphlib.topsort g) as [order| |] eqn:Hsort; [|done..].
  destruct (topsort_order g order Hwf Hsort) as (Hnd & Hall & Htopo).
  unfold GraphUtils.calculateGraphStats.
  destruct (Graphlib.nodes g) as [|v0 l0] eqn:Hnodes; [done|]. cbn zeta.
  rewrite <- Hnodes in *. cbn [GraphUtils.entryPoints GraphUtils.leafNodes].
  assert (order <> []) as Hord.
  { intros ->. assert (v0 ∈ Graphlib.nodes g) as H0 by (rewrite Hnodes; left).
    apply Hall in H0. by apply elem_of_nil in H0. }
  split.
  - destruct order as [|x order]; [done|].
    assert (x ∈ filter (fun node => length (GraphUtils.predecessorsOf g node) = 0)
                  (Graphlib.nodes g)) as Hin.
    { apply list_elem_of_filter. split; [|apply Hall; left].
      destruct (GraphUtils.predecessorsOf g x) as [|p ps] eqn:Hp; [done|].
      exfalso. assert (Edge g p x) as He.
      { apply Edge_edges; [done|]. apply predecessors_edges; [done|].
        rewrite Hp. left. }
      destruct (Htopo 0 x p eq_refl He) as (i & Hi & _). lia. }
    intros Hnil. rewrite Hnil in Hin. by apply elem_of_nil in Hin.
  - destruct order as [|x order _] using rev_ind; [done|].
    assert (x ∈ filter (fun node => length (GraphUtils.successorsOf g node) = 0)
                  (Graphlib.nodes g)) as Hin.
    { apply list_elem_of_filter. split; [|apply Hall, elem_of_app; right; left].
      destruct (GraphUtils.successorsOf g x) as [|y ys] eqn:Hs; [done|].
      exfalso. assert (Edge g x y) as He by (unfold Edge; rewrite Hs; left).
      assert (y ∈ order ++ [x]) as Hy.
      { apply Hall. apply Edge_edges in He; [|done]. by apply Hwf in He as [_ ?]. }
      apply list_elem_of_lookup in Hy as [j Hj].
      destruct (Htopo j y x Hj He) as (i & Hi & Hix).
      assert ((order ++ [x]) !! length order = Some x) as Hlast.
      { rewrite lookup_app_r by lia. by rewrite Nat.sub_diag. }
      pose proof (NoDup_lookup _ _ _ _ Hnd Hix Hlast) as ->.
      apply lookup_lt_Some in Hj. rewrite length_app in Hj. simpl in Hj. lia. }
    intros Hnil. rewrite Hnil in Hin. by apply elem_of_nil in Hin.
Qed.

Lemma acyclic_graph_has_entry_points_and_leaves_witness :
  let g := GraphUtils.buildGraph
             [ {| source := "A"; target := "B"; rtype := Import; imports := None;
                  weight := 1 |} ] in
  GraphUtils.entryPoints (GraphUtils.calculateGraphStats g) <> []
  /\ GraphUtils.leafNodes (GraphUtils.calculateGraphStats g) <> [].
Proof.
  intros g.
  apply (acyclic_graph_has_entry_points_and_leaves g); [reflexivity|reflexivity|discriminate].
Defined.

Section SuggestionFacts.

Import Graphlib GraphUtils.

Variable g : Graph.
Variable cycle : list string.

(** The pair the loop of [generateCycleSuggestions] looks at in pass [i]. *)
Definition pairAt (i : nat) : string * string :=
  (default "" (cycle !! i), default "" (cycle !! ((i + 1) mod length cycle))).

Definition weightAt (i : nat) : nat := edgeWeight g (pairAt i).1 (pairAt i).2.

(** What the loop has found after [n] passes. *)
Definition Weakest (n : nat) (minWeight : option nat)
  (weakest : option (string * string)) : Prop :=
  (n = 0 /\ minWeight = None /\ weakest = None)
  \/ exists k, k < n
       /\ minWeight = Some (weightAt k) /\ weakest = Some (pairAt k)
       /\ (forall j, j < n -> weightAt k <= weightAt j)
       /\ (forall j, j < k -> weightAt k < weightAt j).

Lemma weakestFrom_spec (rest : list string) :
  forall pre minWeight weakest,
    cycle = pre ++ rest ->
    Weakest (length pre) minWeight weakest ->
    exists minWeight',
      Weakest (length cycle) minWeight'
        (weakestFrom g cycle (length pre) rest minWeight weakest).
Proof.
  induction rest as [|from rest IH]; intros pre minWeight weakest Hcycle HW.
  - exists minWeight. simpl. by rewrite Hcycle, app_nil_r.
  - cbn [weakestFrom].
    assert (cycle !! length pre = Some from) as Hfrom.
    { rewrite Hcycle, lookup_app_r by lia. by rewrite Nat.sub_diag. }
    assert (edgeWeight g from
              (default "" (cycle !! ((length pre + 1) mod length cycle)))
            = weightAt (length pre)) as Hw.
    { unfold weightAt, pairAt. simpl. by rewrite Hfrom. }
    assert ((from, default "" (cycle !! ((length pre + 1) mod length cycle)))
            = pairAt (length pre)) as Hp.
    { unfold pairAt. by rewrite Hfrom. }
    rewrite Hw, Hp.
    assert (cycle = (pre ++ [from]) ++ rest) as Hcycle'
      by by rewrite <- app_assoc.
    assert (S (length pre) = length (pre ++ [from])) as Hlen
      by (rewrite length_app; simpl; lia).
    rewrite Hlen.
    destruct HW as [(Hn & -> & ->)|(k & Hk & -> & -> & Hmin & Hfirst)].
    + apply IH; [done|]. right. exists (length pre). rewrite <- Hlen.
      split_and!; [lia|done|done| |].
      * intros j Hj. assert (j = length pre) as -> by lia. done.
      * intros j Hj. lia.
    + case_bool_decide as Hlt.
      * apply IH; [done|]. right. exists (length pre). rewrite <- Hlen.
        split_and!; [lia|done|done| |].
        -- intros j Hj. destruct (decide (j = length pre)) as [->|Hne]; [done|].
           specialize (Hmin j ltac:(lia)). lia.
        -- intros j Hj. specialize (Hmin j ltac:(lia)). lia.
      * apply IH; [done|]. right. exists k. rewrite <- Hlen.
        split_and!; [lia|done|done| |done].
        intros j Hj. destruct (decide (j = length pre)) as [->|Hne]; [lia|].
        apply Hmin. lia.
Qed.

End SuggestionFacts.

(** X12: for a non-empty cycle [generateCycleSuggestions] returns five
    suggestions; the first names a pair of cyclically consecutive entries
    of the cycle whose weight (1 when the graph has no such edge) is the
    smallest among all such pairs, and the first pair with that weight. *)
Theorem first_suggestion_names_the_first_lightest_link (g : Graph) (cycle : list string) :
  cycle <> [] ->
  exists i from to,
    cycle !! i = Some from
    /\ cycle !! ((i + 1) mod length cycle) = Some to
    /\ GraphUtils.generateCycleSuggestions cycle g
       = GraphUtils.weakestLinkText from to :: GraphUtils.generalSuggestions
    /\ forall j a b,
         cycle !! j = Some a -> cycle !! ((j + 1) mod length cycle) = Some b ->
         GraphUtils.edgeWeight g from to <= GraphUtils.edgeWeight g a b
         /\ (j < i -> GraphUtils.edgeWeight g from to < GraphUtils.edgeWeight g a b).
Proof.
  intros Hne.
  assert (0 < length cycle) as Hpos by (destruct cycle; [done|simpl; lia]).
  destruct (weakestFrom_spec g cycle cycle [] None None) as (m & HW);
    [done|by left|].
  destruct HW as [(Hn & _)|(k & Hk & _ & Hweak & Hmin & Hfirst)]; [simpl in *; lia|].
  simpl in Hweak.
  destruct (lookup_lt_is_Some_2 cycle k Hk) as [from Hfrom].
  destruct (lookup_lt_is_Some_2 cycle ((k + 1) mod length cycle)) as [to Hto].
  { apply Nat.mod_upper_bound. lia. }
  assert (pairAt cycle k = (from, to)) as Hpair
    by (unfold pairAt; by rewrite Hfrom, Hto).
  exists k, from, to. split_and!; [done..| |].
  - unfold GraphUtils.generateCycleSuggestions, GraphUtils.weakestEdge. by rewrite Hweak, Hpair.
  - intros j a b Ha Hb.
    assert (j < length cycle) as Hj by by eapply lookup_lt_Some.
    assert (pairAt cycle j = (a, b)) as Hpj
      by (unfold pairAt; by rewrite Ha, Hb).
    specialize (Hmin j Hj). specialize (Hfirst j).
    unfold weightAt in *. rewrite Hpair, Hpj in *. simpl in *. split; [done|auto].
Qed.

Lemma first_suggestion_names_the_first_lightest_link_witness :
  exists i from to,
    ["A"; "B"] !! i = Some from
    /\ ["A"; "B"] !! ((i + 1) mod 2) = Some to
    /\ GraphUtils.generateCycleSuggestions ["A"; "B"] mutualGraph
       = GraphUtils.weakestLinkText from to :: GraphUtils.generalSuggestions
    /\ forall j a b,
         ["A"; "B"] !! j = Some a -> ["A"; "B"] !! ((j + 1) mod 2) = Some b ->
         GraphUtils.edgeWeight mutualGraph from to <= GraphUtils.edgeWeight mutualGraph a b
         /\ (j < i -> GraphUtils.edgeWeight mutualGraph from to < GraphUtils.edgeWeight mutualGraph a b).
Proof.
  apply (first_suggestion_names_the_first_lightest_link mutualGraph ["A"; "B"]).
  discriminate.
Defined.

(** ** The double nearest to a quotient *)

Section NumberFacts.

Import JsNumber.

Lemma roundHalfEven_error (q : Q) :
  (Qabs (inject_Z (roundHalfEven q) - q) <= 1 # 2)%Q.
Proof.
  unfold roundHalfEven.
  pose proof (Qfloor_le q) as Hlo. pose proof (Qlt_floor q) as Hhi.
  rewrite inject_Z_plus in Hhi. change (inject_Z 1) with 1%Q in Hhi.
  apply Qabs_Qle_condition.
  destruct (q - inject_Z (Qfloor q) ?= 1 # 2)%Q eqn:Hc.
  - apply Qeq_alt in Hc.
    destruct (Z.even (Qfloor q)); rewrite ?inject_Z_plus;
      change (inject_Z 1) with 1%Q; split; Lqa.lra.
  - apply Qlt_alt in Hc. split; Lqa.lra.
  - apply Qgt_alt in Hc. rewrite inject_Z_plus. change (inject_Z 1) with 1%Q.
    split; Lqa.lra.
Qed.

Lemma two_power_pos (z : Z) : (0 < 2 ^ z)%Q.
Proof. apply Qpower_0_lt. reflexivity. Qed.

Lemma two_power_succ (z : Z) : (2 ^ (z + 1) == 2 * 2 ^ z)%Q.
Proof. rewrite Qpower_plus by discriminate. change (2 ^ 1)%Q with 2%Q. ring. Qed.

Lemma two_power_inject (n : Z) : (0 <= n)%Z -> (inject_Z (2 ^ n) == 2 ^ n)%Q.
Proof. intros Hn. by rewrite Zpower_Qpower. Qed.

Lemma two_power_minus (a b : Z) : (2 ^ (a - b) == 2 ^ a / 2 ^ b)%Q.
Proof.
  unfold Z.sub. rewrite Qpower_plus by discriminate. by rewrite Qpower_opp.
Qed.

Lemma ratio_bracket (A B x y : Q) :
  (0 < x -> 0 < y -> x <= A -> A < 2 * x -> y <= B -> B < 2 * y ->
   x / (2 * y) <= A / B /\ A / B < 2 * (x / y))%Q.
Proof.
  intros Hx Hy HxA HAx HyB HBy.
  assert (0 < B)%Q as HB by Lqa.lra.
  assert (~ y == 0)%Q as Hy0 by (intros E; rewrite E in Hy; by apply Qlt_irrefl in Hy).
  assert (~ B == 0)%Q as HB0 by (intros E; rewrite E in HB; by apply Qlt_irrefl in HB).
  split.
  - apply Qle_shift_div_l; [done|].
    assert (x / (2 * y) * B == x * B / (2 * y))%Q as -> by (by field).
    apply Qle_shift_div_r; [Lqa.lra|]. Lqa.nra.
  - apply Qlt_shift_div_r; [done|].
    assert (2 * (x / y) * B == 2 * x * B / y)%Q as -> by (by field).
    apply Qlt_shift_div_l; [done|]. Lqa.nra.
Qed.

Lemma exponentOf_spec (q : Q) :
  (0 < q)%Q -> (2 ^ exponentOf q <= q < 2 ^ (exponentOf q + 1))%Q.
Proof.
  intros Hq. unfold exponentOf.
  destruct q as [a b]. unfold Qlt in Hq. simpl in Hq.
  assert (0 < a)%Z as Ha by lia.
  cbn [Qnum Qden]. set (la := Z.log2 a). set (lb := Z.log2 (Z.pos b)).
  destruct (Z.log2_spec a Ha) as [Ha1 Ha2].
  destruct (Z.log2_spec (Z.pos b) eq_refl) as [Hb1 Hb2].
  fold la in Ha1, Ha2. fold lb in Hb1, Hb2.
  assert (0 <= la)%Z as Hla by apply Z.log2_nonneg.
  assert (0 <= lb)%Z as Hlb by apply Z.log2_nonneg.
  assert (a # b == inject_Z a / inject_Z (Z.pos b))%Q as Hab by apply Qmake_Qdiv.
  assert (2 ^ la <= inject_Z a)%Q as Qa1.
  { rewrite <- two_power_inject by done. by rewrite <- Zle_Qle. }
  assert (inject_Z a < 2 ^ (la + 1))%Q as Qa2.
  { rewrite <- two_power_inject by lia. by rewrite <- Zlt_Qlt. }
  assert (2 ^ lb <= inject_Z (Z.pos b))%Q as Qb1.
  { rewrite <- two_power_inject by done. by rewrite <- Zle_Qle. }
  assert (inject_Z (Z.pos b) < 2 ^ (lb + 1))%Q as Qb2.
  { rewrite <- two_power_inject by lia. by rewrite <- Zlt_Qlt. }
  rewrite two_power_succ in Qa2, Qb2.
  destruct (ratio_bracket _ _ _ _ (two_power_pos la) (two_power_pos lb)
              Qa1 Qa2 Qb1 Qb2) as [Hlow Hhigh].
  rewrite <- Hab in Hlow, Hhigh.
  destruct (Qle_bool (2 ^ (la - lb)) (a # b)) eqn:Htest.
  - apply Qle_bool_iff in Htest. split; [exact Htest|].
    by rewrite two_power_succ, two_power_minus.
  - assert (~ (2 ^ (la - lb) <= a # b)%Q) as Hno.
    { intros H%Qle_bool_iff. congruence. }
    apply Qnot_le_lt in Hno.
    replace (la - lb - 1 + 1)%Z with (la - lb)%Z by lia. split; [|exact Hno].
    replace (la - lb - 1)%Z with (la - (lb + 1))%Z by lia.
    by rewrite two_power_minus, two_power_succ.
Qed.

Lemma nearestDouble_error (q : Q) :
  (0 < q)%Q -> (Qabs (nearestDouble q - q) <= q * (1 # 2 ^ 53))%Q.
Proof.
  intros Hq. unfold nearestDouble.
  destruct (exponentOf_spec q Hq) as [Hlow _].
  set (L := exponentOf q) in *. set (e := (L - 52)%Z).
  pose proof (two_power_pos e) as He.
  pose proof (roundHalfEven_error (q / 2 ^ e)) as Herr.
  set (m := inject_Z (roundHalfEven (q / 2 ^ e))) in *.
  assert (~ 2 ^ e == 0)%Q as He0 by (intros E; rewrite E in He; by apply Qlt_irrefl in He).
  assert (m * 2 ^ e - q == (m - q / 2 ^ e) * 2 ^ e)%Q as -> by (by field).
  rewrite Qabs_Qmult, (Qabs_pos (2 ^ e)) by by apply Qlt_le_weak.
  apply Qle_trans with ((1 # 2) * 2 ^ e)%Q.
  - apply Qmult_le_compat_r; [done|by apply Qlt_le_weak].
  - assert (2 ^ L == 2 ^ e * 2 ^ 52)%Q as HL.
    { subst e. rewrite <- Qpower_plus by discriminate. by replace (L - 52 + 52)%Z with L by lia. }
    rewrite HL in Hlow. change (2 ^ 52)%Q with (inject_Z (2 ^ 52)) in Hlow.
    change (1 # 2 ^ 53)%Q with (/ inject_Z (2 ^ 53))%Q. 
    assert (inject_Z (2 ^ 53) == 2 * inject_Z (2 ^ 52))%Q as H53 by reflexivity.
    assert (0 < inject_Z (2 ^ 52))%Q as H52 by reflexivity.
    apply Qle_shift_div_l; [reflexivity|]. rewrite H53. Lqa.nra.
Qed.

Lemma nearestDouble_significand (q : Q) :
  (0 < q)%Q ->
  exists m : Z,
    (nearestDouble q == inject_Z m * 2 ^ (exponentOf q - 52))%Q
    /\ (2 ^ 52 <= m <= 2 ^ 53)%Z.
Proof.
  intros Hq. exists (roundHalfEven (q / 2 ^ (exponentOf q - 52))).
  split; [reflexivity|].
  destruct (exponentOf_spec q Hq) as [Hlow Hhigh].
  set (L := exponentOf q) in *. set (e := (L - 52)%Z).
  pose proof (two_power_pos e) as He.
  assert (2 ^ L == 2 ^ e * 2 ^ 52)%Q as HL.
  { subst e. rewrite <- Qpower_plus by discriminate. by replace (L - 52 + 52)%Z with L by lia. }
  rewrite two_power_succ, HL in Hhigh. rewrite HL in Hlow.
  set (x := (q / 2 ^ e)%Q).
  assert (inject_Z (2 ^ 52) <= x)%Q as Hx1.
  { apply Qle_shift_div_l; [done|]. change (inject_Z (2 ^ 52)) with (2 ^ 52)%Q.
    by rewrite Qmult_comm. }
  assert (x < inject_Z (2 ^ 53))%Q as Hx2.
  { apply Qlt_shift_div_r; [done|].
    assert (inject_Z (2 ^ 53) * 2 ^ e == 2 * (2 ^ e * 2 ^ 52))%Q as ->; [|done].
    change (inject_Z (2 ^ 53)) with (2 * 2 ^ 52)%Q. ring. }
  pose proof (Qfloor_le x) as Hf1. pose proof (Qlt_floor x) as Hf2.
  assert (2 ^ 52 <= Qfloor x)%Z as Hfl.
  { apply Qfloor_resp_le in Hx1. by rewrite Qfloor_Z in Hx1. }
  assert (Qfloor x < 2 ^ 53)%Z as Hfu.
  { rewrite Zlt_Qlt. by apply Qle_lt_trans with x. }
  unfold roundHalfEven. fold x.
  destruct (x - inject_Z (Qfloor x) ?= 1 # 2)%Q; [destruct (Z.even _)|..]; lia.
Qed.

Lemma toDouble_error (q : Q) :
  (0 <= q)%Q -> (Qabs (toDouble q - q) <= q * (1 # 2 ^ 53))%Q.
Proof.
  intros Hq. unfold toDouble. destruct (q ?= 0)%Q eqn:Hc.
  - apply Qeq_alt in Hc. rewrite Hc. by vm_compute.
  - apply Qlt_alt in Hc. exfalso. by apply (Qlt_irrefl 0), Qle_lt_trans with q.
  - apply Qgt_alt in Hc. by apply nearestDouble_error.
Qed.

End NumberFacts.

(** 29 / 7 as a double is 4.142857142857143. *)
Example toDouble_29_7 :
  Qred (JsNumber.toDouble (29 # 7)) = (4664442471205157 # 1125899906842624)%Q.
Proof. by vm_compute. Qed.

(** ** The complexity report *)

Section ReportFacts.

Import ComplexityReport.

Lemma geq_spec n x : geq n x = true <-> (x <= inject_Z (Z.of_nat n))%Q.
Proof. unfold geq. apply Qle_bool_iff. Qed.

Lemma below_spec n x : below n x = true <-> (inject_Z (Z.of_nat n) < x)%Q.
Proof.
  unfold below. rewrite negb_true_iff, <- not_true_iff_false, geq_spec.
  split; [apply Qnot_le_lt|apply Qlt_not_le].
Qed.

Lemma count_nonneg n : (0 <= inject_Z (Z.of_nat n))%Q.
Proof. change 0%Q with (inject_Z 0). rewrite <- Zle_Qle. lia. Qed.

(** Every complexity falls in exactly one band of the summary. *)
Lemma band_unique (c : nat) (t : Q) :
  (if below c t then 1 else 0)
  + (if geq c t && below c (t * 2) then 1 else 0)
  + (if geq c (t * 2) && below c (t * 4) then 1 else 0)
  + (if geq c (t * 4) then 1 else 0) = 1.
Proof.
  pose proof (count_nonneg c) as Hc.
  unfold below.
  destruct (geq c t) eqn:H1, (geq c (t * 2)) eqn:H2, (geq c (t * 4)) eqn:H4;
    simpl; try done; exfalso;
    repeat match goal with
    | H : geq _ _ = true |- _ => apply geq_spec in H
    | H : geq _ _ = false |- _ =>
        apply not_true_iff_false in H; rewrite geq_spec in H;
        apply Qnot_le_lt in H
    end; Lqa.lra.
Qed.

Lemma length_filter_count {A : Type} (p : A -> bool) (l : list A) :
  length (filter (fun x => p x = true) l)
  = sum_list_with (fun x => if p x then 1 else 0) l.
Proof.
  induction l as [|x l IH]; [done|].
  rewrite filter_cons. cbn [sum_list_with]. rewrite <- IH.
  destruct (p x); [by rewrite decide_True|by rewrite decide_False].
Qed.

Lemma insertDescending_perm {A : Type} (key : A -> nat) x (l : list A) :
  insertDescending key x l ≡ₚ x :: l.
Proof.
  induction l as [|y l IH]; [done|]. simpl. case_decide; [done|].
  rewrite IH. apply Permutation_swap.
Qed.

Lemma sortDescending_perm {A : Type} (key : A -> nat) (l : list A) :
  sortDescending key l ≡ₚ l.
Proof.
  induction l as [|x l IH]; [done|]. simpl.
  by rewrite insertDescending_perm, IH.
Qed.

Lemma insertDescending_sorted {A : Type} (key : A -> nat) x (l : list A) :
  StronglySorted (fun a b => key b <= key a) l ->
  StronglySorted (fun a b => key b <= key a) (insertDescending key x l).
Proof.
  induction 1 as [|y l Hs IH Hall]; simpl.
  - repeat constructor.
  - case_decide as Hle.
    + constructor; [by constructor|]. constructor; [done|].
      eapply Forall_impl; [exact Hall|]. simpl. intros z Hz. lia.
    + constructor; [done|]. rewrite insertDescending_perm.
      constructor; [lia|done].
Qed.

Lemma sortDescending_sorted {A : Type} (key : A -> nat) (l : list A) :
  StronglySorted (fun a b => key b <= key a) (sortDescending key l).
Proof.
  induction l as [|x l IH]; [constructor|]. simpl.
  by apply insertDescending_sorted.
Qed.

(** Entries with equal keys keep their order. *)
Lemma insertDescending_filter {A : Type} (key : A -> nat) k x (l : list A) :
  filter (fun a => key a = k) (insertDescending key x l)
  = filter (fun a => key a = k) (x :: l).
Proof.
  induction l as [|y l IH]; [done|]. simpl. case_decide as Hle; [done|].
  rewrite filter_cons, IH, !filter_cons.
  destruct (decide (key y = k)), (decide (key x = k)); try done. lia.
Qed.

Lemma sortDescending_stable {A : Type} (key : A -> nat) k (l : list A) :
  filter (fun a => key a = k) (sortDescending key l)
  = filter (fun a => key a = k) l.
Proof.
  induction l as [|x l IH]; [done|]. simpl.
  by rewrite insertDescending_filter, !filter_cons, IH.
Qed.

Lemma fold_sum {A : Type} (f : A -> nat) (l : list A) (n : nat) :
  fold_left (fun sum x => sum + f x) l n = n + sum_list_with f l.
Proof.
  revert n. induction l as [|x l IH]; intros n; simpl; [lia|].
  rewrite IH. lia.
Qed.

Lemma fileHotspots_nil t file :
  fileHotspots t file = [] <->
  below (cyclomaticComplexity file) (t * 2) = true
  /\ (forall func, func ∈ functionsComplexity file ->
        below (fcomplexity func) t = true)
  /\ (20 <= maintainabilityIndex file)%Z.
Proof.
  unfold fileHotspots, below.
  destruct (geq (cyclomaticComplexity file) (t * 2)) eqn:Hfile; simpl.
  { split; [done|]. by intros (? & _). }
  destruct (maintainabilityIndex file <? 20)%Z eqn:Hmi.
  { apply Z.ltb_lt in Hmi. split.
    - by intros [_ ?]%app_eq_nil.
    - intros (_ & _ & ?). lia. }
  apply Z.ltb_ge in Hmi. rewrite app_nil_r. split.
  - intros Hnil. split_and!; [done| |done].
    intros func Hin. destruct (geq (fcomplexity func) t) eqn:Hf; [|done].
    exfalso. induction (functionsComplexity file) as [|f fs IH];
      [by apply elem_of_nil in Hin|].
    simpl in Hnil. apply app_eq_nil in Hnil as [Hhead Htail].
    apply elem_of_cons in Hin as [->|Hin]; [by rewrite Hf in Hhead|auto].
  - intros (_ & Hall & _).
    induction (functionsComplexity file) as [|f fs IH]; [done|].
    simpl. rewrite IH by (intros func Hin; apply Hall; by right).
    specialize (Hall f ltac:(left)). apply negb_true_iff in Hall.
    by rewrite Hall.
Qed.

End ReportFacts.

(** X13: the four bands of the summary of [analyzeComplexity] count every
    analysed file exactly once, whatever the threshold is. *)
Theorem complexity_summary_counts_every_file_once
  (calculatePyFileComplexity calculateTsFileComplexity :
     string -> option ComplexityReport.FileComplexity)
  (filePaths : list string) (language : Language) (threshold : Q) :
  let out := ComplexityReport.analyzeComplexity calculatePyFileComplexity
               calculateTsFileComplexity filePaths language threshold in
  ComplexityReport.lowComplexity (ComplexityReport.summary out)
  + ComplexityReport.mediumComplexity (ComplexityReport.summary out)
  + ComplexityReport.highComplexity (ComplexityReport.summary out)
  + ComplexityReport.veryHighComplexity (ComplexityReport.summary out)
  = ComplexityReport.totalFiles out.
Proof.
  unfold ComplexityReport.analyzeComplexity.
  destruct filePaths as [|p ps]; [done|]. cbn zeta.
  generalize (omap
    (fun filePath =>
       if decide (language = python) then calculatePyFileComplexity filePath
       else calculateTsFileComplexity filePath) (p :: ps)).
  intros files. simpl.
  rewrite
    (length_filter_count
       (fun f => ComplexityReport.below
                   (ComplexityReport.cyclomaticComplexity f) threshold)),
    (length_filter_count
       (fun f => ComplexityReport.geq
                   (ComplexityReport.cyclomaticComplexity f) threshold
                 && ComplexityReport.below
                      (ComplexityReport.cyclomaticComplexity f) (threshold * 2))),
    (length_filter_count
       (fun f => ComplexityReport.geq
                   (ComplexityReport.cyclomaticComplexity f) (threshold * 2)
                 && ComplexityReport.below
                      (ComplexityReport.cyclomaticComplexity f) (threshold * 4))),
    (length_filter_count
       (fun f => ComplexityReport.geq
                   (ComplexityReport.cyclomaticComplexity f) (threshold * 4))).
  induction files as [|f files IH]; [done|]. simpl.
  pose proof (band_unique (ComplexityReport.cyclomaticComplexity f) threshold).
  lia.
Qed.


(** X15: [identifyHotspots] lists critical hotspots first, then high, medium
    and low ones, and it reports nothing exactly when no file reaches twice
    the threshold, no function reaches the threshold and every
    maintainability index is at least 20. *)
Theorem hotspots_sorted_and_empty_only_below_thresholds
  (files : list ComplexityReport.FileComplexity) (threshold : Q) :
  StronglySorted
    (fun a b =>
       GraphUtils.severityOrder (ComplexityReport.priority a)
       <= GraphUtils.severityOrder (ComplexityReport.priority b))
    (ComplexityReport.identifyHotspots files threshold)
  /\ (ComplexityReport.identifyHotspots files threshold = [] <->
      forall file, file ∈ files ->
        (inject_Z (Z.of_nat (ComplexityReport.cyclomaticComplexity file))
         < threshold * 2)%Q
        /\ (forall func, func ∈ ComplexityReport.functionsComplexity file ->
              (inject_Z (Z.of_nat (ComplexityReport.fcomplexity func))
               < threshold)%Q)
        /\ (20 <= ComplexityReport.maintainabilityIndex file)%Z).
Proof.
  unfold ComplexityReport.identifyHotspots. split; [apply sortByKey_sorted|].
  set (all := flat_map (ComplexityReport.fileHotspots threshold) files).
  assert (GraphUtils.sortByKey
            (fun h => GraphUtils.severityOrder (ComplexityReport.priority h)) all = []
          <-> all = []) as ->.
  { split; [|by intros ->].
    intros Hnil. apply Permutation_nil_r. rewrite <- Hnil.
    symmetry. apply sortByKey_perm. }
  subst all. induction files as [|f files IH].
  - split; [|done]. intros _ file Hin. by apply elem_of_nil in Hin.
  - simpl. split.
    + intros [Hf Hrest]%app_eq_nil file [->|Hin]%elem_of_cons.
      * apply fileHotspots_nil in Hf as (H1 & H2 & H3).
        split_and!; [by apply below_spec| |done].
        intros func Hin. by apply below_spec, H2.
      * by apply IH.
    + intros Hall.
      assert (ComplexityReport.fileHotspots threshold f = []) as ->.
      { destruct (Hall f ltac:(left)) as (H1 & H2 & H3).
        apply fileHotspots_nil. split_and!; [by apply below_spec| |done].
        intros func Hin. by apply below_spec, H2. }
      simpl. apply IH. intros file Hin. apply Hall. by right.
Qed.

(** ** The TypeScript and Python classifiers *)

Section SplitFacts.

Fixpoint hasChar (c : ascii) (s : string) : bool :=
  match s with
  | EmptyString => false
  | String c' s' => Ascii.eqb c' c || hasChar c s'
  end.

Lemma append_cons (c : ascii) (a b : string) :
  String c a +:+ b = String c (a +:+ b).
Proof. reflexivity. Qed.

Lemma append_nil_l (b : string) : "" +:+ b = b.
Proof. reflexivity. Qed.

Lemma append_assoc (a b c : string) : (a +:+ b) +:+ c = a +:+ (b +:+ c).
Proof.
  induction a as [|x a IH]; [done|]. by rewrite !append_cons, IH.
Qed.

Lemma append_nil_r (a : string) : a +:+ "" = a.
Proof. induction a as [|x a IH]; [done|]. by rewrite append_cons, IH. Qed.

Lemma split_on_cur sep cur s :
  Path.split_on sep cur s =
  match Path.split_on sep "" s with
  | a :: tl => (cur +:+ a) :: tl
  | [] => []
  end.
Proof.
  revert cur. induction s as [|c s IH]; intros cur; simpl.
  - by rewrite append_nil_r.
  - destruct (Ascii.eqb c sep); [by rewrite append_nil_r|].
    rewrite IH, (IH ("" +:+ String c "")).
    destruct (Path.split_on sep "" s); [done|].
    by rewrite append_assoc, append_nil_l.
Qed.

(** [s.split(sep)]: the part before the first separator, then the parts of
    the rest. *)
Lemma split_first sep s :
  (hasChar sep s = false /\ Path.split sep s = [s])
  \/ exists a s', hasChar sep a = false /\ s = a +:+ String sep s'
                  /\ Path.split sep s = a :: Path.split sep s'.
Proof.
  unfold Path.split. induction s as [|c s IH]; [by left|]. simpl.
  destruct (Ascii.eqb c sep) eqn:Hc.
  - right. exists "", s. apply Ascii.eqb_eq in Hc. by subst.
  - rewrite split_on_cur. destruct IH as [[Hno ->]|(a & s' & Hno & -> & ->)].
    + left. split; [done|reflexivity].
    + right. exists (String c a), s'.
      split_and!; [simpl; by rewrite Hc|reflexivity|reflexivity].
Qed.

Lemma split_no_sep sep s : hasChar sep s = false -> Path.split sep s = [s].
Proof.
  intros Hno. destruct (split_first sep s) as [[_ ?]|(a & s' & _ & -> & _)]; [done|].
  exfalso. induction a as [|c a IH].
  - rewrite append_nil_l in Hno. simpl in Hno.
    by rewrite Ascii.eqb_refl in Hno.
  - rewrite append_cons in Hno. simpl in Hno.
    apply orb_false_iff in Hno as [_ ?]. auto.
Qed.

Lemma split_app_sep sep a s' :
  hasChar sep a = false ->
  Path.split sep (a +:+ String sep s') = a :: Path.split sep s'.
Proof.
  intros Hno. unfold Path.split. induction a as [|c a IH].
  - rewrite append_nil_l. simpl. by rewrite Ascii.eqb_refl.
  - simpl in Hno. apply orb_false_iff in Hno as [Hc Hno].
    rewrite append_cons. simpl.
    rewrite Hc, split_on_cur, (IH Hno). done.
Qed.

End SplitFacts.

Section TypeScriptFacts.

Import JsString TypeScriptParser.

Lemma startsWith_append (a b : string) : startsWith a (a +:+ b) = true.
Proof.
  induction a as [|c a IH]; [done|].
  rewrite append_cons. simpl. by rewrite Ascii.eqb_refl.
Qed.

Lemma startsWith_at_append (a b : string) :
  a <> "" -> startsWith "@" (a +:+ b) = startsWith "@" a.
Proof.
  destruct a as [|c a]; [done|]. intros _.
  rewrite append_cons. simpl. by destruct (Ascii.eqb "@" c).
Qed.

Lemma getPackageName_cases importPath :
  (exists a b rest,
     hasChar Path.slash a = false /\ hasChar Path.slash b = false
     /\ startsWith "@" a = true
     /\ importPath = a +:+ "/" +:+ b +:+ rest
     /\ getPackageName importPath = a +:+ "/" +:+ b)
  \/ (exists a rest,
        hasChar Path.slash a = false
        /\ importPath = a +:+ rest
        /\ getPackageName importPath = a).
Proof.
  unfold getPackageName.
  destruct (split_first Path.slash importPath)
    as [[Hno Hsplit]|(a & s' & Hno & Hp & Hsplit)].
  - right. exists importPath, "". rewrite append_nil_r, Hsplit.
    cbn [length lookup list_lookup default].
    rewrite bool_decide_eq_false_2 by lia. by rewrite andb_false_r.
  - rewrite Hsplit. cbn [lookup list_lookup default].
    destruct (startsWith "@" importPath) eqn:Hat; cbn [andb].
    + assert (a <> "") as Ha.
      { intros ->. subst importPath. done. }
      assert (startsWith "@" a = true) as Hata.
      { subst importPath. by rewrite startsWith_at_append in Hat. }
      destruct (split_first Path.slash s')
        as [[Hnob Hsb]|(b & s'' & Hnob & Hs' & Hsb)]; rewrite Hsb;
        cbn [length lookup list_lookup default];
        rewrite bool_decide_eq_true_2 by lia.
      * left. exists a, s', "". rewrite append_nil_r. by split_and!.
      * left. exists a, b, (String Path.slash s''). split_and!; try done.
        by subst.
    + right. exists a, (String Path.slash s'). done.
Qed.

Lemma getPackageName_idempotent importPath :
  getPackageName (getPackageName importPath) = getPackageName importPath.
Proof.
  destruct (getPackageName_cases importPath)
    as [(a & b & rest & Ha & Hb & Hat & _ & ->)|(a & rest & Ha & _ & ->)].
  - unfold getPackageName.
    change (a +:+ "/" +:+ b) with (a +:+ String Path.slash b).
    rewrite split_app_sep, (split_no_sep _ b) by done.
    cbn [length lookup list_lookup default].
    assert (a <> "") as Hne by (by intros ->).
    rewrite startsWith_at_append, Hat by done.
    by rewrite bool_decide_eq_true_2 by lia.
  - unfold getPackageName. rewrite split_no_sep by done.
    cbn [length lookup list_lookup default].
    rewrite bool_decide_eq_false_2 by lia. by rewrite andb_false_r.
Qed.

Lemma probe_some existsSync resolvedPath exts q :
  probe existsSync resolvedPath exts = Some q -> existsSync q = true.
Proof.
  induction exts as [|ext exts IH]; [done|]. simpl.
  destruct (existsSync (resolvedPath +:+ ext)) eqn:H1; [by intros [= <-]|].
  destruct (existsSync (Path.join resolvedPath ("index" +:+ ext))) eqn:H2;
    [by intros [= <-]|done].
Qed.

Lemma probe_none existsSync resolvedPath exts :
  probe existsSync resolvedPath exts = None ->
  forall ext, ext ∈ exts ->
    existsSync (resolvedPath +:+ ext) = false
    /\ existsSync (Path.join resolvedPath ("index" +:+ ext)) = false.
Proof.
  induction exts as [|ext exts IH]; [by intros _ ? ?%elem_of_nil|]. simpl.
  destruct (existsSync (resolvedPath +:+ ext)) eqn:H1; [done|].
  destruct (existsSync (Path.join resolvedPath ("index" +:+ ext))) eqn:H2; [done|].
  intros Hnone ext' [->|Hin]%elem_of_cons; [done|auto].
Qed.

End TypeScriptFacts.

(** X16: [getPackageName] returns a prefix of the import path, and applying
    it to its own result changes nothing: the package name of [lodash/fp]
    is [lodash], that of [@scope/pkg/sub] is [@scope/pkg]. *)
Theorem getPackageName_is_an_idempotent_prefix (importPath : string) :
  JsString.startsWith (TypeScriptParser.getPackageName importPath)
    importPath = true
  /\ TypeScriptParser.getPackageName (TypeScriptParser.getPackageName importPath)
     = TypeScriptParser.getPackageName importPath
  /\ TypeScriptParser.getPackageName "lodash/fp" = "lodash"
  /\ TypeScriptParser.getPackageName "@scope/pkg/sub" = "@scope/pkg".
Proof.
  split_and!; [|apply getPackageName_idempotent|done|done].
  destruct (getPackageName_cases importPath)
    as [(a & b & rest & _ & _ & _ & Hp & ->)|(a & rest & _ & Hp & ->)].
  - rewrite Hp. rewrite <- !append_assoc. apply startsWith_append.
  - rewrite Hp. apply startsWith_append.
Qed.

Local Ltac relative_case existsSync cwd importPath fromFile :=
  cbv zeta;
  set (resolved := TypeScriptParser.resolveFrom cwd (Path.dirname fromFile) importPath);
  set (esm := JsString.endsWith ".js" resolved && negb (existsSync resolved));
  destruct esm eqn:Hesm; cbn [andb];
  repeat match goal with
  | |- context [if existsSync ?p then _ else _] =>
      let H := fresh "He" in destruct (existsSync p) eqn:H
  end;
  cbn [dfrom dto dtype packageName importStatements];
  split_and!;
  first
    [ done
    | by (split; auto)
    | by (intros _ Hno; congruence)
    | intros _;
      match goal with
      | |- context [TypeScriptParser.probe existsSync ?base ?exts] =>
          let Hprobe := fresh "Hprobe" in
          destruct (TypeScriptParser.probe existsSync base exts) as [q|] eqn:Hprobe;
          cbn [default id];
          [ intros Hno; apply probe_some in Hprobe;
            unfold Datatypes.id in Hno; congruence
          | intros _; by apply probe_none ]
      end ].

(** X17: the TypeScript classifier calls an import builtin exactly when its
    first path segment is in the builtin list, internal exactly when it is
    not builtin and starts with [.] or [/], and external otherwise, with
    the package name of [getPackageName]; an internal target that does not
    exist on disk means that none of the probed candidates exists. *)
Theorem typescript_classification (existsSync : string -> bool)
  (cwd importPath fromFile basePath : string) :
  let d := TypeScriptParser.classifyDependency existsSync cwd importPath
             fromFile basePath in
  dfrom d = fromFile /\ importStatements d = [importPath]
  /\ (dtype d = builtin <-> TypeScriptParser.isNodeBuiltin importPath = true)
  /\ (dtype d = internal <->
      TypeScriptParser.isNodeBuiltin importPath = false
      /\ (JsString.startsWith "." importPath = true
          \/ JsString.startsWith "/" importPath = true))
  /\ (dtype d = external ->
      dto d = importPath
      /\ packageName d = Some (TypeScriptParser.getPackageName importPath))
  /\ (dtype d = internal -> existsSync (dto d) = false ->
      forall ext, ext ∈ TypeScriptParser.extensions ->
        existsSync (dto d +:+ ext) = false
        /\ existsSync (Path.join (dto d) ("index" +:+ ext)) = false).
Proof.
  unfold TypeScriptParser.classifyDependency, TypeScriptParser.internalTo.
  destruct (TypeScriptParser.isNodeBuiltin importPath) eqn:Hb.
  { cbn [dfrom dto dtype packageName importStatements].
    split_and!; try done. split; [done|by intros [? _]]. }
  destruct (JsString.startsWith "." importPath) eqn:Hdot,
           (JsString.startsWith "/" importPath) eqn:Hslash;
    cbn [orb].
  4: { cbn [dfrom dto dtype packageName importStatements].
       split_and!; try done. split; [done|]. intros (_ & [?|?]); done. }
  all: relative_case existsSync cwd importPath fromFile.
Qed.

(** X18: the Python classifier calls an import builtin exactly when its first
    dotted component is a standard-library module; an import that starts
    with a dot is always internal; an import without leading dot is
    internal only with a target that exists on disk, and external imports
    keep the specifier as target. *)
Theorem python_classification (existsSync : string -> bool)
  (importPath fromFile basePath : string) :
  let d := PythonParser.classifyPythonDependency existsSync importPath
             fromFile basePath in
  (dtype d = builtin <-> PythonParser.isPythonBuiltin importPath = true)
  /\ (PythonParser.startsWithDot importPath = true -> dtype d = internal)
  /\ (PythonParser.startsWithDot importPath = false ->
      dtype d = internal -> existsSync (dto d) = true)
  /\ (dtype d = external ->
      PythonParser.startsWithDot importPath = false
      /\ dto d = importPath
      /\ packageName d = head (Path.split PythonParser.dot importPath)).
Proof.
  unfold PythonParser.classifyPythonDependency.
  destruct (PythonParser.isPythonBuiltin importPath) eqn:Hb.
  { cbn [dtype dto packageName]. split_and!; try done.
    intros Hdot. apply isPythonBuiltin_relative in Hdot. congruence. }
  destruct (PythonParser.startsWithDot importPath) eqn:Hdot.
  { cbn [dtype dto packageName]. split_and!; try done. }
  cbv zeta.
  match goal with
  | |- context [filter ?P ?l] => destruct (filter P l) as [|localPath rest] eqn:Hf
  end; cbn [dtype dto packageName].
  - split_and!; try done.
  - split_and!; try done. intros _ _.
    assert (localPath ∈ localPath :: rest) as Hin by left.
    rewrite <- Hf in Hin. by apply list_elem_of_filter in Hin as [? _].
Qed.

Section ScanFacts.

Import CircularDetector.

Variable cwd : string.
Variable extractDependencies : Language -> string -> string -> list Dependency.

Lemma probeExtensions_ends fileSet file resolvedTarget exts rel :
  rel ∈ probeExtensions fileSet file resolvedTarget exts ->
  source rel = file /\ target rel ∈ fileSet.
Proof.
  induction exts as [|ext exts IH]; [by intros ?%elem_of_nil|]. simpl.
  repeat case_decide; [intros ->%list_elem_of_singleton..|]; auto.
Qed.

Lemma detector_relationship_ends files basePath language rel :
  rel ∈ extractRelationships cwd extractDependencies files basePath language ->
  source rel ∈ files /\ target rel ∈ map (Path.resolve cwd) files.
Proof.
  unfold extractRelationships.
  rewrite list_elem_of_In, in_flat_map.
  intros (file & Hfile%list_elem_of_In & Hrel).
  apply in_flat_map in Hrel as (dep & _ & Hrel%list_elem_of_In).
  unfold relationshipsOfDependency in Hrel.
  case_decide; [|by apply elem_of_nil in Hrel].
  case_decide.
  - apply list_elem_of_singleton in Hrel as ->. by split.
  - apply probeExtensions_ends in Hrel as [-> ?]. by split.
Qed.

End ScanFacts.

(** X19: [detectCircularDependencies] never reports a file outside the scan:
    every affected file is one of the scanned paths or the resolved form of
    one; the nodes of every listed cycle are among the affected files; and
    the affected files are empty exactly when [hasCycles] is false. *)
Theorem detected_cycles_stay_within_the_scan
  (cwd : string) (extractDependencies : Language -> string -> string -> list Dependency)
  (files : list string) (inputPath : string) (language : Language)
  (maxCycles : Z) :
  let out :=
    CircularDetector.detectCircularDependencies cwd extractDependencies
      files inputPath language maxCycles in
  (forall f, f ∈ CircularDetector.affectedFiles out ->
     f ∈ files \/ f ∈ map (Path.resolve cwd) files)
  /\ (forall c f, c ∈ CircularDetector.cycles out -> f ∈ cnodes c ->
        f ∈ CircularDetector.affectedFiles out)
  /\ (CircularDetector.affectedFiles out = []
      <-> CircularDetector.hasCycles out = false).
Proof.
  unfold CircularDetector.detectCircularDependencies.
  destruct files as [|file files].
  { cbn [CircularDetector.affectedFiles CircularDetector.cycles
         CircularDetector.hasCycles].
    split_and!; [by intros f ?%elem_of_nil|by intros c f ?%elem_of_nil|done]. }
  cbv zeta.
  cbn [CircularDetector.affectedFiles CircularDetector.cycles
       CircularDetector.hasCycles].
  set (rels := CircularDetector.extractRelationships cwd extractDependencies
                 (file :: files) inputPath language).
  set (g := GraphUtils.buildGraph rels).
  pose proof (wfGraph_buildGraph rels) as Hwf. fold g in Hwf.
  destruct (findStronglyConnectedComponents_spec g Hwf) as (Hsound & _ & _).
  destruct (setOfList_spec (flat_map cnodes (GraphUtils.findCycles g)))
    as [_ Hset].
  assert (forall f, f ∈ flat_map cnodes (GraphUtils.findCycles g) <->
            exists c, c ∈ GraphUtils.findCycles g /\ f ∈ cnodes c) as Hflat.
  { intros f. rewrite list_elem_of_In, in_flat_map.
    split; intros (c & Hc & Hf); exists c; by rewrite ?list_elem_of_In in *. }
  split_and!.
  - intros f. rewrite Hset, Hflat.
    intros (c & (scc & Hscc & ->)%findCycles_elem & Hf). simpl in Hf.
    destruct (Hsound scc Hscc) as (_ & _ & Hmem).
    destruct (Hmem f Hf) as [Hnode _].
    apply buildGraph_nodes_elem in Hnode as (rel & Hrel & Hends).
    apply detector_relationship_ends in Hrel as [Hs Ht].
    destruct Hends as [->| ->]; auto.
  - intros c f Hc Hf. apply Hset, Hflat. exists c. split; [|done].
    unfold CircularDetector.slice0 in Hc.
    case_decide; by apply elem_of_take in Hc as (? & ?%list_elem_of_lookup_2 & _).
  - rewrite bool_decide_eq_false. split.
    + intros Hnil Hpos.
      destruct (GraphUtils.findCycles g) as [|c cs] eqn:Hcycles;
        [simpl in Hpos; lia|].
      assert (c ∈ GraphUtils.findCycles g) as Hc by (rewrite Hcycles; left).
      apply findCycles_elem in Hc as (scc & Hscc & ->).
      destruct (Hsound scc Hscc) as (Hlen & _).
      destruct scc as [|x scc]; [simpl in Hlen; lia|].
      assert (x ∈ CircularDetector.setOfList
                    (flat_map cnodes (mkCycle g (x :: scc) :: cs))) as Hx.
      { apply Hset, Hflat. exists (mkCycle g (x :: scc)). split; left. }
      rewrite Hnil in Hx. by apply elem_of_nil in Hx.
    + intros Hno. destruct (GraphUtils.findCycles g); [done|].
      exfalso. apply Hno. simpl. lia.
Qed.

(** ** Cohesion and grouping *)

Section CohesionFacts.

Import ModuleMapper.

Lemma length_filter_split {A : Type} (P : A -> Prop)
  `{!forall x, Decision (P x)} (l : list A) :
  length (filter P l) + length (filter (fun x => ~ P x) l) = length l.
Proof.
  induction l as [|x l IH]; [done|]. rewrite !filter_cons.
  destruct (decide (P x)).
  - rewrite decide_False by tauto. simpl. lia.
  - rewrite decide_True by done. simpl. lia.
Qed.

(** There are at most [m * (m - 1)] ordered pairs of distinct elements of
    a list of [m] elements. *)
Lemma distinct_pairs_bound (S : list string) (pairs : list (string * string)) :
  NoDup S -> NoDup pairs ->
  (forall p, p ∈ pairs -> p.1 ∈ S /\ p.2 ∈ S /\ p.1 <> p.2) ->
  length pairs <= length S * (length S - 1).
Proof.
  intros HS Hnd Hin.
  set (all := list_prod S S).
  assert (length all = length S * length S) as Hall by apply length_prod.
  pose proof (length_filter_split (fun p : string * string => p.1 = p.2) all) as Hsplit.
  assert (length S <= length (filter (fun p : string * string => p.1 = p.2) all)) as Hdiag.
  { rewrite <- (length_map (fun a => (a, a)) S).
    apply submseteq_length, NoDup_submseteq.
    - apply NoDup_fmap_2; [by intros a b [= ->]|done].
    - intros p (a & -> & Ha)%list_elem_of_fmap.
      apply list_elem_of_filter. split; [done|].
      apply list_elem_of_In, in_prod; by apply list_elem_of_In. }
  assert (length pairs <= length (filter (fun p : string * string => p.1 <> p.2) all)) as Hoff.
  { apply submseteq_length, NoDup_submseteq; [done|].
    intros [a b] Hp. destruct (Hin _ Hp) as (Ha & Hb & Hne). simpl in *.
    apply list_elem_of_filter. split; [done|].
    apply list_elem_of_In, in_prod; by apply list_elem_of_In. }
  nia.
Qed.

Lemma calculateGroupCohesion_nonneg groupFiles relationships :
  (0 <= calculateGroupCohesion groupFiles relationships)%Q.
Proof.
  unfold calculateGroupCohesion. repeat case_decide; [done|done|].
  apply Qle_shift_div_l; [apply ofNat_pos; lia|].
  rewrite Qmult_0_l. apply ofNat_nonneg.
Qed.

Lemma internal_relationships_bound groupFiles relationships :
  NoDup (map (fun rel => (source rel, target rel)) relationships) ->
  (forall rel, rel ∈ relationships -> source rel <> target rel) ->
  length (filter (fun rel => source rel ∈ groupFiles /\ target rel ∈ groupFiles)
            relationships)
  <= length groupFiles * (length groupFiles - 1).
Proof.
  intros Hnd Hne.
  set (inner := filter _ relationships).
  rewrite <- (length_map (fun rel => (source rel, target rel)) inner).
  assert (length (remove_dups groupFiles) <= length groupFiles) as Hlen.
  { apply submseteq_length, NoDup_submseteq; [apply NoDup_remove_dups|].
    intros x. by rewrite elem_of_remove_dups. }
  etrans.
  - apply (distinct_pairs_bound (remove_dups groupFiles)).
    + apply NoDup_remove_dups.
    + apply (sublist_NoDup _ (map (fun rel => (source rel, target rel)) relationships));
        [exact Hnd|].
      apply (fmap_sublist (fun rel => (source rel, target rel))), sublist_filter.
    + intros p (rel & -> & Hrel)%list_elem_of_fmap.
      apply list_elem_of_filter in Hrel as [[Hs Ht] Hrel]. simpl.
      rewrite !elem_of_remove_dups. auto.
  - nia.
Qed.

End CohesionFacts.

(** X20: the cohesion of a group is never negative, and it is at most 1 when
    no two relationships join the same source and target and no file
    imports itself (the grouping counts relationships, not distinct pairs
    of files). *)
Theorem group_cohesion_in_unit_interval
  (groupFiles : list string) (relationships : list Relationship) :
  NoDup (map (fun rel => (source rel, target rel)) relationships) ->
  (forall rel, rel ∈ relationships -> source rel <> target rel) ->
  (0 <= ModuleMapper.calculateGroupCohesion groupFiles relationships <= 1)%Q.
Proof.
  intros Hnd Hne. split; [apply calculateGroupCohesion_nonneg|].
  pose proof (internal_relationships_bound groupFiles relationships Hnd Hne) as Hle.
  unfold ModuleMapper.calculateGroupCohesion.
  repeat case_decide; [done|done|].
  apply ratio_unit; [done|lia].
Qed.

Lemma group_cohesion_in_unit_interval_witness :
  (0 <= ModuleMapper.calculateGroupCohesion ["A"; "B"]
          [ {| source := "A"; target := "B"; rtype := Import; imports := None;
               weight := 1 |} ] <= 1)%Q.
Proof.
  apply group_cohesion_in_unit_interval.
  - apply NoDup_singleton.
  - by intros rel ->%list_elem_of_singleton.
Defined.

Section GroupingFacts.

Import Grouping.

Variable key : string -> string.

Definition Grouped (processed : list string) (groups : list (string * list string))
  : Prop :=
  NoDup (map fst groups)
  /\ forall name members,
       (name, members) ∈ groups <->
       members <> [] /\ members = filter (fun f => key f = name) processed.

Lemma pushTo_fst name file groups :
  forall k, k ∈ map fst (pushTo name file groups) <-> k = name \/ k ∈ map fst groups.
Proof.
  induction groups as [|[k' m] groups IH]; intros k; simpl.
  - rewrite list_elem_of_singleton, elem_of_nil. tauto.
  - case_decide as Hk; simpl; rewrite !elem_of_cons, ?IH; subst; tauto.
Qed.

Lemma pushTo_NoDup name file groups :
  NoDup (map fst groups) -> NoDup (map fst (pushTo name file groups)).
Proof.
  induction groups as [|[k m] groups IH]; simpl; intros Hnd.
  - apply NoDup_singleton.
  - apply NoDup_cons in Hnd as [Hk Hnd]. case_decide as Heq; simpl.
    + by apply NoDup_cons.
    + apply NoDup_cons. split; [|auto].
      rewrite pushTo_fst. intros [->|?]; done.
Qed.

Lemma pushTo_elem name file groups k members :
  NoDup (map fst groups) ->
  (k, members) ∈ pushTo name file groups <->
  (k <> name /\ (k, members) ∈ groups)
  \/ (k = name
      /\ ((exists m, (name, m) ∈ groups /\ members = m ++ [file])
          \/ ((name ∉ map fst groups) /\ members = [file]))).
Proof.
  induction groups as [|[k' m'] groups IH]; cbn [pushTo map fst]; intros Hnd.
  - rewrite list_elem_of_singleton. split.
    + intros [= -> ->]. right. split; [done|]. right. split; [|done].
      apply not_elem_of_nil.
    + intros [[_ ?%elem_of_nil]|[-> [(m & ?%elem_of_nil & _)|[_ ->]]]]; done.
  - apply NoDup_cons in Hnd as [Hk' Hnd]. specialize (IH Hnd).
    assert (forall m, (k', m) ∈ groups -> False) as Hfresh.
    { intros m Hin. apply Hk'. apply list_elem_of_fmap. by exists (k', m). }
    rewrite not_elem_of_cons.
    case_decide as Heq.
    + subst k'. rewrite !elem_of_cons. split.
      * intros [[= -> ->]|Hin].
        -- right. split; [done|]. left. exists m'. split; [by left|done].
        -- left. split; [|by right]. intros ->. by apply (Hfresh members).
      * intros [[Hne [[= ? ?]|Hin]]|[-> [(m & [[= <-]|Hin]%elem_of_cons & ->)|[[Hno _] _]]]].
        -- done.
        -- by right.
        -- by left.
        -- by apply Hfresh in Hin.
        -- done.
    + rewrite !elem_of_cons, IH. split.
      * intros [[= -> ->]|[[Hne Hin]|[-> Hcase]]].
        -- left. split; [done|by left].
        -- left. split; [done|by right].
        -- right. split; [done|].
           destruct Hcase as [(m & Hin & ->)|[Hno ->]].
           ++ left. exists m. split; [by right|done].
           ++ right. split; [|done]. split; [by intros ->|done].
      * intros [[Hne [[= -> ->]|Hin]]|[-> Hcase]].
        -- by left.
        -- right. left. done.
        -- right. right. split; [done|].
           destruct Hcase as [(m & [[= ? ?]|Hin]%elem_of_cons & ->)|[[_ Hno] ->]].
           ++ done.
           ++ left. by exists m.
           ++ by right.
Qed.

Lemma grouping_spec (files : list string) :
  Grouped files
    (fold_left (fun groups file => pushTo (key file) file groups) files []).
Proof.
  induction files as [|x files IH] using rev_ind.
  - split; [constructor|]. intros name members. simpl.
    rewrite elem_of_nil. split; [done|]. by intros [? ->].
  - rewrite fold_left_app. cbn [fold_left].
    destruct IH as [Hnd Hiff].
    set (groups := fold_left _ files []) in *.
    split; [by apply pushTo_NoDup|].
    intros name members. rewrite pushTo_elem by done.
    rewrite filter_app, filter_cons, filter_nil. split.
    + intros [[Hne Hin]|[-> [(m & Hin & ->)|[Hno ->]]]].
      * apply Hiff in Hin as [Hm ->]. rewrite decide_False by done.
        by rewrite app_nil_r.
      * apply Hiff in Hin as [Hm ->]. rewrite decide_True by done.
        split; [|done]. by intros [? _]%app_eq_nil.
      * rewrite decide_True by done. split; [done|].
        destruct (filter (fun f => key f = key x) files) as [|y ys] eqn:Hf; [done|].
        exfalso. apply Hno. apply list_elem_of_fmap. exists (key x, y :: ys).
        split; [done|]. apply Hiff. by rewrite Hf.
    + intros [Hm ->]. destruct (decide (key x = name)) as [<-|Hne].
      * right. split; [done|].
        destruct (filter (fun f => key f = key x) files) as [|y ys] eqn:Hf.
        -- right. split; [|done].
           intros ([k m] & Hk & Hin)%list_elem_of_fmap. simpl in Hk. subst k.
           apply Hiff in Hin as [Hm' ->]. by rewrite Hf in Hm'.
        -- left. exists (y :: ys). split; [|done]. apply Hiff. by rewrite Hf.
      * left. split; [done|]. rewrite app_nil_r in *. by apply Hiff.
Qed.

End GroupingFacts.

(** X21: [groupByFeature] and [groupByLayer] partition the files: group names
    are distinct, no group is empty, and a group holds, in scan order,
    exactly the files whose relative path first matches the pattern of
    that name (or no pattern, for the fallback group). *)
Theorem feature_and_layer_groups_partition_the_files
  (relative : string -> string -> string) (files : list string)
  (basePath : string) :
  (NoDup (map fst (Grouping.groupByFeature relative files basePath))
   /\ forall name members,
        (name, members) ∈ Grouping.groupByFeature relative files basePath <->
        members <> []
        /\ members
           = filter (fun f => Grouping.featureOf relative basePath f = name) files)
  /\ (NoDup (map fst (Grouping.groupByLayer relative files basePath))
      /\ forall name members,
           (name, members) ∈ Grouping.groupByLayer relative files basePath <->
           members <> []
           /\ members
              = filter (fun f => Grouping.layerOf relative basePath f = name) files).
Proof.
  split.
  - apply (grouping_spec (Grouping.featureOf relative basePath)).
  - apply (grouping_spec (Grouping.layerOf relative basePath)).
Qed.

(** ** The architecture overview: external dependencies and layers *)

Section ExternalFacts.

Import ArchitectureOverview.

(** What the map of [identifyExternalDependencies] satisfies after [n]
    qualifying imports out of the files [fs]. *)
Definition Usage (fs : list string) (n : nat)
  (externalDeps : list (string * (list string * nat))) : Prop :=
  NoDup (map fst externalDeps)
  /\ sum_list_with (fun e => snd (snd e)) externalDeps = n
  /\ Forall (fun e =>
       e.1 <> ""
       /\ NoDup (fst (snd e))
       /\ (forall f, f ∈ fst (snd e) -> f ∈ fs)
       /\ 1 <= length (fst (snd e)) <= snd (snd e)) externalDeps.

Lemma recordUse_fst name file deps k :
  k ∈ map fst (recordUse name file deps) <-> k = name \/ k ∈ map fst deps.
Proof.
  induction deps as [|[k' [u c]] deps IH]; simpl.
  - rewrite list_elem_of_singleton, elem_of_nil. tauto.
  - case_decide as Hk; simpl; rewrite !elem_of_cons, ?IH; subst; tauto.
Qed.

Lemma Usage_mono fs fs' n deps :
  (forall f, f ∈ fs -> f ∈ fs') -> Usage fs n deps -> Usage fs' n deps.
Proof.
  intros Hsub (Hnd & Hsum & Hall). split; [done|]. split; [done|].
  eapply Forall_impl; [exact Hall|]. intros e (? & ? & ? & ?).
  repeat split; auto; lia.
Qed.

Lemma recordUse_Usage fs n name file deps :
  name <> "" -> file ∈ fs ->
  Usage fs n deps -> Usage fs (S n) (recordUse name file deps).
Proof.
  intros Hname Hfile (Hnd & Hsum & Hall). revert n Hsum.
  induction deps as [|[k [u c]] deps IH]; intros n Hsum.
  - simpl in *. subst n. split; [apply NoDup_singleton|]. split; [done|].
    apply Forall_singleton. cbn [fst snd]. split; [done|].
    split; [apply NoDup_singleton|]. split; [|simpl; lia].
    by intros f ->%list_elem_of_singleton.
  - cbn [map fst] in Hnd. apply NoDup_cons in Hnd as [Hk Hnd].
    apply Forall_cons in Hall as [(Hne & Hu & Hin & Hlen) Hall].
    cbn [sum_list_with snd] in Hsum. cbn [fst snd] in *.
    cbn [recordUse]. case_decide as Heq.
    + subst k. repeat split.
      * cbn [map fst]. by apply NoDup_cons.
      * cbn [sum_list_with snd]. lia.
      * apply Forall_cons. split; [|done]. cbn [fst snd].
        case_decide as Hmem.
        -- repeat split; auto; lia.
        -- repeat split; auto.
           ++ apply NoDup_app. repeat split; [done| |apply NoDup_singleton].
              by intros f Hf ->%list_elem_of_singleton.
           ++ intros f [?| ->%list_elem_of_singleton]%elem_of_app; auto.
           ++ rewrite length_app. simpl. lia.
           ++ rewrite length_app. simpl. lia.
    + destruct (IH Hnd Hall (n - c)) as (Hnd' & Hsum' & Hall'); [lia|].
      repeat split.
      * cbn [map fst]. apply NoDup_cons. split; [|done].
        rewrite recordUse_fst. intros [->|?]; done.
      * cbn [sum_list_with snd]. lia.
      * apply Forall_cons. split; [|done]. by cbn [fst snd].
Qed.

Lemma sum_list_with_perm {A : Type} (f : A -> nat) (l l' : list A) :
  l ≡ₚ l' -> sum_list_with f l = sum_list_with f l'.
Proof. induction 1; simpl; lia. Qed.

Variable extractDependencies : Language -> string -> string -> list Dependency.

Lemma packageOf_nonempty dep name : packageOf dep = Some name -> name <> "".
Proof.
  unfold packageOf. destruct (dtype dep); try done.
  destruct (packageName dep) as [[|c p]|]; try done. by intros [= <-].
Qed.

Lemma inner_Usage fs n file deps acc :
  file ∈ fs -> Usage fs n acc ->
  Usage fs (n + length (filter (fun dep => is_Some (packageOf dep)) deps))
    (fold_left
       (fun externalDeps dep =>
          match packageOf dep with
          | Some name => recordUse name file externalDeps
          | None => externalDeps
          end) deps acc).
Proof.
  intros Hfile. revert n acc.
  induction deps as [|dep deps IH]; intros n acc Hacc; simpl.
  - by rewrite Nat.add_0_r.
  - rewrite filter_cons. destruct (packageOf dep) as [name|] eqn:Hp.
    + destruct (decide (is_Some (Some name))) as [_|[]]; [|by eexists].
      simpl. replace (n + S _) with (S n + length
        (filter (fun dep => is_Some (packageOf dep)) deps)) by lia.
      apply IH. apply recordUse_Usage; [|done..].
      by eapply packageOf_nonempty.
    + destruct (decide (is_Some (@None string))) as [[? [=]]|_]. by apply IH.
Qed.

Lemma outer_Usage basePath language (files : list string) :
  Usage files (length (externalImports extractDependencies files basePath language))
    (fold_left
      (fun externalDeps file =>
         fold_left
           (fun externalDeps dep =>
              match packageOf dep with
              | Some name => recordUse name file externalDeps
              | None => externalDeps
              end)
           (extractDependencies language file basePath) externalDeps)
      files []).
Proof.
  induction files as [|x files IH] using rev_ind.
  - simpl. repeat split; [constructor|constructor].
  - rewrite fold_left_app. cbn [fold_left].
    unfold externalImports. rewrite flat_map_app, length_app.
    cbn [flat_map]. rewrite app_nil_r.
    apply inner_Usage.
    + apply elem_of_app. right. by apply list_elem_of_singleton.
    + eapply Usage_mono; [|exact IH]. intros f Hf. apply elem_of_app. by left.
Qed.

End ExternalFacts.

(** X22: [identifyExternalDependencies] lists every package once, the most
    used first, and its usage counts add up to the number of imports it
    counted: the imports classified external that carry a non-empty package
    name.  Every entry counts at least one import, names its importing
    files without repetition, all of them scanned files, and never more
    files than imports. *)
Theorem external_dependencies_account_for_every_external_import
  (extractDependencies : Language -> string -> string -> list Dependency)
  (files : list string) (basePath : string) (language : Language) :
  let result :=
    ArchitectureOverview.identifyExternalDependencies extractDependencies
      files basePath language in
  NoDup (map ArchitectureOverview.ename result)
  /\ StronglySorted
       (fun a b =>
          ArchitectureOverview.usageCount b <= ArchitectureOverview.usageCount a)
       result
  /\ sum_list_with ArchitectureOverview.usageCount result
     = length (externalImports extractDependencies files basePath language)
  /\ forall d, d ∈ result ->
       ArchitectureOverview.ename d <> ""
       /\ NoDup (ArchitectureOverview.usedBy d)
       /\ (forall f, f ∈ ArchitectureOverview.usedBy d -> f ∈ files)
       /\ 1 <= length (ArchitectureOverview.usedBy d)
            <= ArchitectureOverview.usageCount d
       /\ ArchitectureOverview.category d
          = ArchitectureOverview.categoryOf (ArchitectureOverview.ename d).
Proof.
  intros result.
  destruct (outer_Usage extractDependencies basePath language files)
    as (Hnd & Hsum & Hall).
  unfold result, ArchitectureOverview.identifyExternalDependencies.
  set (deps := fold_left _ files []) in *.
  set (conv := fun '(name, (users, count)) => _).
  assert (Hperm := sortDescending_perm ArchitectureOverview.usageCount
                     (map conv deps)).
  split; [|split; [|split]].
  - rewrite Hperm, map_map.
    erewrite map_ext; [exact Hnd|]. by intros [k [u c]].
  - apply sortDescending_sorted.
  - rewrite (sum_list_with_perm _ _ _ Hperm). rewrite <- Hsum.
    clear. induction deps as [|[k [u c]] deps IH]; [done|]. simpl. by rewrite IH.
  - intros d Hd. rewrite Hperm in Hd.
    apply list_elem_of_fmap in Hd as ([k [u c]] & -> & Hin).
    rewrite Forall_forall in Hall.
    destruct (Hall _ Hin) as (? & ? & ? & ?). by cbn [fst snd] in *.
Qed.

Section LayerFacts.

Import Grouping ArchitectureOverview.

Variable relative : string -> string -> string.
Variable basePath : string.

Let key := layerNameOf relative basePath.

(** The modules of every layer of the map. *)
Definition layerModules (layers : list (string * LayerData))
  : list (string * list string) :=
  map (fun e => (fst e, ld_modules (snd e))) layers.

(** A layer of the map carries the type and description of its pattern. *)
Definition fromPattern (e : string * LayerData) : Prop :=
  exists lp, lp ∈ layerPatterns /\ fst e = pname lp
    /\ ld_type (snd e) = ptype lp /\ ld_description (snd e) = pdescription lp.

Lemma layerModules_pushModule lp file layers :
  layerModules (pushModule lp file layers)
  = pushTo (pname lp) file (layerModules layers).
Proof.
  induction layers as [|[k d] layers IH]; [done|]. simpl.
  case_decide; simpl; [done|]. by rewrite IH.
Qed.

Lemma pushModule_fromPattern lp file layers :
  lp ∈ layerPatterns ->
  Forall fromPattern layers -> Forall fromPattern (pushModule lp file layers).
Proof.
  intros Hlp. induction 1 as [|[k d] layers Hd Hall IH]; simpl.
  - apply Forall_singleton. by exists lp.
  - case_decide as Hk.
    + apply Forall_cons. split; [|done].
      destruct Hd as (lp' & ? & ? & ? & ?). by exists lp'.
    + by apply Forall_cons.
Qed.

Lemma firstPattern_elem patterns p lp :
  firstPattern patterns p = Some lp -> lp ∈ patterns.
Proof.
  induction patterns as [|q patterns IH]; [done|]. simpl.
  destruct (matchesDirectory _ _).
  - intros [= ->]. apply elem_of_cons. by left.
  - intros ?. apply elem_of_cons. right. auto.
Qed.

Lemma pattern_names : Forall (fun lp => pname lp <> "Other") layerPatterns.
Proof. repeat constructor; done. Qed.

Lemma key_other file :
  key file = "Other"
  <-> firstPattern layerPatterns ("/" +:+ relative basePath file) = None.
Proof.
  unfold key, layerNameOf.
  destruct (firstPattern _ _) as [lp|] eqn:Hp; [|done].
  apply firstPattern_elem in Hp.
  pose proof pattern_names as Hn. rewrite Forall_forall in Hn.
  split; [|done]. intros ?. by destruct (Hn _ Hp).
Qed.

Lemma layerLoop_spec (files : list string) :
  let st := fold_left (layerStep relative basePath) files ([], []) in
  layerModules (fst st)
  = fold_left (fun groups file => pushTo (key file) file groups)
      (filter (fun f => key f <> "Other") files) []
  /\ snd st = filter (fun f => key f = "Other") files
  /\ Forall fromPattern (fst st).
Proof.
  induction files as [|x files IH] using rev_ind; [by repeat split|].
  rewrite fold_left_app. cbn [fold_left].
  destruct (fold_left _ files ([], [])) as [layers unmatched].
  cbn zeta in IH. cbn [fst snd] in IH. destruct IH as (Hm & Hu & Hp).
  rewrite !filter_app, !filter_cons, !filter_nil.
  pose proof (key_other x) as Hx.
  unfold layerStep.
  destruct (firstPattern _ _) as [lp|] eqn:Hlp; cbn [fst snd].
  - assert (key x = pname lp) as Hk by (unfold key, layerNameOf; by rewrite Hlp).
    assert (key x <> "Other") as Hne by (intros E; by apply Hx in E).
    rewrite decide_True, decide_False by done.
    rewrite fold_left_app. cbn [fold_left].
    rewrite layerModules_pushModule, Hm, Hk, app_nil_r.
    repeat split; [done|].
    apply pushModule_fromPattern; [|done]. by eapply firstPattern_elem.
  - assert (key x = "Other") as Hk by by apply Hx.
    rewrite decide_False, decide_True by (done || by intros []).
    by rewrite app_nil_r, Hu.
Qed.

Lemma mapSet_fresh {V : Type} key' (v : V) (m : list (string * V)) :
  key' ∉ map fst m -> mapSet key' v m = m ++ [(key', v)].
Proof.
  induction m as [|[k w] m IH]; [done|]. simpl.
  intros [Hk Hm]%not_elem_of_cons. rewrite decide_False by done.
  by rewrite IH.
Qed.

Lemma fromPattern_names layers :
  Forall fromPattern layers -> "Other" ∉ map fst layers.
Proof.
  intros Hall ([k d] & Hk & Hin)%list_elem_of_fmap.
  rewrite Forall_forall in Hall.
  destruct (Hall _ Hin) as (lp & Hlp & Hname & _).
  pose proof pattern_names as Hn. rewrite Forall_forall in Hn.
  apply (Hn _ Hlp). simpl in *. congruence.
Qed.

Lemma filter_filter_key name (files : list string) :
  name <> "Other" ->
  filter (fun f => key f = name) (filter (fun f => key f <> "Other") files)
  = filter (fun f => key f = name) files.
Proof.
  intros Hname. induction files as [|x files IH]; [done|].
  rewrite !filter_cons. destruct (decide (key x = name)) as [Hk|Hk].
  - rewrite decide_True by congruence. by rewrite filter_cons, decide_True, IH.
  - case_decide; [|done]. by rewrite filter_cons, decide_False.
Qed.

(** The map of [identifyLayers] once the unmatched files are filed. *)
Definition withOther (layers : list (string * LayerData))
  (unmatchedFiles : list string) : list (string * LayerData) :=
  match unmatchedFiles with
  | [] => layers
  | _ =>
      mapSet "Other"
        {| ld_modules := unmatchedFiles; ld_type := unknown;
           ld_description := "Files not matching standard layer patterns" |}
        layers
  end.

Lemma withOther_spec (files : list string) layers :
  Grouped key (filter (fun f => key f <> "Other") files) (layerModules layers) ->
  Forall fromPattern layers ->
  let final := withOther layers (filter (fun f => key f = "Other") files) in
  Grouped key files (layerModules final)
  /\ Forall (fun e => fromPattern e
                      \/ (fst e = "Other" /\ ld_type (snd e) = unknown)) final
  /\ (forall i e, final !! i = Some e -> fst e = "Other" -> S i = length final).
Proof.
  intros [Hnd Hiff] Hp final.
  pose proof (fromPattern_names _ Hp) as Hfresh.
  assert (map fst (layerModules layers) = map fst layers) as Hfst.
  { unfold layerModules. rewrite map_map. by apply map_ext. }
  assert (forall name members, name <> "Other" ->
            (name, members) ∈ layerModules layers <->
            members <> [] /\ members = filter (fun f => key f = name) files)
    as Hiff'.
  { intros name members Hname. rewrite Hiff. by rewrite filter_filter_key. }
  assert (forall members, (("Other" : string), members) ∉ layerModules layers)
    as Hno.
  { intros members Hin. apply Hfresh. rewrite <- Hfst.
    apply list_elem_of_fmap. by exists ("Other", members). }
  subst final. unfold withOther.
  destruct (filter (fun f => key f = "Other") files) as [|u us] eqn:Hu.
  - split; [|split].
    + split; [done|]. intros name members.
      destruct (decide (name = "Other")) as [->|Hname]; [|by apply Hiff'].
      rewrite Hu. split; [by intros ?%Hno|]. by intros [? ->].
    + eapply Forall_impl; [exact Hp|]. by left.
    + intros i [k d] Hi Hk. simpl in Hk. subst k. exfalso. apply Hfresh.
      apply list_elem_of_fmap. exists ("Other", d). split; [done|].
      by eapply list_elem_of_lookup_2.
  - rewrite mapSet_fresh by done. split; [|split].
    + split.
      * unfold layerModules. rewrite map_map, map_app. simpl.
        apply NoDup_app. split; [|split; [|apply NoDup_singleton]].
        -- by rewrite Hfst in Hnd.
        -- by intros k Hk ->%list_elem_of_singleton.
      * intros name members. unfold layerModules. rewrite map_app.
        rewrite elem_of_app. fold (layerModules layers). simpl.
        rewrite list_elem_of_singleton.
        destruct (decide (name = "Other")) as [->|Hname].
        -- rewrite Hu. split.
           ++ intros [?%Hno|[= ->]]; done.
           ++ intros [_ ->]. by right.
        -- rewrite Hiff' by done. split; [|by left].
           intros [?|[= ? _]]; done.
    + apply Forall_app. split.
      * eapply Forall_impl; [exact Hp|]. by left.
      * apply Forall_singleton. by right.
    + intros i [k d] Hi Hk. simpl in Hk. subst k. rewrite length_app. simpl.
      apply lookup_app_Some in Hi as [Hi|[Hle Hi]].
      * exfalso. apply Hfresh. apply list_elem_of_fmap. exists ("Other", d).
        split; [done|]. by eapply list_elem_of_lookup_2.
      * apply list_lookup_singleton_Some in Hi as [Hi _]. lia.
Qed.

Lemma identifyLayers_unfold (files : list string) :
  exists final,
    identifyLayers relative files basePath
    = map (fun '(name, d) =>
             {| lname := name; description := ld_description d;
                modules := ld_modules d; dependsOn := []; ltype := ld_type d |})
        final
    /\ Grouped key files (layerModules final)
    /\ Forall (fun e => fromPattern e
                        \/ (fst e = "Other" /\ ld_type (snd e) = unknown)) final
    /\ (forall i e, final !! i = Some e -> fst e = "Other" -> S i = length final).
Proof.
  destruct (layerLoop_spec files) as (Hm & Hu & Hp).
  unfold identifyLayers.
  destruct (fold_left _ files ([], [])) as [layers unmatched].
  cbn [fst snd] in *. subst unmatched.
  exists (withOther layers (filter (fun f => key f = "Other") files)).
  split; [done|]. apply withOther_spec; [|done].
  rewrite Hm. apply grouping_spec.
Qed.

End LayerFacts.

(** X23: [identifyLayers] partitions the files into layers: layer names are
    distinct, no layer is empty, a layer holds, in scan order, exactly the
    files whose relative path first matches its pattern, and the files that
    match no pattern form the layer ["Other"] of type [unknown], which
    comes last.  Every other layer carries the type and description of its
    pattern, and no layer has dependencies. *)
Theorem identifyLayers_partitions_the_files
  (relative : string -> string -> string) (files : list string)
  (basePath : string) :
  let result := ArchitectureOverview.identifyLayers relative files basePath in
  NoDup (map ArchitectureOverview.lname result)
  /\ (forall layer, layer ∈ result ->
        ArchitectureOverview.modules layer <> []
        /\ ArchitectureOverview.modules layer
           = filter (fun f => layerNameOf relative basePath f
                              = ArchitectureOverview.lname layer) files
        /\ ArchitectureOverview.dependsOn layer = []
        /\ ((ArchitectureOverview.lname layer = "Other"
             /\ ArchitectureOverview.ltype layer = ArchitectureOverview.unknown)
            \/ exists lp, lp ∈ ArchitectureOverview.layerPatterns
                 /\ ArchitectureOverview.lname layer = ArchitectureOverview.pname lp
                 /\ ArchitectureOverview.ltype layer = ArchitectureOverview.ptype lp
                 /\ ArchitectureOverview.description layer
                    = ArchitectureOverview.pdescription lp))
  /\ (forall f, f ∈ files ->
        exists layer, layer ∈ result
          /\ ArchitectureOverview.lname layer = layerNameOf relative basePath f
          /\ f ∈ ArchitectureOverview.modules layer)
  /\ (forall i layer, result !! i = Some layer ->
        ArchitectureOverview.lname layer = "Other" -> S i = length result).
Proof.
  intros result.
  destruct (identifyLayers_unfold relative basePath files)
    as (final & Hres & [Hnd Hiff] & Hall & Hlast).
  subst result. rewrite Hres. clear Hres.
  set (conv := fun '(name, d) => _).
  assert (forall e, ArchitectureOverview.lname (conv e) = fst e) as Hname
    by by intros [k d].
  split; [|split; [|split]].
  - rewrite map_map. erewrite map_ext; [|exact Hname].
    unfold layerModules in Hnd. rewrite map_map in Hnd.
    erewrite map_ext; [exact Hnd|]. done.
  - intros layer ([k d] & -> & Hin)%list_elem_of_fmap. cbn.
    assert ((k, ArchitectureOverview.ld_modules d) ∈ layerModules final) as Hk.
    { apply list_elem_of_fmap. by exists (k, d). }
    apply Hiff in Hk as [Hne Heq]. split; [done|]. split; [done|].
    split; [done|]. rewrite Forall_forall in Hall.
    destruct (Hall _ Hin) as [(lp & ? & ? & ? & ?)|[? ?]]; [right|left]; eauto.
  - intros f Hf.
    assert ((layerNameOf relative basePath f,
             filter (fun g => layerNameOf relative basePath g
                              = layerNameOf relative basePath f) files)
            ∈ layerModules final) as Hk.
    { apply Hiff. split; [|done]. intros Hnil.
      assert (f ∈ filter (fun g => layerNameOf relative basePath g
                                   = layerNameOf relative basePath f) files) as Hin
        by by apply list_elem_of_filter.
      rewrite Hnil in Hin. by apply elem_of_nil in Hin. }
    apply list_elem_of_fmap in Hk as ([k d] & [= Hk Hmods] & Hin).
    exists (conv (k, d)). split; [apply list_elem_of_fmap; by exists (k, d)|].
    cbn. split; [done|]. rewrite <- Hmods. by apply list_elem_of_filter.
  - intros i layer Hi Hother. rewrite length_map.
    rewrite list_lookup_fmap in Hi.
    destruct (final !! i) as [e|] eqn:He; [|done]. simpl in Hi.
    injection Hi as <-. apply (Hlast i e He). by rewrite <- Hname.
Qed.

(** ** [detectLanguage] *)

Section DetectLanguageFacts.

Import DetectLanguage.

Variable existsSync : string -> bool.
Variable readdirSync : string -> option (list (string * bool)).
Variable extname : string -> string.

Lemma countEntries_spec (entries : list (string * bool)) :
  countEntries extname entries
  = (length (filesWithExtension extname [".ts"; ".tsx"] entries),
     length (filesWithExtension extname [".js"; ".jsx"; ".mjs"; ".cjs"] entries),
     length (filesWithExtension extname [".py"] entries)).
Proof.
  unfold countEntries, filesWithExtension.
  induction entries as [|[name isFile] entries IH] using rev_ind; [done|].
  rewrite fold_left_app, IH. cbn [fold_left fst snd].
  rewrite !filter_app, !length_app, !filter_cons, !filter_nil. cbn [fst snd].
  destruct isFile.
  - f_equal; [f_equal|].
    + case_bool_decide as Hts.
      * rewrite decide_True by done. simpl. lia.
      * rewrite decide_False by (by intros [_ ?]). simpl. lia.
    + case_bool_decide as Hjs.
      * rewrite decide_True by done. simpl. lia.
      * rewrite decide_False by (by intros [_ ?]). simpl. lia.
    + destruct (String.eqb_spec (extname name) ".py") as [Hpy|Hpy].
      * rewrite decide_True; [simpl; lia|].
        split; [done|]. by apply list_elem_of_singleton.
      * rewrite decide_False; [simpl; lia|].
        by intros [_ ?%list_elem_of_singleton].
  - rewrite !decide_False by (by intros [? _]). simpl. by rewrite !Nat.add_0_r.
Qed.

Lemma byCounts_spec ts js py :
  (byCounts (ts, js, py) = typescript <-> js < ts /\ py < ts)
  /\ (byCounts (ts, js, py) = python <-> ~ (js < ts /\ py < ts) /\ js < py)
  /\ (byCounts (ts, js, py) = javascript <-> ~ (js < ts /\ py < ts) /\ py <= js).
Proof.
  unfold byCounts.
  destruct (Nat.ltb_spec js ts), (Nat.ltb_spec py ts), (Nat.ltb_spec js py);
    simpl; repeat split; try done; try lia; intros; lia.
Qed.

End DetectLanguageFacts.

(** X24: the four copies of [detectLanguage].  Those of the circular
    detector, the module mapper and the complexity analyzer always agree;
    the one of the dependency graph lists the directory first, so it agrees
    with them exactly when the directory can be listed or holds none of the
    configuration files, and answers [javascript] otherwise.  With no
    configuration file the answer follows the counts of the regular files
    by extension: TypeScript when its files strictly outnumber both others,
    else Python when its files strictly outnumber the JavaScript ones, else
    JavaScript. *)
Theorem detectLanguage_copies_and_majority
  (existsSync : string -> bool)
  (readdirSync : string -> option (list (string * bool)))
  (extname : string -> string) (dirPath : string) :
  let detect := DetectLanguage.ofCircularDetector existsSync readdirSync extname in
  DetectLanguage.ofModuleMapper existsSync readdirSync extname dirPath
  = detect dirPath
  /\ DetectLanguage.ofComplexityAnalyzer existsSync readdirSync extname dirPath
     = detect dirPath
  /\ (DetectLanguage.ofDependencyGraph existsSync readdirSync extname dirPath
      = detect dirPath
      <-> is_Some (readdirSync dirPath)
          \/ (DetectLanguage.hasTsConfig existsSync dirPath = false
              /\ DetectLanguage.hasPythonConfig existsSync dirPath = false))
  /\ (readdirSync dirPath = None ->
      DetectLanguage.ofDependencyGraph existsSync readdirSync extname dirPath
      = javascript)
  /\ (DetectLanguage.hasTsConfig existsSync dirPath = true ->
      detect dirPath = typescript)
  /\ (DetectLanguage.hasTsConfig existsSync dirPath = false ->
      DetectLanguage.hasPythonConfig existsSync dirPath = true ->
      detect dirPath = python)
  /\ forall entries,
       readdirSync dirPath = Some entries ->
       DetectLanguage.hasTsConfig existsSync dirPath = false ->
       DetectLanguage.hasPythonConfig existsSync dirPath = false ->
       let ts := length (filesWithExtension extname [".ts"; ".tsx"] entries) in
       let js :=
         length (filesWithExtension extname [".js"; ".jsx"; ".mjs"; ".cjs"]
                   entries) in
       let py := length (filesWithExtension extname [".py"] entries) in
       (detect dirPath = typescript <-> js < ts /\ py < ts)
       /\ (detect dirPath = python <-> ~ (js < ts /\ py < ts) /\ js < py)
       /\ (detect dirPath = javascript <-> ~ (js < ts /\ py < ts) /\ py <= js).
Proof.
  intros detect. subst detect.
  unfold DetectLanguage.ofModuleMapper, DetectLanguage.ofComplexityAnalyzer,
    DetectLanguage.ofDependencyGraph, DetectLanguage.ofCircularDetector.
  split; [done|]. split; [done|].
  destruct (DetectLanguage.hasTsConfig existsSync dirPath) eqn:Hts;
    destruct (DetectLanguage.hasPythonConfig existsSync dirPath) eqn:Hpy;
    destruct (readdirSync dirPath) as [entries|] eqn:Hdir;
    (split; [split; [intros ?; first [done | by right | by (left; eexists)]
                    |intros [[? [=]]|[[=] [=]]]; done]|]);
    (split; [done|]); (split; [done|]); (split; [done|]);
    intros entries' Hd Ht Hp; try done;
    injection Hd as <-; cbn zeta;
    rewrite countEntries_spec; apply byCounts_spec.
Qed.

(** A directory of two TypeScript files and a Python file, without
    configuration files: the answer is TypeScript. *)
Lemma detectLanguage_copies_and_majority_witness :
  DetectLanguage.ofCircularDetector (fun _ => false)
    (fun _ => Some [("a.ts", true); ("b.py", true); ("c.ts", true)])
    (fun name => if String.eqb name "b.py" then ".py" else ".ts") "/p"
  = typescript.
Proof.
  pose proof (detectLanguage_copies_and_majority (fun _ => false)
    (fun _ => Some [("a.ts", true); ("b.py", true); ("c.ts", true)])
    (fun name => if String.eqb name "b.py" then ".py" else ".ts") "/p")
    as (_ & _ & _ & _ & _ & _ & H).
  apply (H _ eq_refl eq_refl eq_refl). vm_compute. split; lia.
Defined.
